(** * Layout-aware RAG: chunk identity, bounding boxes, retrieval and citations

    A shallow embedding of the Python backend
    ([docling_processor.py], [neo4j_handler.py], [citation_processor.py],
    [main.py]) together with the properties its specification states.

    Conventions of the embedding.
    - A Python [str] is a list of Unicode code points ([N]); slicing,
      [strip] and the regular expression of the citation processor work on
      code points, exactly as in Python.
    - [bytes] are lists of [N] below 256, 32-bit words are [N] with the
      wrap-around written out.
    - A Python [int] is a [Z].  A finite [float] is a rational [Q]:
      comparison, [min] and [max] are exact on floats, so nothing is rounded
      in the code modelled here.
    - A raised exception is the [Raise] case of [result]. *)

From Stdlib Require Import ZArith NArith QArith Qminmax Lia List Ascii String.
From Stdlib Require Import DecimalString DecimalZ DecimalFacts.
From stdpp Require Import gmap list sorting.
From Equations Require Import Equations.

Close Scope Q_scope.
Local Open Scope N_scope.

(** ** Python values: strings, integers, exceptions *)

Module Py.

Abbreviation char := N (only parsing).
Abbreviation str := (list N) (only parsing).

(** A string literal of the source, as code points (ASCII literals only). *)
Definition lit (s : string) : str :=
  map N_of_ascii (list_ascii_of_string s).

(** The exceptions that the modelled code can raise. *)
Inductive exn :=
| UnicodeEncodeError
| IndexError
| EmbeddingError
| StoreError
| ParserError.

Inductive result (A : Type) :=
| Ok (a : A)
| Raise (e : exn).
Arguments Ok {A} a.
Arguments Raise {A} e.

#[export] Instance result_ret : MRet result := fun A a => Ok a.
#[export] Instance result_bind : MBind result := fun A B k m =>
  match m with
  | Ok a => k a
  | Raise e => Raise e
  end.

(** [str.isspace] for one code point, the table [str.strip()] uses
    (CPython's [_PyUnicode_IsWhitespace]). *)
Definition isspace (c : char) : bool :=
  ((9 <=? c) && (c <=? 13))
  || ((28 <=? c) && (c <=? 32))
  || (c =? 133) || (c =? 160) || (c =? 5760)
  || ((8192 <=? c) && (c <=? 8202))
  || (c =? 8232) || (c =? 8233) || (c =? 8239) || (c =? 8287)
  || (c =? 12288).

Fixpoint lstrip (s : str) : str :=
  match s with
  | [] => []
  | c :: s' => if isspace c then lstrip s' else s
  end.

Definition rstrip (s : str) : str := rev (lstrip (rev s)).

(** [s.strip()] *)
Definition strip (s : str) : str := rstrip (lstrip s).

(** [str(n)] for an [int]: decimal digits, with a leading minus sign. *)
Definition str_of_int (n : Z) : str :=
  lit (NilZero.string_of_int (Z.to_int n)).

(** [s[:n]] *)
Definition slice_to (n : nat) (s : str) : str := take n s.

(** A code point that UTF-8 can encode: not a surrogate, and in range. *)
Definition is_scalar (c : char) : bool :=
  (c <? 55296) || ((57343 <? c) && (c <? 1114112)).

(** The UTF-8 bytes of one code point. *)
Definition utf8_char (c : char) : list N :=
  if c <? 128 then [c]
  else if c <? 2048 then [192 + c / 64; 128 + c mod 64]
  else if c <? 65536 then
    [224 + c / 4096; 128 + (c / 64) mod 64; 128 + c mod 64]
  else
    [240 + c / 262144; 128 + (c / 4096) mod 64;
     128 + (c / 64) mod 64; 128 + c mod 64].

(** [s.encode("utf-8")]: raises on a lone surrogate. *)
Fixpoint encode_utf8 (s : str) : result (list N) :=
  match s with
  | [] => Ok []
  | c :: s' =>
      if is_scalar c
      then bs ← encode_utf8 s'; Ok (utf8_char c ++ bs)
      else Raise UnicodeEncodeError
  end.

(** The characters [str(n)] is made of: digits and the minus sign. *)
Definition int_char (c : char) : Prop := c = 45 \/ 48 <= c <= 57.

End Py.

Export Py.

(** ** SHA-1 ([hashlib.sha1], FIPS 180-4) on byte lists *)

Module SHA1.

Definition add32 (x y : N) : N := (x + y) mod 4294967296.

(** Rotate a 32-bit word left by [n] bits. *)
Definition rotl (n x : N) : N :=
  N.lor (N.shiftl x n mod 4294967296) (N.shiftr x (32 - n)).

Definition not32 (x : N) : N := N.lxor x 4294967295.

Definition f (t : nat) (b c d : N) : N :=
  if (t <? 20)%nat then N.lor (N.land b c) (N.land (not32 b) d)
  else if (t <? 40)%nat then N.lxor (N.lxor b c) d
  else if (t <? 60)%nat then
    N.lor (N.lor (N.land b c) (N.land b d)) (N.land c d)
  else N.lxor (N.lxor b c) d.

Definition k (t : nat) : N :=
  if (t <? 20)%nat then 0x5A827999
  else if (t <? 40)%nat then 0x6ED9EBA1
  else if (t <? 60)%nat then 0x8F1BBCDC
  else 0xCA62C1D6.

(** Big-endian value of a byte list. *)
Definition be_combine (bs : list N) : N :=
  fold_left (fun acc b => acc * 256 + b) bs 0.

(** The [w] low bytes of [x], most significant first. *)
Fixpoint be_split (w : nat) (x : N) : list N :=
  match w with
  | O => []
  | S w' => be_split w' (x / 256) ++ [x mod 256]
  end.

(** Message padding: a 1 bit, zeros up to 56 mod 64, the bit length. *)
Definition pad (msg : list N) : list N :=
  let len := N.of_nat (length msg) in
  let zeros := (64 - (len + 9) mod 64) mod 64 in
  msg ++ [128] ++ repeat 0 (N.to_nat zeros)
      ++ be_split 8 ((8 * len) mod 18446744073709551616).

(** Cut a list into [n] pieces of [sz] elements. *)
Fixpoint pieces {A} (n sz : nat) (l : list A) : list (list A) :=
  match n with
  | O => []
  | S n' => take sz l :: pieces n' sz (drop sz l)
  end.

(** Extend the message schedule by [n] words; [rw] holds the words so
    far, the most recent first. *)
Fixpoint extend (n : nat) (rw : list N) : list N :=
  match n with
  | O => rw
  | S n' =>
      let w := N.lxor (N.lxor (nth 2 rw 0) (nth 7 rw 0))
                      (N.lxor (nth 13 rw 0) (nth 15 rw 0)) in
      extend n' (rotl 1 w :: rw)
  end.

Definition schedule (block : list N) : list N :=
  rev (extend 64 (rev (map be_combine (pieces 16 4 block)))).

Record state := State { ha : N; hb : N; hc : N; hd : N; he : N }.

Definition round (s : state) (tw : nat * N) : state :=
  let '(t, w) := tw in
  let temp :=
    add32 (add32 (add32 (add32 (rotl 5 (ha s)) (f t (hb s) (hc s) (hd s)))
                        (he s)) (k t)) w in
  State temp (ha s) (rotl 30 (hb s)) (hc s) (hd s).

Definition compress (h : state) (block : list N) : state :=
  let ws := schedule block in
  let s := fold_left round (combine (seq 0 80) ws) h in
  State (add32 (ha h) (ha s)) (add32 (hb h) (hb s)) (add32 (hc h) (hc s))
        (add32 (hd h) (hd s)) (add32 (he h) (he s)).

Definition init : state :=
  State 0x67452301 0xEFCDAB89 0x98BADCFE 0x10325476 0xC3D2E1F0.

(** The 160-bit digest, as a number. *)
Definition digest (msg : list N) : N :=
  let p := pad msg in
  let s := fold_left compress (pieces (length p / 64) 64 p) init in
  (((ha s mod 4294967296 * 4294967296 + hb s mod 4294967296) * 4294967296
    + hc s mod 4294967296) * 4294967296
   + hd s mod 4294967296) * 4294967296 + he s mod 4294967296.

Definition hexchar (d : N) : N := if d <? 10 then 48 + d else 87 + d.

(** [w] hexadecimal digits of [x], least significant first. *)
Fixpoint hex_le (w : nat) (x : N) : list N :=
  match w with
  | O => []
  | S w' => hexchar (x mod 16) :: hex_le w' (x / 16)
  end.

(** [hashlib.sha1(msg).hexdigest()] *)
Definition hexdigest (msg : list N) : str := rev (hex_le 40 (digest msg)).

End SHA1.

(** ** The chunk builder ([docling_processor.py]) *)

Module Docling.

(** [prov.bbox]: the parser's box, with attributes [l], [t], [r], [b]. *)
Record BoundingBox := Box { bb_l : Q; bb_t : Q; bb_r : Q; bb_b : Q }.

(** A provenance record.  The code reads [page_no] with
    [getattr(prov, 'page_no', 1)] and guards [bbox] with [hasattr]:
    a missing attribute is [None] here. *)
Record ProvenanceItem := Prov {
  page_no : option Z;
  prov_bbox : option BoundingBox }.

(** A text node of the parsed document.  The code treats a missing and an
    empty [prov] alike, so both are the empty list. *)
Record DocItem := Item { prov : list ProvenanceItem }.

(** [chunk.meta]; a missing or empty [doc_items] or [headings] is []. *)
Record ChunkMeta := Meta {
  doc_items : list DocItem;
  meta_headings : list str }.

(** What the external [HybridChunker] yields for one chunk. *)
Record DocChunk := Chunk { chunk_text : str; meta : ChunkMeta }.

(** [models.ChunkData] *)
Record ChunkData {vec : Type} := mkChunkData {
  id : str;
  text : str;
  page_num : Z;
  bbox : list Q;
  headings : list str;
  embedding : vec }.
Arguments ChunkData vec : clear implicits.

(** [x < y] on floats. *)
Definition Qltb (x y : Q) : bool :=
  match Qcompare x y with Lt => true | _ => false end.

(** The builtin [min] on a non-empty sequence [x :: xs]: the running best
    is replaced only by a strictly smaller item. *)
Definition py_min (x : Q) (xs : list Q) : Q :=
  fold_left (fun best item => if Qltb item best then item else best) xs x.

(** The builtin [max] on a non-empty sequence. *)
Definition py_max (x : Q) (xs : list Q) : Q :=
  fold_left (fun best item => if Qltb best item then item else best) xs x.

(** One pass of the loop over [chunk_meta.doc_items]: the state is
    [(page_num, all_bboxes)]; [item_bbox = [l, t, r, b]] is kept as the
    box record, so [b[0]] .. [b[3]] are [bb_l] .. [bb_b]. *)
Definition item_step (st : Z * list BoundingBox) (doc_item : DocItem)
  : Z * list BoundingBox :=
  match prov doc_item with
  | [] => st
  | p :: _ =>
      let page_num := default 1%Z (page_no p) in
      match prov_bbox p with
      | Some bbox_obj => (page_num, snd st ++ [bbox_obj])
      | None => (page_num, snd st)
      end
  end.

(** "Merge all bounding boxes into one". *)
Definition merge_bboxes (all_bboxes : list BoundingBox) : list Q :=
  match all_bboxes with
  | [] => [0%Q; 0%Q; 0%Q; 0%Q]
  | b0 :: bs =>
      let min_l := py_min (bb_l b0) (map bb_l bs) in
      let max_t := py_max (bb_t b0) (map bb_t bs) in
      let max_r := py_max (bb_r b0) (map bb_r bs) in
      let min_b := py_min (bb_b b0) (map bb_b bs) in
      [min_l; max_t; max_r; min_b]
  end.

(** [make_id]: SHA-1 of [f"{page}:{text[:160]}"], UTF-8 encoded. *)
Definition make_id (text : str) (page : Z) : result str :=
  bs ← encode_utf8 (str_of_int page ++ lit ":" ++ take 160 text);
  Ok (SHA1.hexdigest bs).

Section Builder.

(** The embedding model, [SentenceTransformer.encode(text).tolist()]:
    an external service that may fail. *)
Context {vec : Type} (embedding_model_encode : str -> result vec).

Definition get_embedding (text : str) : result vec :=
  embedding_model_encode text.

(** The body of the loop over the chunker's chunks; [None] is the
    [continue] taken for a chunk whose stripped text is empty. *)
Definition build_chunk (chunk : DocChunk) : result (option (ChunkData vec)) :=
  let chunk_meta := meta chunk in
  let '(page_num, all_bboxes) :=
    fold_left item_step (doc_items chunk_meta) (1%Z, []) in
  let bbox := merge_bboxes all_bboxes in
  let headings := meta_headings chunk_meta in
  let chunk_text := strip (chunk_text chunk) in
  match chunk_text with
  | [] => Ok None
  | _ :: _ =>
      chunk_id ← make_id chunk_text page_num;
      emb ← get_embedding chunk_text;
      Ok (Some (mkChunkData vec chunk_id chunk_text page_num bbox headings emb))
  end.

Fixpoint chunk_loop (chunks : list DocChunk) (chunks_data : list (ChunkData vec))
  : result (list (ChunkData vec)) :=
  match chunks with
  | [] => Ok chunks_data
  | chunk :: rest =>
      built ← build_chunk chunk;
      match built with
      | None => chunk_loop rest chunks_data
      | Some c => chunk_loop rest (chunks_data ++ [c])
      end
  end.

(** [structure_aware_chunking], from the chunks the chunker yields. *)
Definition structure_aware_chunking (chunks : list DocChunk)
  : result (list (ChunkData vec)) :=
  chunk_loop chunks [].

(** The parser: [self.converter.convert(pdf_path)] returns the parsed
    document or raises; [self.chunker.chunk(doc)] is a generator, it
    yields chunks and may raise after them. *)
Context {DoclingDocument : Type}.
Context (converter_convert : str -> result DoclingDocument).
Context (chunker_chunk : DoclingDocument -> list DocChunk * option exn).

(** [structure_aware_chunking], from the path of the file: the loop runs
    over the chunks as they are yielded, so an exception of the loop
    body comes before one of the generator. *)
Definition structure_aware_chunking_pdf (pdf_path : str)
  : result (list (ChunkData vec)) :=
  doc ← converter_convert pdf_path;
  let '(chunks, failure) := chunker_chunk doc in
  chunks_data ← structure_aware_chunking chunks;
  match failure with
  | Some e => Raise e
  | None => Ok chunks_data
  end.

End Builder.

End Docling.

(** ** Query-side records ([models.py]) *)

Module Models.

Section Records.
(** The type of a bounding-box coordinate as it comes back from the store
    (the source types the chunk dictionary as [Dict[str, Any]]). *)
Context {coord : Type}.

(** The map projection [c {.id, .text, .bbox, .page_num, .headings}]. *)
Record ChunkRow := mkChunkRow {
  c_id : str;
  c_text : str;
  c_bbox : list coord;
  c_page_num : Z;
  c_headings : list str }.

(** The map projection [d {.id, .title}]. *)
Record DocRow := mkDocRow { d_id : str; d_title : str }.

Record QueryResult := mkQueryResult {
  chunk : ChunkRow;
  doc : DocRow;
  page : Z;
  score : Q }.

(** The evidence payload [{"docId", "page", "bbox", "text"}]. *)
Record Payload := mkPayload {
  docId : str;
  p_page : Z;
  p_bbox : list coord;
  p_text : str }.

Record QueryRequest := mkQueryRequest {
  query : str;
  doc_type : option str;
  k : Z;
  limit : Z }.

Record QueryResponse := mkQueryResponse {
  answer : str;
  chunks : list QueryResult;
  cited_chunks : gmap str Payload }.

End Records.

Arguments ChunkRow coord : clear implicits.
Arguments QueryResult coord : clear implicits.
Arguments Payload coord : clear implicits.
Arguments QueryResponse coord : clear implicits.

End Models.

Export Models.

(** ** The regular expression [\[([^\]]+)\]] *)

Module Re.

Definition lbracket : char := 91.
Definition rbracket : char := 93.

(** The longest prefix free of ']' and what follows it: [[^\]]*]. *)
Fixpoint span_ident (s : str) : str * str :=
  match s with
  | [] => ([], [])
  | c :: s' =>
      if c =? rbracket then ([], s)
      else let '(g, rest) := span_ident s' in (c :: g, rest)
  end.

(** A match of the pattern anchored at the start of [s]: group 1 and the
    text after the match.  The greedy class takes every character up to
    the next ']', at least one is needed, and a ']' has to follow;
    backtracking to a shorter run cannot help, the character after it
    is not a ']'. *)
Definition match_marker (s : str) : option (str * str) :=
  match s with
  | [] => None
  | c :: s' =>
      if c =? lbracket then
        match span_ident s' with
        | (g :: gs, _ :: rest) => Some (g :: gs, rest)
        | _ => None
        end
      else None
  end.

(** What a left-to-right scan for non-overlapping matches sees: a
    character outside every match, or a match with its group 1. *)
Inductive token :=
| Text (c : char)
| Match (group1 : str).

Definition inspect {A} (a : A) : {b : A | a = b} := exist _ a eq_refl.

Lemma span_ident_length (s : str) :
  (length (span_ident s).1 + length (span_ident s).2 = length s)%nat.
Proof.
  induction s as [|c s IH]; simpl; [done|].
  destruct (c =? rbracket); simpl; [done|].
  destruct (span_ident s); simpl in *; lia.
Qed.

Lemma match_marker_shorter (s g rest : str) :
  match_marker s = Some (g, rest) -> (length rest < length s)%nat.
Proof.
  destruct s as [|c s]; simpl; [done|].
  destruct (c =? lbracket); [|done].
  pose proof (span_ident_length s) as Hlen.
  destruct (span_ident s) as [[|g0 gs] [|r0 rs]]; try done.
  intros [= <- <-]. simpl in Hlen. lia.
Qed.

(** The scan of [re.finditer]: try the pattern at the current position;
    on a match go on after it, otherwise move one character on. *)
Equations? scan (s : str) : list token by wf (length s) lt :=
  scan [] := [];
  scan (c :: s') with inspect (match_marker (c :: s')) := {
    | exist _ (Some (g, rest)) _ := Match g :: scan rest;
    | exist _ None _ := Text c :: scan s' }.
Proof. apply (match_marker_shorter (c :: s') g rest e). Qed.

(** [re.findall(pattern, s)]: group 1 of every match, in order. *)
Definition findall (s : str) : list str :=
  omap (fun tk => match tk with Match g => Some g | Text _ => None end)
       (scan s).

(** [re.sub(pattern, repl, s)]: every match is replaced by what [repl]
    returns for it, the rest is copied; an exception of [repl] ends it. *)
Fixpoint sub_tokens (repl : str -> result str) (tks : list token)
  : result str :=
  match tks with
  | [] => Ok []
  | Text c :: tks' => out ← sub_tokens repl tks'; Ok (c :: out)
  | Match g :: tks' =>
      r ← repl g; out ← sub_tokens repl tks'; Ok (r ++ out)
  end.

Definition sub (repl : str -> result str) (s : str) : result str :=
  sub_tokens repl (scan s).

End Re.

(** ** The citation resolver ([citation_processor.py]) *)

Module Citation.

Section Citation.
(** [format_coord] is what an f-string prints for one coordinate. *)
Context {coord : Type} (format_coord : coord -> str).

(** [extract_cited_chunks]: the loop over [search_results] fills the
    dictionary [cited_chunks]; a later result with the same chunk id
    overwrites the entry of an earlier one. *)
Definition extract_cited_chunks (answer_text : str)
    (search_results : list (QueryResult coord)) : gmap str (Payload coord) :=
  let cited_ids := Re.findall answer_text in
  fold_left
    (fun cited_chunks result =>
       let chunk_id := c_id (chunk result) in
       if bool_decide (chunk_id ∈ cited_ids)
       then <[chunk_id := mkPayload (d_id (doc result))
                                    (c_page_num (chunk result))
                                    (c_bbox (chunk result))
                                    (c_text (chunk result))]> cited_chunks
       else cited_chunks)
    search_results ∅.

(** [bbox[i]] *)
Definition index (bbox : list coord) (i : nat) : result coord :=
  match bbox !! i with
  | Some x => Ok x
  | None => Raise IndexError
  end.

(** The replacement function of [linkify_citations].  A payload is a
    dictionary with four keys, hence never falsy: [not payload] holds
    only when the lookup gave [None]. *)
Definition repl (id_to_payload : gmap str (Payload coord)) (group1 : str)
  : result str :=
  let chunk_id := strip group1 in
  match id_to_payload !! chunk_id with
  | None => Ok (lit "[" ++ chunk_id ++ lit "]")
  | Some payload =>
      let bbox := p_bbox payload in
      b0 ← index bbox 0; b1 ← index bbox 1;
      b2 ← index bbox 2; b3 ← index bbox 3;
      let url :=
        lit "/viewer?doc=" ++ docId payload
        ++ lit "&page=" ++ str_of_int (p_page payload)
        ++ lit "&bbox=" ++ format_coord b0 ++ lit "," ++ format_coord b1
        ++ lit "," ++ format_coord b2 ++ lit "," ++ format_coord b3 in
      Ok (lit "[<a href='" ++ url ++ lit "' target='_blank' rel='noopener'>"
          ++ chunk_id ++ lit "</a>]")
  end.

Definition linkify_citations (text : str)
    (id_to_payload : gmap str (Payload coord)) : result str :=
  Re.sub (repl id_to_payload) text.

End Citation.

(** *** [generate_answer_with_citations] *)

Section Answer.
Context {coord : Type}.
(** [str.lower()]: the case mapping of the Unicode database. *)
Context (lower : str -> str).

Fixpoint starts_with (prefix s : str) : bool :=
  match prefix, s with
  | [], _ => true
  | _ :: _, [] => false
  | p :: prefix', c :: s' => (p =? c) && starts_with prefix' s'
  end.

(** [needle in haystack] *)
Fixpoint contains (needle haystack : str) : bool :=
  starts_with needle haystack
  || match haystack with
     | [] => false
     | _ :: haystack' => contains needle haystack'
     end.

(** The pieces of [s] between the occurrences of [sep]: the first one
    and the others. *)
Fixpoint split_pieces (sep : char) (s : str) : str * list str :=
  match s with
  | [] => ([], [])
  | c :: s' =>
      let '(piece, others) := split_pieces sep s' in
      if c =? sep then ([], piece :: others) else (c :: piece, others)
  end.

(** [s.split(sep)] for a separator of one character. *)
Definition split (sep : char) (s : str) : list str :=
  let '(piece, others) := split_pieces sep s in piece :: others.

Definition newline : char := 10.
Definition full_stop : char := 46.

(** The bullet and the blank that open an item of the answer. *)
Definition bullet : str := [8226; 32].

(** The first loop of the "handicap" branch, for one result: the answer
    it returns, if it returns. *)
Definition definition_answer (result : QueryResult coord) : option str :=
  let chunk_text := lower (c_text (chunk result)) in
  if contains (lit "handicap") chunk_text
     && (contains (lit "means") chunk_text
         || contains (lit "defined") chunk_text
         || contains (lit "definition") chunk_text)
  then
    let lines := split newline (c_text (chunk result)) in
    match List.find (fun line => contains (lit "handicap") (lower line)) lines with
    | Some line =>
        Some (lit "According to the document: " ++ strip line
              ++ lit " [" ++ c_id (chunk result) ++ lit "]")
    | None => None
    end
  else None.

Fixpoint first_definition (search_results : list (QueryResult coord))
  : option str :=
  match search_results with
  | [] => None
  | result :: rest =>
      match definition_answer result with
      | Some a => Some a
      | None => first_definition rest
      end
  end.

(** What the loop over the sentences of a relevant chunk adds to the
    answer: the first sentence with "handicap" of more than ten
    characters, or nothing. *)
Definition context_item (result : QueryResult coord) : str :=
  let sentences := split full_stop (c_text (chunk result)) in
  match List.find
          (fun sentence =>
             contains (lit "handicap") (lower sentence)
             && (10 <? length (strip sentence))%nat) sentences with
  | Some sentence =>
      bullet ++ strip sentence ++ lit ". [" ++ c_id (chunk result)
      ++ lit "]" ++ [newline; newline]
  | None => []
  end.

(** What the general fallback adds to the answer for one result. *)
Definition fallback_item (result : QueryResult coord) : str :=
  let chunk_text := c_text (chunk result) in
  if (100 <? length chunk_text)%nat then
    let sentences := split full_stop chunk_text in
    let first_sentence := strip (hd [] sentences) in
    if (50 <? length first_sentence)%nat then
      bullet ++ first_sentence ++ lit ". [" ++ c_id (chunk result)
      ++ lit "]" ++ [newline; newline]
    else
      let text_preview := take 200 chunk_text ++ lit "..." in
      bullet ++ text_preview ++ lit " [" ++ c_id (chunk result)
      ++ lit "]" ++ [newline; newline]
  else
    bullet ++ chunk_text ++ lit " [" ++ c_id (chunk result)
    ++ lit "]" ++ [newline; newline].

(** The general fallback for the first two results. *)
Definition fallback_answer (search_results : list (QueryResult coord)) : str :=
  strip (fold_left (fun answer result => answer ++ fallback_item result)
                   (take 2 search_results)
                   (lit "Based on the retrieved documents:" ++ [newline; newline])).

Definition generate_answer_with_citations (query : str)
    (search_results : list (QueryResult coord)) : str :=
  match search_results with
  | [] => lit "No relevant information found to answer your query."
  | _ :: _ =>
      if contains (lit "handicap") (lower query) then
        match first_definition search_results with
        | Some a => a
        | None =>
            let relevant_chunks :=
              List.filter
                (fun result =>
                   contains (lit "handicap") (lower (c_text (chunk result))))
                (take 2 search_results) in
            match relevant_chunks with
            | [] => fallback_answer search_results
            | _ :: _ =>
                strip
                  (fold_left (fun answer result => answer ++ context_item result)
                     relevant_chunks
                     (lit "Based on the Fair Housing Act documents, the term 'handicap' appears in the following context:"
                      ++ [newline; newline]))
            end
        end
      else fallback_answer search_results
  end.

End Answer.

End Citation.

(** ** The evidence store gateway ([neo4j_handler.py]) *)

Module Neo4j.

Section Store.
(** The type of an embedding vector. *)
Context {vec : Type}.

Record DocumentNode := mkDocumentNode {
  dn_id : str;
  dn_title : str;
  dn_source_uri : str;
  dn_family : str }.

Record PageNode := mkPageNode {
  pn_docId : str;
  pn_page_num : Z;
  pn_width : Q;
  pn_height : Q }.

(** A [Chunk] node.  The ingestion code never sets [family] on a chunk,
    the search reads it: it is a property that may be null. *)
Record ChunkNode := mkChunkNode {
  cn_id : str;
  cn_text : str;
  cn_page_num : Z;
  cn_bbox : list Q;
  cn_headings : list str;
  cn_embedding : vec;
  cn_family : option str }.

(** The graph.  Nodes are kept under the keys of their uniqueness
    constraints; the two relationship types are lists of key pairs. *)
Record Graph := mkGraph {
  documents : gmap str DocumentNode;
  pages : gmap (str * Z) PageNode;
  chunk_nodes : gmap str ChunkNode;
  of_rel : list ((str * Z) * str);
  in_page : list (str * (str * Z)) }.

Definition empty_graph : Graph := mkGraph ∅ ∅ ∅ [] [].

(** [MERGE (a)-[:R]->(b)]: the relationship is created unless it exists. *)
Definition merge_rel {A} `{EqDecision A} (e : A) (es : list A) : list A :=
  if bool_decide (e ∈ es) then es else es ++ [e].

(** *** [_upsert_document_tx] *)

Record DocumentMeta := mkDocumentMeta {
  dm_id : str; dm_title : str; dm_source_uri : str; dm_family : str }.

Record PageMeta := mkPageMeta {
  pm_docId : str; pm_page_num : Z; pm_width : Q; pm_height : Q }.

(** [MERGE (d:Document {id: $id}) SET d.title = .., d.family = ..] *)
Definition upsert_doc (g : Graph) (d : DocumentMeta) : Graph :=
  mkGraph
    (<[dm_id d := mkDocumentNode (dm_id d) (dm_title d) (dm_source_uri d)
                                 (dm_family d)]> (documents g))
    (pages g) (chunk_nodes g) (of_rel g) (in_page g).

(** [MERGE (p:Page ..) SET .. WITH p MATCH (d:Document {id: $docId})
    MERGE (p)-[:OF]->(d)] *)
Definition upsert_page (g : Graph) (p : PageMeta) : Graph :=
  let key := (pm_docId p, pm_page_num p) in
  mkGraph
    (documents g)
    (<[key := mkPageNode (pm_docId p) (pm_page_num p) (pm_width p)
                         (pm_height p)]> (pages g))
    (chunk_nodes g)
    (match documents g !! pm_docId p with
     | Some _ => merge_rel (key, pm_docId p) (of_rel g)
     | None => of_rel g
     end)
    (in_page g).

(** [MERGE (c:Chunk {id: $id}) SET .. WITH c
    MATCH (p:Page {docId: $docId, page_num: $page})
    MERGE (c)-[:IN_PAGE]->(p)]: the chunk node is found by its id alone,
    the page by the id of the document being stored. *)
Definition upsert_chunk (doc_id : str) (g : Graph)
    (c : Docling.ChunkData vec) : Graph :=
  let key := (doc_id, Docling.page_num c) in
  let family :=
    match chunk_nodes g !! Docling.id c with
    | Some old => cn_family old
    | None => None
    end in
  mkGraph
    (documents g) (pages g)
    (<[Docling.id c :=
         mkChunkNode (Docling.id c) (Docling.text c) (Docling.page_num c)
                     (Docling.bbox c) (Docling.headings c)
                     (Docling.embedding c) family]> (chunk_nodes g))
    (of_rel g)
    (match pages g !! key with
     | Some _ => merge_rel (Docling.id c, key) (in_page g)
     | None => in_page g
     end).

(** The transaction of [upsert_document], when it commits. *)
Definition upsert_document (g : Graph) (doc : DocumentMeta)
    (pages : list PageMeta) (chunks : list (Docling.ChunkData vec)) : Graph :=
  let g1 := upsert_doc g doc in
  let g2 := fold_left upsert_page pages g1 in
  fold_left (upsert_chunk (dm_id doc)) chunks g2.

(** *** [vector_search] *)

(** [MATCH (c)-[:IN_PAGE]->(p:Page)-[:OF]->(d:Document)]: one row for
    every path that leaves the chunk. *)
Definition paths (g : Graph) (c : ChunkNode) : list (PageNode * DocumentNode) :=
  '(cid, pk) ← in_page g;
  if bool_decide (cid = cn_id c) then
    '(pk', did) ← of_rel g;
    if bool_decide (pk' = pk) then
      match pages g !! pk, documents g !! did with
      | Some p, Some d => [(p, d)]
      | _, _ => []
      end
    else []
  else [].

(** Cypher's ternary logic: [None] is null. *)
Definition cypher_eq (x : option str) (y : str) : option bool :=
  match x with
  | Some x' => Some (bool_decide (x' = y))
  | None => None
  end.

Definition cypher_or (x y : option bool) : option bool :=
  match x, y with
  | Some true, _ | _, Some true => Some true
  | Some false, Some false => Some false
  | _, _ => None
  end.

(** [c.family = $docType OR EXISTS((c)-[:IN_PAGE]->(:Page)-[:OF]->
    (:Document {family: $docType}))] *)
Definition where_doc_type (g : Graph) (docType : str) (c : ChunkNode)
  : option bool :=
  cypher_or
    (cypher_eq (cn_family c) docType)
    (Some (existsb (fun pd => bool_decide (dn_family pd.2 = docType))
                   (paths g c))).

(** [WHERE] keeps a row only when the predicate is true (not null). *)
Definition where_keeps (v : option bool) : bool :=
  match v with
  | Some true => true
  | _ => false
  end.

(** [doc_type and doc_type != "general"] *)
Definition filter_active (doc_type : option str) : bool :=
  match doc_type with
  | None | Some [] => false
  | Some s => bool_decide (s ≠ lit "general")
  end.

(** A joined row [(c, p, d, score)] before projection. *)
Definition row : Type := ChunkNode * PageNode * DocumentNode * Q.

Definition row_score (r : row) : Q := r.2.

(** [ORDER BY score DESC]: the row with the larger score comes first. *)
Definition score_desc (r1 r2 : row) : Prop :=
  Qle_bool (row_score r2) (row_score r1).

(** [LIMIT $limit]: a negative limit is a query error. *)
Definition limit_rows (limit : Z) (rows : list row) : result (list row) :=
  if (limit <? 0)%Z then Raise StoreError
  else Ok (take (Z.to_nat limit) rows).

(** [RETURN c {.id, .text, .bbox, .page_num, .headings} AS chunk,
    d {.id, .title} AS doc, p.page_num AS page, score] *)
Definition project (r : row) : QueryResult Q :=
  let '(c, p, d, score) := r in
  mkQueryResult
    (mkChunkRow (cn_id c) (cn_text c) (cn_bbox c) (cn_page_num c)
                (cn_headings c))
    (mkDocRow (dn_id d) (dn_title d))
    (pn_page_num p) score.

(** The [MATCH] after the candidates: every candidate with each of its
    paths. *)
Definition join_paths (g : Graph) (cands : list (ChunkNode * Q)) : list row :=
  cs ← cands; map (fun pd => (cs.1, pd.1, pd.2, cs.2)) (paths g cs.1).

Section Search.
(** The store's similarity primitive
    [db.index.vector.queryNodes('chunk_vec', k, queryEmbedding)], which
    yields chunk nodes with their scores or fails. *)
Context (queryNodes : Graph -> Z -> vec -> result (list (ChunkNode * Q))).

(** The candidates: what the index yields, filtered when the [WHERE]
    clause has been added to the query. *)
Definition candidates (g : Graph) (query_embedding : vec) (k : Z)
    (doc_type : option str) : result (list (ChunkNode * Q)) :=
  yielded ← queryNodes g k query_embedding;
  match doc_type with
  | Some docType =>
      if filter_active doc_type
      then Ok (filter (fun cs => where_keeps (where_doc_type g docType cs.1))
                      yielded)
      else Ok yielded
  | None => Ok yielded
  end.

(** [session.run(query, params)] and the iteration over its records. *)
Definition run_query (g : Graph) (query_embedding : vec) (k : Z)
    (doc_type : option str) (limit : Z) : result (list (QueryResult Q)) :=
  cands ← candidates g query_embedding k doc_type;
  let joined := join_paths g cands in
  let ordered := merge_sort score_desc joined in
  limited ← limit_rows limit ordered;
  Ok (map project limited).

(** [vector_search]: [except Exception] turns every failure of the
    query into the empty list.  (The status queries before it only log,
    and their own failure is caught as well.) *)
Definition vector_search (g : Graph) (query_embedding : vec)
    (k : Z) (doc_type : option str) (limit : Z) : list (QueryResult Q) :=
  match run_query g query_embedding k doc_type limit with
  | Ok results => results
  | Raise _ => []
  end.

End Search.

(** *** [get_chunk_by_id] *)

(** The dictionary [{"chunk": .., "doc": .., "page": ..}]. *)
Record ChunkRecord := mkChunkRecord {
  cr_chunk : ChunkRow Q;
  cr_doc : DocRow;
  cr_page : Z }.

(** [MATCH (c:Chunk {id: $id})-[:IN_PAGE]->(p:Page)-[:OF]->(d:Document)]
    with [result.single()]: the first record, or [None] when there is
    none. *)
Definition get_chunk_by_id (g : Graph) (chunk_id : str) : option ChunkRecord :=
  match chunk_nodes g !! chunk_id with
  | None => None
  | Some c =>
      match paths g c with
      | [] => None
      | (p, d) :: _ =>
          Some (mkChunkRecord
                  (mkChunkRow (cn_id c) (cn_text c) (cn_bbox c)
                              (cn_page_num c) (cn_headings c))
                  (mkDocRow (dn_id d) (dn_title d))
                  (pn_page_num p))
      end
  end.

End Store.

Arguments ChunkNode vec : clear implicits.
Arguments Graph vec : clear implicits.
Arguments row vec : clear implicits.

End Neo4j.

(** ** The query operation ([main.py]) *)

Module Api.

Section Api.
Context {vec : Type}.
(** The services the endpoint uses: the embedding model, the store's
    similarity primitive, the answer generator (a pluggable step) . *)
Context (embedding_model_encode : str -> result vec).
Context (queryNodes :
  Neo4j.Graph vec -> Z -> vec -> result (list (Neo4j.ChunkNode vec * Q))).
Context (generate_answer_with_citations :
  str -> list (QueryResult Q) -> result str).

(** [query_documents]; [Raise] is the [HTTPException] of the handler. *)
Definition query_documents (g : Neo4j.Graph vec) (request : QueryRequest)
  : result (QueryResponse Q) :=
  query_embedding ← Docling.get_embedding embedding_model_encode (query request);
  let search_results :=
    Neo4j.vector_search queryNodes g query_embedding
      (k request) (doc_type request) (limit request) in
  match search_results with
  | [] =>
      Ok (mkQueryResponse
            (lit "No relevant documents found for your query.") [] ∅)
  | _ :: _ =>
      answer_with_citations ←
        generate_answer_with_citations (query request) search_results;
      let cited_chunks :=
        Citation.extract_cited_chunks answer_with_citations search_results in
      Ok (mkQueryResponse answer_with_citations search_results cited_chunks)
  end.

End Api.

End Api.

(** * Vocabulary of the specification, fixtures *)

Module Fixtures.


(** An embedding service that answers every request. *)
Definition unit_encode (_ : str) : result unit := Ok tt.

(** A chunk of the chunker without provenance. *)
Definition plain_chunk (text : str) : Docling.DocChunk :=
  Docling.Chunk text (Docling.Meta [] []).

(** A chunk whose text carries surrounding blanks, made of two items on
    page 3 with the boxes of the specification's example; and a chunk of
    blanks only. *)
Definition sample_chunk : Docling.DocChunk :=
  Docling.Chunk (lit "  handicap means...  ")
    (Docling.Meta
       [Docling.Item [Docling.Prov (Some 3%Z) (Some (Docling.Box 0 10 5 0))];
        Docling.Item [Docling.Prov (Some 3%Z) (Some (Docling.Box 3 12 8 2))]]
       [lit "Definitions"]).

Definition blank_chunk : Docling.DocChunk := plain_chunk (lit "   ").

Definition sample_out : list (Docling.ChunkData unit) :=
  [Docling.mkChunkData unit
     (lit "97667accccce08cfd35ef067282973b6b6e6c975")
     (lit "handicap means...") 3%Z [0%Q; 12%Q; 8%Q; 0%Q]
     [lit "Definitions"] tt].

(** Two items of one chunk on different pages. *)
Definition two_page_chunk : Docling.DocChunk :=
  Docling.Chunk (lit "spans a page break")
    (Docling.Meta
       [Docling.Item [Docling.Prov (Some 1%Z) (Some (Docling.Box 3 10 8 0))];
        Docling.Item [Docling.Prov (Some 2%Z) (Some (Docling.Box 0 12 5 2))]]
       []).

Definition two_page_out : list (Docling.ChunkData unit) :=
  [Docling.mkChunkData unit
     (lit "6be0aed1f32d01ed6200c3968dc5204eb34f57b5")
     (lit "spans a page break") 2%Z [0%Q; 12%Q; 8%Q; 0%Q] [] tt].

(** One item with two provenance records, as the parser reports for a
    paragraph that is laid out in two regions. *)
Definition two_record_chunk : Docling.DocChunk :=
  Docling.Chunk (lit "laid out in two regions")
    (Docling.Meta
       [Docling.Item [Docling.Prov (Some 1%Z) (Some (Docling.Box 0 10 5 0));
                      Docling.Prov (Some 1%Z) (Some (Docling.Box 3 12 8 2))]]
       []).

End Fixtures.

(** The words of the specification about a chunk's geometry. *)
Module Geometry.

Import Docling.

(** Every provenance bounding box of an item, and the constituent boxes
    of a chunk: every provenance bounding box of every item, in order. *)
Definition item_boxes (item : DocItem) : list BoundingBox :=
  omap prov_bbox (prov item).

Definition constituent_boxes (chunk : DocChunk) : list BoundingBox :=
  doc_items (meta chunk) ≫= item_boxes.

(** The box of the first provenance record of an item, if the item has
    a record and that record has a box; and these boxes for the items
    of a chunk, in order. *)
Definition first_box (item : DocItem) : option BoundingBox :=
  match prov item with
  | p :: _ => prov_bbox p
  | [] => None
  end.

Definition first_boxes (chunk : DocChunk) : list BoundingBox :=
  omap first_box (doc_items (meta chunk)).

(** The least and the greatest of a non-empty sequence [x :: xs]. *)
Definition min_of (x : Q) (xs : list Q) : Q := fold_left Qmin xs x.
Definition max_of (x : Q) (xs : list Q) : Q := fold_left Qmax xs x.

(** [[left, top, right, bottom]] contains the box [b]; a larger top is
    higher on the page. *)
Definition contains (bbox : list Q) (b : BoundingBox) : Prop :=
  match bbox with
  | [min_l; max_t; max_r; min_b] =>
      (min_l <= bb_l b)%Q /\ (bb_t b <= max_t)%Q
      /\ (bb_r b <= max_r)%Q /\ (min_b <= bb_b b)%Q
  | _ => False
  end.

End Geometry.

(** The words of the specification about citation markers. *)
Module Lexical.

Import Re.

(** The text a token stands for. *)
Definition token_text (tk : token) : str :=
  match tk with
  | Text c => [c]
  | Match g => lbracket :: g ++ [rbracket]
  end.

(** An identifier: a non-empty run of characters other than ']'. *)
Definition is_ident (g : str) : Prop := g <> [] /\ rbracket ∉ g.

(** [s] starts with the marker [[g]], and [rest] follows it. *)
Definition marker_at (s g rest : str) : Prop :=
  is_ident g /\ s = lbracket :: g ++ rbracket :: rest.

(** Every '[' of [pre] is followed, inside [pre], by a ']': a reading
    of a text that starts with [pre] is at a token boundary when [pre]
    ends. *)
Definition closed_brackets (pre : str) : Prop :=
  forall a b, pre = a ++ lbracket :: b -> rbracket ∈ b.

(** The markers of a text, read from left to right: where a marker
    starts it is taken, and reading goes on behind it; a character at
    which no marker starts is plain text. *)
Inductive lexes : str -> list token -> Prop :=
| lexes_nil : lexes [] []
| lexes_match s g rest tks :
    marker_at s g rest -> lexes rest tks -> lexes s (Match g :: tks)
| lexes_text c s tks :
    (forall g rest, ~ marker_at (c :: s) g rest) ->
    lexes s tks -> lexes (c :: s) (Text c :: tks).

(** [piece] carries the one marker [[g]]: no '[' stands before it or
    behind it. *)
Definition cites (piece g : str) : Prop :=
  exists pre post,
    piece = pre ++ lbracket :: g ++ rbracket :: post
    /\ (lbracket ∉ pre) /\ (lbracket ∉ post).

(** The evidence payload of a candidate. *)
Definition payload_of {coord} (r : QueryResult coord) : Payload coord :=
  mkPayload (d_id (doc r)) (c_page_num (chunk r)) (c_bbox (chunk r))
            (c_text (chunk r)).

(** The last candidate with chunk id [i]. *)
Definition last_with_id {coord} (i : str) (rs : list (QueryResult coord))
  : option (QueryResult coord) :=
  last (filter (fun r => c_id (chunk r) = i) rs).

(** The address of the viewer for a payload whose box is
    [b0, b1, b2, b3]: document, page and the comma-joined box. *)
Definition viewer_url {coord} (format_coord : coord -> str)
    (p : Payload coord) (b0 b1 b2 b3 : coord) : str :=
  lit "/viewer?doc=" ++ docId p
  ++ lit "&page=" ++ str_of_int (p_page p)
  ++ lit "&bbox=" ++ format_coord b0 ++ lit "," ++ format_coord b1
  ++ lit "," ++ format_coord b2 ++ lit "," ++ format_coord b3.

(** The navigable reference to it that carries the identifier. *)
Definition reference {coord} (format_coord : coord -> str)
    (p : Payload coord) (b0 b1 b2 b3 : coord) (ident : str) : str :=
  lit "[<a href='" ++ viewer_url format_coord p b0 b1 b2 b3
  ++ lit "' target='_blank' rel='noopener'>" ++ ident ++ lit "</a>]".

(** What [linkify] puts in the place of a token: a plain character is
    kept; a marker whose stripped identifier has a payload becomes the
    reference; any other marker is written back with its stripped
    identifier. *)
Inductive rendered {coord} (format_coord : coord -> str)
    (m : gmap str (Payload coord)) : token -> str -> Prop :=
| rendered_text c : rendered format_coord m (Text c) [c]
| rendered_link g p b0 b1 b2 b3 more :
    m !! strip g = Some p ->
    p_bbox p = b0 :: b1 :: b2 :: b3 :: more ->
    rendered format_coord m (Match g)
             (reference format_coord p b0 b1 b2 b3 (strip g))
| rendered_plain g :
    m !! strip g = None ->
    rendered format_coord m (Match g) (lit "[" ++ strip g ++ lit "]").

(** What a token has become when every marker is linked to the last
    candidate with its id. *)
Inductive linked {coord} (format_coord : coord -> str)
    (rs : list (QueryResult coord)) : token -> str -> Prop :=
| linked_text c : linked format_coord rs (Text c) [c]
| linked_marker g r b0 b1 b2 b3 more :
    last_with_id g rs = Some r ->
    c_bbox (chunk r) = b0 :: b1 :: b2 :: b3 :: more ->
    linked format_coord rs (Match g)
           (reference format_coord (payload_of r) b0 b1 b2 b3 g).

End Lexical.

(** The citation example of the specification, with integer
    coordinates. *)
Module CitationExample.

Definition abc123 : QueryResult Z :=
  mkQueryResult
    (mkChunkRow (lit "abc123") (lit "X is defined as follows.")
                [1; 2; 3; 4]%Z 2%Z [])
    (mkDocRow (lit "d1") (lit "Definitions")) 2%Z (9 # 10).

Definition evidence : gmap str (Payload Z) :=
  {[ lit "abc123" :=
       mkPayload (lit "d1") 2%Z [1; 2; 3; 4]%Z (lit "X is defined as follows.") ]}.

(** A candidate whose chunk id is the one letter b. *)
Definition cand_b : QueryResult Z :=
  mkQueryResult
    (mkChunkRow (lit "b") (lit "text of b") [1; 2; 3; 4]%Z 1%Z [])
    (mkDocRow (lit "d1") (lit "Definitions")) 1%Z (1 # 2).

(** A mapping whose one key carries surrounding blanks, and one whose
    payload has three coordinates. *)
Definition padded_evidence : gmap str (Payload Z) :=
  {[ lit " abc " :=
       mkPayload (lit "d1") 2%Z [1; 2; 3; 4]%Z (lit "X is defined as follows.") ]}.

Definition short_evidence : gmap str (Payload Z) :=
  {[ lit "abc123" :=
       mkPayload (lit "d1") 2%Z [1; 2; 3]%Z (lit "X is defined as follows.") ]}.

End CitationExample.

(** The words of the specification about retrieval. *)
Module Retrieval.

Import Neo4j.

(** What is assumed of the store's similarity primitive: it yields at
    most [k] rows, and only chunk nodes of the graph. *)
Definition index_contract {vec}
    (queryNodes : Graph vec -> Z -> vec -> result (list (ChunkNode vec * Q)))
  : Prop :=
  forall g k e rows, queryNodes g k e = Ok rows ->
    (Z.of_nat (length rows) <= k)%Z
    /\ forall c s, (c, s) ∈ rows -> exists i, chunk_nodes g !! i = Some c.

(** [d] owns the chunk [c]: an [IN_PAGE] relationship leads from the
    chunk to a page [p], and an [OF] relationship from that page to
    [d]. *)
Definition owns {vec} (g : Graph vec) (c : ChunkNode vec)
    (p : PageNode) (d : DocumentNode) : Prop :=
  exists pk did,
    (cn_id c, pk) ∈ in_page g /\ (pk, did) ∈ of_rel g
    /\ pages g !! pk = Some p /\ documents g !! did = Some d.

(** The family restriction of the specification, on a chunk. *)
Definition family_matches {vec} (g : Graph vec) (docType : str)
    (c : ChunkNode vec) : Prop :=
  cn_family c = Some docType
  \/ exists p d, owns g c p d /\ dn_family d = docType.

(** Scores do not increase along the list. *)
Definition ranked (results : list (QueryResult Q)) : Prop :=
  forall i r1 r2,
    results !! i = Some r1 -> results !! S i = Some r2 ->
    (score r2 <= score r1)%Q.

End Retrieval.

(** Two uploads, and an index that scores every chunk alike. *)
Module StoreExample.

Import Neo4j.

(** A similarity primitive for a constant similarity: the first [k]
    chunk nodes, each with score 1. *)
Definition first_k (g : Graph unit) (k : Z) (_ : unit)
  : result (list (ChunkNode unit * Q)) :=
  if (k <=? 0)%Z then Raise StoreError
  else Ok (take (Z.to_nat k)
             (map (fun kv => (kv.2, 1%Q)) (map_to_list (chunk_nodes g)))).

(** A similarity primitive whose scores differ: the first [k] chunk
    nodes, each with the length of its text as score. *)
Definition by_length (g : Graph unit) (k : Z) (_ : unit)
  : result (list (ChunkNode unit * Q)) :=
  if (k <=? 0)%Z then Raise StoreError
  else Ok (take (Z.to_nat k)
             (map (fun kv => (kv.2, inject_Z (Z.of_nat (length (cn_text kv.2)))))
                  (map_to_list (chunk_nodes g)))).

(** The chunks of a file with the one line "shared text". *)
Definition shared_chunks : list (Docling.ChunkData unit) :=
  [Docling.mkChunkData unit
     (lit "8c6c166bc9b8f71592b2ea3f5d5509f097133d96")
     (lit "shared text") 1%Z [0%Q; 0%Q; 0%Q; 0%Q] [] tt].

Definition docA : DocumentMeta :=
  mkDocumentMeta (lit "docA") (lit "a") (lit "file://a.pdf") (lit "general").
Definition docB : DocumentMeta :=
  mkDocumentMeta (lit "docB") (lit "b") (lit "file://b.pdf") (lit "general").
Definition pageA : PageMeta := mkPageMeta (lit "docA") 1%Z 612%Q 792%Q.
Definition pageB : PageMeta := mkPageMeta (lit "docB") 1%Z 612%Q 792%Q.

(** The graph after the same file has been uploaded twice: every upload
    gets a document id of its own, the chunk ids are the same. *)
Definition uploaded_twice : Graph unit :=
  upsert_document
    (upsert_document empty_graph docA [pageA] shared_chunks)
    docB [pageB] shared_chunks.

(** Two documents of different families with a chunk each. *)
Definition alpha_chunks : list (Docling.ChunkData unit) :=
  [Docling.mkChunkData unit
     (lit "7328d1ce6b4a21cead92a70e7813c7f20553ff03")
     (lit "alpha clause") 1%Z [0%Q; 0%Q; 0%Q; 0%Q] [] tt].
Definition beta_chunks : list (Docling.ChunkData unit) :=
  [Docling.mkChunkData unit
     (lit "202445c525e1553a9220f9eb2fc88e4b248eef20")
     (lit "beta clause") 1%Z [0%Q; 0%Q; 0%Q; 0%Q] [] tt].
Definition docL : DocumentMeta :=
  mkDocumentMeta (lit "docL") (lit "l") (lit "file://l.pdf") (lit "legal").
Definition pageL : PageMeta := mkPageMeta (lit "docL") 1%Z 612%Q 792%Q.

Definition two_families : Graph unit :=
  upsert_document
    (upsert_document empty_graph docA [pageA] alpha_chunks)
    docL [pageL] beta_chunks.

(** An answer generator that cites nothing. *)
Definition no_answer (_ : str) (_ : list (QueryResult Q)) : result str :=
  Ok [].

Definition sample_request : QueryRequest :=
  mkQueryRequest (lit "what is a handicap?") (Some (lit "general")) 10 5.

End StoreExample.

(** The words used for the further properties of the builder. *)
Module BuilderWords.

Import Docling.

(** A lowercase hexadecimal digit. *)
Definition hex_char (c : char) : Prop := 48 <= c <= 57 \/ 97 <= c <= 102.

(** A box of the parser that is not inside out. *)
Definition valid_box (b : BoundingBox) : Prop :=
  (bb_l b <= bb_r b)%Q /\ (bb_b b <= bb_t b)%Q.

(** [[left, top, right, bottom]] with [left <= right] and
    [bottom <= top]. *)
Definition valid_bbox (bbox : list Q) : Prop :=
  match bbox with
  | [min_l; max_t; max_r; min_b] => (min_l <= max_r)%Q /\ (min_b <= max_t)%Q
  | _ => False
  end.

(** An embedding service that is down. *)
Definition failing_encode (_ : str) : result unit := Raise EmbeddingError.

End BuilderWords.

(** The words used for the further properties of the store. *)
Module GraphWords.

Import Neo4j.

Section Words.
Context {vec : Type}.

(** A well-formed graph: every node is stored under its own key, a
    relationship joins two nodes that exist, an [OF] relationship leads
    from a page to the document its [docId] names, and no relationship
    is there twice. *)
Definition graph_ok (g : Graph vec) : Prop :=
  (forall i d, documents g !! i = Some d -> dn_id d = i)
  /\ (forall k p, pages g !! k = Some p -> (pn_docId p, pn_page_num p) = k)
  /\ (forall i c, chunk_nodes g !! i = Some c -> cn_id c = i)
  /\ (forall pk did, (pk, did) ∈ of_rel g ->
        pk.1 = did /\ is_Some (pages g !! pk) /\ is_Some (documents g !! did))
  /\ (forall cid pk, (cid, pk) ∈ in_page g ->
        is_Some (chunk_nodes g !! cid) /\ is_Some (pages g !! pk))
  /\ NoDup (of_rel g)
  /\ NoDup (in_page g).

(** The key of a page, and the nodes an upsert writes. *)
Definition page_key (p : PageMeta) : str * Z := (pm_docId p, pm_page_num p).

Definition page_node (p : PageMeta) : PageNode :=
  mkPageNode (pm_docId p) (pm_page_num p) (pm_width p) (pm_height p).

Definition doc_node (d : DocumentMeta) : DocumentNode :=
  mkDocumentNode (dm_id d) (dm_title d) (dm_source_uri d) (dm_family d).

Definition chunk_node (c : Docling.ChunkData vec) (family : option str)
  : ChunkNode vec :=
  mkChunkNode (Docling.id c) (Docling.text c) (Docling.page_num c)
              (Docling.bbox c) (Docling.headings c) (Docling.embedding c)
              family.

(** The family tag of the chunk node [i], null when there is none. *)
Definition family_in (m : gmap str (ChunkNode vec)) (i : str) : option str :=
  match m !! i with
  | Some old => cn_family old
  | None => None
  end.

(** The steps of an upsert on the parts of the graph they change. *)
Definition ins_page (m : gmap (str * Z) PageNode) (p : PageMeta)
  : gmap (str * Z) PageNode :=
  <[page_key p := page_node p]> m.

Definition ins_chunk (m : gmap str (ChunkNode vec)) (c : Docling.ChunkData vec)
  : gmap str (ChunkNode vec) :=
  <[Docling.id c := chunk_node c (family_in m (Docling.id c))]> m.

Definition add_of (docs : gmap str DocumentNode)
    (es : list ((str * Z) * str)) (p : PageMeta) : list ((str * Z) * str) :=
  match docs !! pm_docId p with
  | Some _ => merge_rel (page_key p, pm_docId p) es
  | None => es
  end.

Definition add_in (doc_id : str) (pgs : gmap (str * Z) PageNode)
    (es : list (str * (str * Z))) (c : Docling.ChunkData vec)
  : list (str * (str * Z)) :=
  match pgs !! (doc_id, Docling.page_num c) with
  | Some _ => merge_rel (Docling.id c, (doc_id, Docling.page_num c)) es
  | None => es
  end.

(** A graph whose documents all have the family "general" and whose
    chunks carry no family tag. *)
Definition untagged (g : Graph vec) : Prop :=
  (forall i d, documents g !! i = Some d -> dn_family d = lit "general")
  /\ (forall i c, chunk_nodes g !! i = Some c -> cn_family c = None).

(** What one call of the upload operation hands to the store. *)
Record Upload := mkUpload {
  up_doc : DocumentMeta;
  up_pages : list PageMeta;
  up_chunks : list (Docling.ChunkData vec) }.

(** The graph after a sequence of uploads into the empty store. *)
Definition ingest (uploads : list Upload) : Graph vec :=
  fold_left (fun g u => upsert_document g (up_doc u) (up_pages u) (up_chunks u))
            uploads empty_graph.

(** The record [get_chunk_by_id] returns for a chunk of a document. *)
Definition record_of (doc : DocumentMeta) (c : Docling.ChunkData vec)
  : ChunkRecord :=
  mkChunkRecord
    (mkChunkRow (Docling.id c) (Docling.text c) (Docling.bbox c)
                (Docling.page_num c) (Docling.headings c))
    (mkDocRow (dm_id doc) (dm_title doc))
    (Docling.page_num c).

End Words.

Arguments Upload vec : clear implicits.

End GraphWords.

(** * Properties *)

Ltac Zify.zify_post_hook ::= Z.to_euclidean_division_equations.

(** ** Strings *)

Lemma lstrip_idem (s : str) : lstrip (lstrip s) = lstrip s.
Proof.
  induction s as [|c s IH]; simpl; [done|].
  destruct (isspace c) eqn:Hc; [done|]. simpl. by rewrite Hc.
Qed.

Lemma lstrip_app_keep (s : str) (c : char) (rest : str) :
  isspace c = false -> lstrip (s ++ c :: rest) = lstrip s ++ c :: rest.
Proof.
  intros Hc. induction s as [|x s IH]; simpl.
  - by rewrite Hc.
  - destruct (isspace x); [exact IH | done].
Qed.

Lemma lstrip_fixed_head (c : char) (s : str) :
  lstrip (c :: s) = c :: s -> isspace c = false.
Proof.
  simpl. destruct (isspace c); [|done].
  intros Heq. exfalso.
  assert (Hlen : (length (lstrip s) <= length s)%nat).
  { clear. induction s as [|x s IH]; simpl; [lia|].
    destruct (isspace x); simpl; lia. }
  rewrite Heq in Hlen. simpl in Hlen. lia.
Qed.

Lemma rstrip_idem (s : str) : rstrip (rstrip s) = rstrip s.
Proof. unfold rstrip. by rewrite rev_involutive, lstrip_idem. Qed.

Lemma lstrip_rstrip (s : str) : lstrip s = s -> lstrip (rstrip s) = rstrip s.
Proof.
  destruct s as [|c s]; [done|]. intros Hfix.
  pose proof (lstrip_fixed_head _ _ Hfix) as Hc.
  unfold rstrip. simpl rev.
  rewrite lstrip_app_keep by done.
  rewrite rev_app_distr. simpl. by rewrite Hc.
Qed.

(** [strip] is idempotent: a stripped text strips to itself. *)
Lemma strip_idem (s : str) : strip (strip s) = strip s.
Proof.
  unfold strip.
  rewrite lstrip_rstrip by apply lstrip_idem.
  apply rstrip_idem.
Qed.



Lemma string_of_uint_chars (d : Decimal.uint) :
  Forall int_char (lit (NilEmpty.string_of_uint d)).
Proof.
  induction d; simpl; constructor; try done; unfold int_char; vm_compute;
    right; split; discriminate.
Qed.

Lemma str_of_int_chars (n : Z) : Forall int_char (str_of_int n).
Proof.
  unfold str_of_int.
  assert (Hu : forall d, Forall int_char (lit (NilZero.string_of_uint d))).
  { intros d. destruct d; try apply string_of_uint_chars.
    constructor; [|constructor]. right. by vm_compute. }
  destruct (Z.to_int n) as [d|d]; simpl NilZero.string_of_int.
  - apply Hu.
  - constructor; [by left | apply Hu].
Qed.


Lemma app_sep_inj (sep : char) (a1 a2 b1 b2 : str) :
  Forall (fun c => c <> sep) a1 -> Forall (fun c => c <> sep) a2 ->
  a1 ++ sep :: b1 = a2 ++ sep :: b2 -> a1 = a2 /\ b1 = b2.
Proof.
  intros H1. revert a2. induction H1 as [|x a1 Hx _ IH]; intros a2 H2 Heq.
  - destruct H2 as [|y a2 Hy _]; simpl in Heq; [by injection Heq|].
    injection Heq as Hy' _. by subst.
  - destruct H2 as [|y a2 Hy H2]; simpl in Heq.
    + injection Heq as Hx' _. by subst.
    + injection Heq as -> Heq. destruct (IH _ H2 Heq) as [-> ->]. done.
Qed.

(** ** UTF-8 *)





(** ** SHA-1 *)


(** The test vectors of FIPS 180: "abc", the empty message, and the
    two-block message. *)
Lemma sha1_test_vectors :
  SHA1.hexdigest (lit "abc") = lit "a9993e364706816aba3e25717850c26c9cd0d89d"
  /\ SHA1.hexdigest [] = lit "da39a3ee5e6b4b0d3255bfef95601890afd80709"
  /\ SHA1.hexdigest
       (lit "abcdbcdecdefdefgefghfghighijhijkijkljklmklmnlmnomnopnopq")
     = lit "84983e441c3bd26ebaae4aa1f95129e5e54670f1".
Proof. repeat split; vm_compute; reflexivity. Qed.

(** ** Counting *)



(** ** Chunk identity *)

Import Docling.

Lemma strip_no_space (s : str) :
  Forall (fun c => isspace c = false) s -> strip s = s.
Proof.
  intros Hs. unfold strip, rstrip.
  assert (Hl : forall u, Forall (fun c => isspace c = false) u -> lstrip u = u).
  { intros u [|c u' Hc _]; simpl; [done | by rewrite Hc]. }
  rewrite (Hl s Hs), Hl, rev_involutive; [done|].
  by apply List.Forall_rev.
Qed.




Lemma make_id_eq (text : str) (page : Z) (i : str) :
  make_id text page = Ok i <->
  exists bs, encode_utf8 (str_of_int page ++ lit ":" ++ take 160 text) = Ok bs
             /\ i = SHA1.hexdigest bs.
Proof.
  unfold make_id.
  destruct (encode_utf8 _) as [bs|e]; simpl; split.
  - intros [= <-]. by exists bs.
  - intros (bs' & [= <-] & ->). done.
  - done.
  - intros (bs' & Hbs & _). done.
Qed.



Section BuilderFacts.
Context {vec : Type} (enc : str -> result vec).

(** What the loop body has computed when it appends a chunk. *)
Lemma build_chunk_Some (chunk : DocChunk) (c : ChunkData vec) :
  build_chunk enc chunk = Ok (Some c) ->
  let st := fold_left item_step (doc_items (meta chunk)) (1%Z, []) in
  text c = strip (chunk_text chunk)
  /\ text c <> []
  /\ page_num c = st.1
  /\ bbox c = merge_bboxes st.2
  /\ headings c = meta_headings (meta chunk)
  /\ make_id (text c) (page_num c) = Ok (id c)
  /\ enc (text c) = Ok (embedding c).
Proof.
  unfold build_chunk, get_embedding.
  destruct (fold_left item_step _ _) as [pn boxes].
  destruct (strip (chunk_text chunk)) as [|x s] eqn:Hs; [done|].
  destruct (make_id (x :: s) pn) as [i|] eqn:Hid; simpl; [|done].
  destruct (enc (x :: s)) as [e|] eqn:He; simpl; [|done].
  intros [= <-]. simpl. by repeat split.
Qed.

Lemma build_chunk_None (chunk : DocChunk) :
  build_chunk enc chunk = Ok None <-> strip (chunk_text chunk) = [].
Proof.
  unfold build_chunk, get_embedding.
  destruct (fold_left item_step _ _) as [pn boxes].
  destruct (strip (chunk_text chunk)) as [|x s]; [done|].
  destruct (make_id (x :: s) pn); simpl; [|done].
  destruct (enc (x :: s)); simpl; done.
Qed.

Lemma chunk_loop_elem (chunks : list DocChunk) (acc out : list (ChunkData vec)) :
  chunk_loop enc chunks acc = Ok out ->
  forall c, c ∈ out ->
    c ∈ acc \/ exists chunk, chunk ∈ chunks /\ build_chunk enc chunk = Ok (Some c).
Proof.
  revert acc. induction chunks as [|chunk rest IH]; intros acc; simpl.
  - intros [= <-] c Hc. by left.
  - destruct (build_chunk enc chunk) as [[b|]|] eqn:Hb; simpl; [| |done].
    + intros Hloop c Hc.
      destruct (IH _ Hloop c Hc) as [Hacc|(ch & Hch & Hbuilt)].
      * apply elem_of_app in Hacc as [Hacc|Hnew]; [by left|].
        apply list_elem_of_singleton in Hnew as ->.
        right. exists chunk. split; [left | done].
      * right. exists ch. split; [by right | done].
    + intros Hloop c Hc.
      destruct (IH _ Hloop c Hc) as [Hacc|(ch & Hch & Hbuilt)]; [by left|].
      right. exists ch. split; [by right | done].
Qed.

Lemma chunking_elem (chunks : list DocChunk) (out : list (ChunkData vec))
    (c : ChunkData vec) :
  structure_aware_chunking enc chunks = Ok out -> c ∈ out ->
  exists chunk, chunk ∈ chunks /\ build_chunk enc chunk = Ok (Some c).
Proof.
  intros Hrun Hc.
  destruct (chunk_loop_elem _ _ _ Hrun c Hc) as [Hnil|Hex]; [|done].
  by apply elem_of_nil in Hnil.
Qed.

End BuilderFacts.









(** ** Merged bounding boxes *)

Import Geometry.

Lemma py_min_is_min_of (x : Q) (xs : list Q) : py_min x xs = min_of x xs.
Proof.
  unfold py_min, min_of. revert x.
  induction xs as [|y xs IH]; intros x; simpl; [done|].
  rewrite <- IH. f_equal.
  unfold Qltb, Qmin, GenericMinMax.gmin.
  rewrite <- (Qcompare_antisym x y). by destruct (x ?= y)%Q.
Qed.

Lemma py_max_is_max_of (x : Q) (xs : list Q) : py_max x xs = max_of x xs.
Proof.
  unfold py_max, max_of. revert x.
  induction xs as [|y xs IH]; intros x; simpl; [done|].
  rewrite <- IH. f_equal.
  unfold Qltb, Qmax, GenericMinMax.gmax. by destruct (x ?= y)%Q.
Qed.

Lemma min_of_le_head (x : Q) (xs : list Q) : (min_of x xs <= x)%Q.
Proof.
  unfold min_of. revert x.
  induction xs as [|y xs IH]; intros x; simpl; [apply Qle_refl|].
  eapply Qle_trans; [apply IH | apply Q.le_min_l].
Qed.

Lemma min_of_lower_bound (x : Q) (xs : list Q) (y : Q) :
  y ∈ x :: xs -> (min_of x xs <= y)%Q.
Proof.
  revert x. induction xs as [|z xs IH]; intros x Hy.
  - apply list_elem_of_singleton in Hy as ->. apply Qle_refl.
  - apply elem_of_cons in Hy as [->|Hy].
    + apply min_of_le_head.
    + change (min_of x (z :: xs)) with (min_of (Qmin x z) xs).
      apply elem_of_cons in Hy as [->|Hy].
      * eapply Qle_trans; [apply min_of_le_head | apply Q.le_min_r].
      * apply IH. by right.
Qed.

Lemma min_of_attained (x : Q) (xs : list Q) : min_of x xs ∈ x :: xs.
Proof.
  revert x. induction xs as [|z xs IH]; intros x; [left|].
  change (min_of x (z :: xs)) with (min_of (Qmin x z) xs).
  specialize (IH (Qmin x z)).
  apply elem_of_cons in IH as [Heq|Hin].
  - rewrite Heq. unfold Qmin, GenericMinMax.gmin.
    destruct (x ?= z)%Q; [left | left | right; left].
  - right. by right.
Qed.

Lemma max_of_ge_head (x : Q) (xs : list Q) : (x <= max_of x xs)%Q.
Proof.
  unfold max_of. revert x.
  induction xs as [|y xs IH]; intros x; simpl; [apply Qle_refl|].
  eapply Qle_trans; [apply Q.le_max_l | apply IH].
Qed.

Lemma max_of_upper_bound (x : Q) (xs : list Q) (y : Q) :
  y ∈ x :: xs -> (y <= max_of x xs)%Q.
Proof.
  revert x. induction xs as [|z xs IH]; intros x Hy.
  - apply list_elem_of_singleton in Hy as ->. apply Qle_refl.
  - apply elem_of_cons in Hy as [->|Hy].
    + apply max_of_ge_head.
    + change (max_of x (z :: xs)) with (max_of (Qmax x z) xs).
      apply elem_of_cons in Hy as [->|Hy].
      * eapply Qle_trans; [apply Q.le_max_r | apply max_of_ge_head].
      * apply IH. by right.
Qed.

Lemma max_of_attained (x : Q) (xs : list Q) : max_of x xs ∈ x :: xs.
Proof.
  revert x. induction xs as [|z xs IH]; intros x; [left|].
  change (max_of x (z :: xs)) with (max_of (Qmax x z) xs).
  specialize (IH (Qmax x z)).
  apply elem_of_cons in IH as [Heq|Hin].
  - rewrite Heq. unfold Qmax, GenericMinMax.gmax.
    destruct (x ?= z)%Q; [left | right; left | left].
  - right. by right.
Qed.

(** The loop over the items collects exactly the boxes of the first
    provenance records. *)
Lemma fold_item_step_boxes (items : list DocItem) (st : Z * list BoundingBox) :
  (fold_left item_step items st).2 = st.2 ++ omap first_box items.
Proof.
  revert st. induction items as [|item items IH]; intros st; simpl.
  - by rewrite app_nil_r.
  - rewrite IH. unfold item_step, first_box.
    destruct (prov item) as [|p ps]; [done|].
    destruct (prov_bbox p); simpl; [by rewrite <- app_assoc | done].
Qed.

(** The page after the loop is the page of the last item with a
    provenance record. *)
Lemma fold_item_step_page (before after : list DocItem) (item : DocItem)
    (p : ProvenanceItem) (ps : list ProvenanceItem) (st : Z * list BoundingBox) :
  prov item = p :: ps -> Forall (fun it => prov it = []) after ->
  (fold_left item_step (before ++ item :: after) st).1 = default 1%Z (page_no p).
Proof.
  intros Hp Hafter. rewrite fold_left_app. simpl.
  generalize (fold_left item_step before st). intros st'.
  assert (Hkeep : forall s, fold_left item_step after s = s).
  { induction Hafter as [|it after Hit _ IH]; intros s; simpl; [done|].
    unfold item_step at 2. rewrite Hit. apply IH. }
  rewrite Hkeep. unfold item_step. rewrite Hp.
  by destruct (prov_bbox p).
Qed.

Lemma merge_bboxes_spec (b0 : BoundingBox) (bs : list BoundingBox) :
  merge_bboxes (b0 :: bs)
  = [min_of (bb_l b0) (map bb_l bs); max_of (bb_t b0) (map bb_t bs);
     max_of (bb_r b0) (map bb_r bs); min_of (bb_b b0) (map bb_b bs)].
Proof.
  unfold merge_bboxes. by rewrite !py_min_is_min_of, !py_max_is_max_of.
Qed.

Lemma merge_bboxes_contains (b0 : BoundingBox) (bs : list BoundingBox)
    (b : BoundingBox) :
  b ∈ b0 :: bs -> contains (merge_bboxes (b0 :: bs)) b.
Proof.
  intros Hb. rewrite merge_bboxes_spec. unfold contains.
  repeat split.
  - apply min_of_lower_bound.
    change (bb_l b ∈ map bb_l (b0 :: bs)). by apply list_elem_of_fmap_2.
  - apply max_of_upper_bound.
    change (bb_t b ∈ map bb_t (b0 :: bs)). by apply list_elem_of_fmap_2.
  - apply max_of_upper_bound.
    change (bb_r b ∈ map bb_r (b0 :: bs)). by apply list_elem_of_fmap_2.
  - apply min_of_lower_bound.
    change (bb_b b ∈ map bb_b (b0 :: bs)). by apply list_elem_of_fmap_2.
Qed.

Lemma merge_bboxes_attained (b0 : BoundingBox) (bs : list BoundingBox) :
  exists b1 b2 b3 b4,
    b1 ∈ b0 :: bs /\ b2 ∈ b0 :: bs /\ b3 ∈ b0 :: bs /\ b4 ∈ b0 :: bs
    /\ merge_bboxes (b0 :: bs) = [bb_l b1; bb_t b2; bb_r b3; bb_b b4].
Proof.
  rewrite merge_bboxes_spec.
  pose proof (min_of_attained (bb_l b0) (map bb_l bs)) as H1.
  pose proof (max_of_attained (bb_t b0) (map bb_t bs)) as H2.
  pose proof (max_of_attained (bb_r b0) (map bb_r bs)) as H3.
  pose proof (min_of_attained (bb_b b0) (map bb_b bs)) as H4.
  change (min_of (bb_l b0) (map bb_l bs) ∈ bb_l <$> (b0 :: bs)) in H1.
  change (max_of (bb_t b0) (map bb_t bs) ∈ bb_t <$> (b0 :: bs)) in H2.
  change (max_of (bb_r b0) (map bb_r bs) ∈ bb_r <$> (b0 :: bs)) in H3.
  change (min_of (bb_b b0) (map bb_b bs) ∈ bb_b <$> (b0 :: bs)) in H4.
  apply list_elem_of_fmap in H1 as (b1 & -> & ?).
  apply list_elem_of_fmap in H2 as (b2 & -> & ?).
  apply list_elem_of_fmap in H3 as (b3 & -> & ?).
  apply list_elem_of_fmap in H4 as (b4 & -> & ?).
  by exists b1, b2, b3, b4.
Qed.

Lemma built_bbox {vec : Type} (enc : str -> result vec) (chunk : DocChunk)
    (c : ChunkData vec) :
  build_chunk enc chunk = Ok (Some c) ->
  bbox c = merge_bboxes (first_boxes chunk).
Proof.
  intros (_ & _ & _ & Hbox & _)%build_chunk_Some.
  rewrite Hbox, fold_item_step_boxes. done.
Qed.

(** When no item has more than one provenance record, the boxes of the
    first records are all the constituent boxes. *)
Lemma first_boxes_all (chunk : DocChunk) :
  Forall (fun item => (length (prov item) <= 1)%nat) (doc_items (meta chunk)) ->
  first_boxes chunk = constituent_boxes chunk.
Proof.
  unfold first_boxes, constituent_boxes.
  induction 1 as [|item items Hone _ IH]; [done|].
  rewrite bind_cons, <- IH. unfold item_boxes.
  change (omap first_box (item :: items))
    with (match first_box item with
          | Some b => b :: omap first_box items
          | None => omap first_box items
          end).
  unfold first_box at 1.
  destruct (prov item) as [|p [|p' ps]]; simpl in Hone; [done| |lia].
  simpl. by destruct (prov_bbox p).
Qed.

Lemma first_boxes_constituent (chunk : DocChunk) (b : BoundingBox) :
  b ∈ first_boxes chunk -> b ∈ constituent_boxes chunk.
Proof.
  unfold first_boxes, constituent_boxes.
  intros (item & Hitem & Hb)%list_elem_of_omap.
  apply list_elem_of_bind. exists item. split; [|done].
  unfold first_box in Hb. unfold item_boxes.
  destruct (prov item) as [|p ps]; [done|].
  apply list_elem_of_omap. exists p. split; [left | done].
Qed.

Lemma first_box_elem (chunk : DocChunk) (item : DocItem)
    (p : ProvenanceItem) (ps : list ProvenanceItem) (b : BoundingBox) :
  item ∈ doc_items (meta chunk) -> prov item = p :: ps ->
  prov_bbox p = Some b -> b ∈ first_boxes chunk.
Proof.
  intros Hitem Hp Hb. apply list_elem_of_omap. exists item.
  split; [done|]. unfold first_box. by rewrite Hp.
Qed.

(** C2 (as amended).  The builder reads the first provenance record of
    each item.  A chunk whose items contribute at least one such box has
    the bounding box [min of lefts, max of tops, max of rights, min of
    bottoms] over these boxes; that box contains every one of them, and
    each of its four sides is the side of one of them.  The boxes read
    are constituent boxes, and they are all the constituent boxes when
    no item has more than one provenance record.  Merging [0,10,5,0]
    and [3,12,8,2] yields [0,12,8,0], in either order. *)
Theorem merged_bbox_is_min_max_of_constituents {vec : Type}
    (enc : str -> result vec) (chunks : list DocChunk)
    (out : list (ChunkData vec)) :
  structure_aware_chunking enc chunks = Ok out ->
  (forall c, c ∈ out ->
     exists chunk,
       chunk ∈ chunks /\ build_chunk enc chunk = Ok (Some c)
       /\ (forall b0 bs, first_boxes chunk = b0 :: bs ->
             bbox c = [min_of (bb_l b0) (map bb_l bs);
                       max_of (bb_t b0) (map bb_t bs);
                       max_of (bb_r b0) (map bb_r bs);
                       min_of (bb_b b0) (map bb_b bs)]
             /\ (forall b, b ∈ b0 :: bs -> contains (bbox c) b)
             /\ exists b1 b2 b3 b4,
                  b1 ∈ b0 :: bs /\ b2 ∈ b0 :: bs /\ b3 ∈ b0 :: bs
                  /\ b4 ∈ b0 :: bs
                  /\ bbox c = [bb_l b1; bb_t b2; bb_r b3; bb_b b4])
       /\ (forall b, b ∈ first_boxes chunk -> b ∈ constituent_boxes chunk)
       /\ (Forall (fun item => (length (prov item) <= 1)%nat)
                  (doc_items (meta chunk)) ->
           first_boxes chunk = constituent_boxes chunk))
  /\ merge_bboxes [Box 0 10 5 0; Box 3 12 8 2] = [0%Q; 12%Q; 8%Q; 0%Q]
  /\ merge_bboxes [Box 3 12 8 2; Box 0 10 5 0] = [0%Q; 12%Q; 8%Q; 0%Q].
Proof.
  intros Hrun. split; [|split; reflexivity].
  intros c Hc.
  destruct (chunking_elem enc _ _ _ Hrun Hc) as (chunk & Hin & Hb).
  exists chunk. split; [done|]. split; [done|].
  split; [|split; [apply first_boxes_constituent | apply first_boxes_all]].
  intros b0 bs Hboxes.
  rewrite (built_bbox enc chunk c Hb), Hboxes.
  split; [apply merge_bboxes_spec|].
  split; [apply merge_bboxes_contains | apply merge_bboxes_attained].
Qed.

(** The theorem at the sample chunk, whose two items carry the boxes of
    the example. *)
Lemma merged_bbox_witness :
  structure_aware_chunking Fixtures.unit_encode
    [Fixtures.sample_chunk; Fixtures.blank_chunk] = Ok Fixtures.sample_out
  /\ forall c, c ∈ Fixtures.sample_out ->
       exists chunk, chunk ∈ [Fixtures.sample_chunk; Fixtures.blank_chunk]
         /\ build_chunk Fixtures.unit_encode chunk = Ok (Some c)
         /\ forall b0 bs, first_boxes chunk = b0 :: bs ->
              forall b, b ∈ b0 :: bs -> contains (bbox c) b.
Proof.
  assert (Hrun : structure_aware_chunking Fixtures.unit_encode
            [Fixtures.sample_chunk; Fixtures.blank_chunk]
          = Ok Fixtures.sample_out) by (vm_compute; reflexivity).
  split; [exact Hrun|].
  intros c Hc.
  destruct (proj1 (merged_bbox_is_min_max_of_constituents
                     Fixtures.unit_encode _ _ Hrun) c Hc)
    as (chunk & Hin & Hb & Hbox & _).
  exists chunk. split; [exact Hin|]. split; [exact Hb|].
  intros b0 bs Hboxes. exact (proj1 (proj2 (Hbox b0 bs Hboxes))).
Defined.

(** C2, the counterexample.  An item with two provenance records has
    two constituent boxes, [0,10,5,0] and [3,12,8,2]; the chunk built
    from it gets the box of the first record, which is not the merged
    box [0,12,8,0] and does not contain the second box. *)
Lemma later_provenance_box_is_left_out :
  constituent_boxes Fixtures.two_record_chunk
  = [Box 0 10 5 0; Box 3 12 8 2]
  /\ structure_aware_chunking Fixtures.unit_encode [Fixtures.two_record_chunk]
     = Ok [mkChunkData unit
             (lit "3074d77403f56001a0267ec56a1b8e63466f2b95")
             (lit "laid out in two regions") 1%Z
             [0%Q; 10%Q; 5%Q; 0%Q] [] tt]
  /\ [0%Q; 10%Q; 5%Q; 0%Q] <> [0%Q; 12%Q; 8%Q; 0%Q]
  /\ ~ contains [0%Q; 10%Q; 5%Q; 0%Q] (Box 3 12 8 2).
Proof.
  split; [reflexivity|]. split; [vm_compute; reflexivity|].
  split; [discriminate|].
  intros (_ & Htop & _). apply Htop. reflexivity.
Qed.

(** ** Empty chunks *)

Section SkipFacts.
Context {vec : Type} (enc : str -> result vec).

Lemma chunk_loop_texts (chunks : list DocChunk) (acc out : list (ChunkData vec)) :
  chunk_loop enc chunks acc = Ok out ->
  map text out
  = map text acc
    ++ filter (fun t => t <> []) (map (fun ch => strip (chunk_text ch)) chunks).
Proof.
  revert acc. induction chunks as [|chunk rest IH]; intros acc; simpl.
  - intros [= <-]. by rewrite app_nil_r.
  - destruct (build_chunk enc chunk) as [[b|]|] eqn:Hb; simpl; [| |done].
    + intros Hloop. rewrite (IH _ Hloop).
      apply build_chunk_Some in Hb as (Ht & Hne & _).
      rewrite filter_cons_True by (by rewrite <- Ht).
      rewrite map_app, <- app_assoc. simpl. by rewrite Ht.
    + intros Hloop. rewrite (IH _ Hloop).
      apply build_chunk_None in Hb.
      by rewrite filter_cons_False by (by rewrite Hb; intros []).
Qed.

End SkipFacts.

(** C9.  The texts of the emitted chunks are, in order, the stripped
    texts of the proposed chunks that are not empty: a proposed chunk
    whose text strips to the empty string adds nothing and raises
    nothing, and every emitted chunk has a non-empty text that is its
    own stripped form. *)
Theorem empty_chunks_are_skipped {vec : Type}
    (enc : str -> result vec) (chunks : list DocChunk)
    (out : list (ChunkData vec)) :
  structure_aware_chunking enc chunks = Ok out ->
  map text out
  = filter (fun t => t <> []) (map (fun ch => strip (chunk_text ch)) chunks)
  /\ (forall chunk, chunk ∈ chunks -> strip (chunk_text chunk) = [] ->
        build_chunk enc chunk = Ok None)
  /\ (forall c, c ∈ out -> text c <> [] /\ strip (text c) = text c).
Proof.
  intros Hrun. split; [|split].
  - by rewrite (chunk_loop_texts enc _ _ _ Hrun).
  - intros chunk _ Hempty. by apply build_chunk_None.
  - intros c Hc.
    destruct (chunking_elem enc _ _ _ Hrun Hc) as (chunk & _ & Hb).
    apply build_chunk_Some in Hb as (Ht & Hne & _).
    split; [done|]. rewrite Ht. apply strip_idem.
Qed.

(** The theorem at a run with a chunk of blanks: one chunk comes out. *)
Lemma empty_chunks_witness :
  structure_aware_chunking Fixtures.unit_encode
    [Fixtures.sample_chunk; Fixtures.blank_chunk] = Ok Fixtures.sample_out
  /\ map text Fixtures.sample_out
     = filter (fun t => t <> [])
         (map (fun ch => strip (chunk_text ch))
              [Fixtures.sample_chunk; Fixtures.blank_chunk]).
Proof.
  assert (Hrun : structure_aware_chunking Fixtures.unit_encode
            [Fixtures.sample_chunk; Fixtures.blank_chunk]
          = Ok Fixtures.sample_out) by (vm_compute; reflexivity).
  split; [exact Hrun|].
  exact (proj1 (empty_chunks_are_skipped Fixtures.unit_encode _ _ Hrun)).
Defined.

(** ** The page of a chunk *)

(** C10.  When a chunk has an item with a provenance record, its page
    number is the page of the first provenance record of the last such
    item (1 when that record has no [page_no]).  Its bounding box is
    [min of lefts, max of tops, max of rights, min of bottoms] over the
    boxes of the first records of all its items, whatever their pages,
    and contains the box of every item.  A chunk of two items on pages
    1 and 2 is put on page 2 with the box that spans both. *)
Theorem page_num_is_page_of_last_item {vec : Type}
    (enc : str -> result vec) (chunks : list DocChunk)
    (out : list (ChunkData vec)) :
  structure_aware_chunking enc chunks = Ok out ->
  (forall c, c ∈ out ->
     exists chunk,
       chunk ∈ chunks /\ build_chunk enc chunk = Ok (Some c)
       /\ (forall before item after p ps,
             doc_items (meta chunk) = before ++ item :: after ->
             prov item = p :: ps ->
             Forall (fun it => prov it = []) after ->
             page_num c = default 1%Z (page_no p))
       /\ (forall b0 bs, first_boxes chunk = b0 :: bs ->
             bbox c = [min_of (bb_l b0) (map bb_l bs);
                       max_of (bb_t b0) (map bb_t bs);
                       max_of (bb_r b0) (map bb_r bs);
                       min_of (bb_b b0) (map bb_b bs)])
       /\ (forall item p ps b,
             item ∈ doc_items (meta chunk) -> prov item = p :: ps ->
             prov_bbox p = Some b -> contains (bbox c) b))
  /\ build_chunk Fixtures.unit_encode Fixtures.two_page_chunk
     = Ok (Some (mkChunkData unit
                   (lit "6be0aed1f32d01ed6200c3968dc5204eb34f57b5")
                   (lit "spans a page break") 2%Z
                   [0%Q; 12%Q; 8%Q; 0%Q] [] tt)).
Proof.
  intros Hrun. split.
  - intros c Hc.
    destruct (chunking_elem enc _ _ _ Hrun Hc) as (chunk & Hin & Hb).
    exists chunk. split; [done|]. split; [done|].
    pose proof (built_bbox enc chunk c Hb) as Hbox.
    split; [|split].
    + intros before item after p ps Hitems Hp Hafter.
      apply build_chunk_Some in Hb as (_ & _ & Hpage & _).
      rewrite Hpage, Hitems. by eapply fold_item_step_page.
    + intros b0 bs Hboxes. rewrite Hbox, Hboxes. apply merge_bboxes_spec.
    + intros item p ps b Hitem Hp Hpb.
      pose proof (first_box_elem chunk item p ps b Hitem Hp Hpb) as Hin'.
      rewrite Hbox.
      destruct (first_boxes chunk) as [|b0 bs]; [by apply elem_of_nil in Hin'|].
      by apply merge_bboxes_contains.
  - vm_compute. reflexivity.
Qed.

(** The theorem at the chunk that spans a page break. *)
Lemma page_num_witness :
  structure_aware_chunking Fixtures.unit_encode [Fixtures.two_page_chunk]
  = Ok Fixtures.two_page_out
  /\ forall c, c ∈ Fixtures.two_page_out ->
       page_num c = 2%Z
       /\ bbox c = [0%Q; 12%Q; 8%Q; 0%Q]
       /\ contains (bbox c) (Box 3 10 8 0)
       /\ contains (bbox c) (Box 0 12 5 2).
Proof.
  assert (Hrun : structure_aware_chunking Fixtures.unit_encode
            [Fixtures.two_page_chunk] = Ok Fixtures.two_page_out)
    by (vm_compute; reflexivity).
  split; [exact Hrun|].
  intros c Hc.
  destruct (proj1 (page_num_is_page_of_last_item
                     Fixtures.unit_encode _ _ Hrun) c Hc)
    as (chunk & Hin & _ & Hpage & Hbox & Hcontains).
  apply list_elem_of_singleton in Hin as ->.
  split; [|split; [|split]].
  - exact (Hpage
      [Item [Prov (Some 1%Z) (Some (Box 3 10 8 0))]]
      (Item [Prov (Some 2%Z) (Some (Box 0 12 5 2))]) []
      (Prov (Some 2%Z) (Some (Box 0 12 5 2))) []
      eq_refl eq_refl (List.Forall_nil _)).
  - exact (Hbox (Box 3 10 8 0) [Box 0 12 5 2] eq_refl).
  - apply (Hcontains (Item [Prov (Some 1%Z) (Some (Box 3 10 8 0))])
             (Prov (Some 1%Z) (Some (Box 3 10 8 0))) [] (Box 3 10 8 0));
      [left | reflexivity | reflexivity].
  - apply (Hcontains (Item [Prov (Some 2%Z) (Some (Box 0 12 5 2))])
             (Prov (Some 2%Z) (Some (Box 0 12 5 2))) [] (Box 0 12 5 2));
      [right; left | reflexivity | reflexivity].
Defined.

(** ** Citation markers *)

Import Re Lexical.

Lemma scan_cons (c : char) (s : str) :
  scan (c :: s)
  = match match_marker (c :: s) with
    | Some (g, rest) => Match g :: scan rest
    | None => Text c :: scan s
    end.
Proof.
  simp scan.
  match goal with
  | |- context [inspect ?m] => destruct (inspect m) as [o Heq]
  end.
  transitivity (match o with
                | Some (g, rest) => Match g :: scan rest
                | None => Text c :: scan s
                end); [|by destruct Heq].
  by destruct o as [[g rest]|].
Qed.

Lemma span_ident_spec (s : str) :
  s = (span_ident s).1 ++ (span_ident s).2
  /\ (rbracket ∉ (span_ident s).1)
  /\ ((span_ident s).2 = [] \/ exists r, (span_ident s).2 = rbracket :: r).
Proof.
  induction s as [|c s (IH1 & IH2 & IH3)]; simpl.
  - split; [done|]. split; [apply not_elem_of_nil | by left].
  - destruct (N.eqb_spec c rbracket) as [->|Hc]; simpl.
    + split; [done|]. split; [apply not_elem_of_nil | right; by eexists].
    + destruct (span_ident s) as [g r]; simpl in *.
      split; [by f_equal|]. split; [|done].
      intros [?|?]%elem_of_cons; done.
Qed.

Lemma span_ident_app (g rest : str) :
  rbracket ∉ g -> span_ident (g ++ rbracket :: rest) = (g, rbracket :: rest).
Proof.
  induction g as [|c g IH]; intros Hg; simpl.
  - done.
  - destruct (N.eqb_spec c rbracket) as [->|Hc].
    + exfalso. apply Hg. left.
    + rewrite IH; [done|]. intros Hin. apply Hg. by right.
Qed.

(** The anchored match of the pattern is the marker of the
    specification. *)
Lemma match_marker_spec (s g rest : str) :
  match_marker s = Some (g, rest) <-> marker_at s g rest.
Proof.
  unfold marker_at, is_ident. split.
  - destruct s as [|c s]; simpl; [done|].
    destruct (N.eqb_spec c lbracket) as [->|Hc]; [|done].
    destruct (span_ident_spec s) as (Hs & Hg & Hr).
    destruct (span_ident s) as [[|g0 gs] [|r0 rs]]; simpl in *; try done.
    intros [= <- <-].
    destruct Hr as [|[r [= -> ->]]]; [done|].
    split; [done|]. by rewrite Hs.
  - intros ((Hne & Hg) & ->). simpl.
    rewrite span_ident_app by done.
    by destruct g.
Qed.

Lemma scan_lexes (s : str) : lexes s (scan s).
Proof.
  remember (length s) as n eqn:Hn. revert s Hn.
  induction n as [n IH] using lt_wf_ind. intros s ->.
  destruct s as [|c s]; [simp scan; constructor|].
  rewrite scan_cons.
  match goal with
  | |- context [match_marker ?x] =>
      destruct (match_marker x) as [[g rest]|] eqn:Hm
  end.
  - eapply lexes_match; [by apply match_marker_spec|].
    eapply IH; [|done]. by eapply match_marker_shorter.
  - apply lexes_text.
    + intros g rest Hm'%match_marker_spec. congruence.
    + eapply IH; [|done]. simpl. lia.
Qed.

(** The scan of the regular expression computes the one reading of the
    text into markers and plain characters. *)
Lemma lexes_scan (s : str) (tks : list token) : lexes s tks <-> scan s = tks.
Proof.
  split; [|intros <-; apply scan_lexes].
  induction 1 as [|s g rest tks Hm _ IH|c s tks Hno _ IH].
  - by simp scan.
  - destruct s as [|c s]; [by destruct Hm as [_ ?]|].
    apply match_marker_spec in Hm. by rewrite scan_cons, Hm, IH.
  - rewrite scan_cons.
    match goal with
    | |- context [match_marker ?x] =>
        destruct (match_marker x) as [[g rest]|] eqn:Hm
    end.
    + apply match_marker_spec in Hm. by destruct (Hno g rest).
    + by rewrite IH.
Qed.

(** Reading the tokens back gives the text. *)
Lemma lexes_flatten (s : str) (tks : list token) :
  lexes s tks -> concat (map token_text tks) = s.
Proof.
  induction 1 as [|s g rest tks [_ ->] _ IH|c s tks _ _ IH]; simpl.
  - done.
  - rewrite IH. by rewrite <- app_assoc.
  - by rewrite IH.
Qed.

Lemma lexes_idents (s : str) (tks : list token) (g : str) :
  lexes s tks -> Match g ∈ tks -> is_ident g.
Proof.
  induction 1 as [|s g' rest tks [Hid _] _ IH|c s tks _ _ IH].
  - intros []%elem_of_nil.
  - intros [[= ->]|Hin]%elem_of_cons; [done | by apply IH].
  - intros [[=]|Hin]%elem_of_cons. by apply IH.
Qed.

Lemma findall_Match (s g : str) : g ∈ findall s <-> Match g ∈ scan s.
Proof.
  unfold findall. rewrite list_elem_of_omap. split.
  - intros ([c|g'] & Hin & Heq); [done|]. by injection Heq as ->.
  - intros Hin. by exists (Match g).
Qed.

(** Every identifier [findall] returns stands in the text between a '['
    and the next ']'. *)
Lemma findall_occurs (s g : str) :
  g ∈ findall s ->
  is_ident g /\ exists pre post, s = pre ++ lbracket :: g ++ rbracket :: post.
Proof.
  intros Hin%findall_Match. split.
  - eapply lexes_idents; [apply scan_lexes | done].
  - pose proof (lexes_flatten _ _ (scan_lexes s)) as Hflat.
    apply list_elem_of_split in Hin as (t1 & t2 & Htks).
    rewrite Htks, map_app, concat_app in Hflat. simpl in Hflat.
    exists (concat (map token_text t1)), (concat (map token_text t2)).
    rewrite <- Hflat. by rewrite <- app_assoc.
Qed.

Lemma closed_brackets_suffix (a b : str) :
  closed_brackets (a ++ b) -> closed_brackets b.
Proof.
  intros Hc a' b' ->. apply (Hc (a ++ a') b'). by rewrite <- app_assoc.
Qed.

Lemma marker_at_app (s g rest more : str) :
  marker_at s g rest -> marker_at (s ++ more) g (rest ++ more).
Proof.
  intros [Hid ->]. split; [done|]. simpl. by rewrite <- app_assoc.
Qed.

(** Behind a prefix whose brackets are closed the scan starts afresh. *)
Lemma scan_app_closed (pre rest : str) :
  closed_brackets pre -> scan (pre ++ rest) = scan pre ++ scan rest.
Proof.
  remember (length pre) as n eqn:Hn. revert pre Hn.
  induction n as [n IH] using lt_wf_ind. intros pre -> Hclosed.
  destruct pre as [|c pre]; [by simp scan|].
  simpl app. rewrite !scan_cons.
  destruct (match_marker (c :: pre)) as [[g r]|] eqn:Hm.
  - pose proof Hm as Hat%match_marker_spec.
    pose proof (marker_at_app _ _ _ rest Hat) as Hm'%match_marker_spec.
    simpl app in Hm'. rewrite Hm'. simpl. f_equal.
    eapply IH; [by eapply match_marker_shorter | done |].
    destruct Hat as [_ Heq]. rewrite Heq in Hclosed.
    apply (closed_brackets_suffix (lbracket :: g ++ [rbracket]) r).
    simpl. by rewrite <- app_assoc.
  - destruct (match_marker (c :: pre ++ rest)) as [[g r]|] eqn:Hm'.
    + exfalso. apply match_marker_spec in Hm' as [[Hne Hg] Heq].
      injection Heq as -> Heq.
      pose proof (Hclosed [] pre eq_refl) as Hin.
      apply list_elem_of_split_l in Hin as (x & y & -> & Hx).
      rewrite <- app_assoc in Heq. simpl in Heq.
      apply app_sep_inj in Heq as [-> _].
      * assert (Hat : marker_at (lbracket :: g ++ rbracket :: y) g y)
          by done.
        apply match_marker_spec in Hat. congruence.
      * apply Forall_forall. by intros c Hc ->.
      * apply Forall_forall. by intros c Hc ->.
    + simpl. f_equal.
      eapply (IH (length pre)); [simpl; lia | done |].
      by apply (closed_brackets_suffix [c] pre).
Qed.

(** A marker behind such a prefix is found. *)
Lemma findall_complete (pre g post : str) :
  is_ident g -> closed_brackets pre ->
  g ∈ findall (pre ++ lbracket :: g ++ rbracket :: post).
Proof.
  intros Hid Hclosed. apply findall_Match.
  rewrite scan_app_closed by done. apply elem_of_app. right.
  assert (Hat : marker_at (lbracket :: g ++ rbracket :: post) g post) by done.
  apply match_marker_spec in Hat. rewrite scan_cons, Hat. left.
Qed.

(** ** Extraction of cited chunks *)

Section ExtractFacts.
Context {coord : Type}.
Implicit Types (rs : list (QueryResult coord)) (m : gmap str (Payload coord)).

Lemma last_with_id_cons (i : str) (r : QueryResult coord) rs :
  last_with_id i (r :: rs)
  = match last_with_id i rs with
    | Some r' => Some r'
    | None => if decide (c_id (chunk r) = i) then Some r else None
    end.
Proof.
  unfold last_with_id. rewrite filter_cons.
  destruct (decide (c_id (chunk r) = i)); [|by destruct (last _)].
  by rewrite last_cons.
Qed.

Lemma last_with_id_Some (i : str) rs (r : QueryResult coord) :
  last_with_id i rs = Some r -> r ∈ rs /\ c_id (chunk r) = i.
Proof.
  unfold last_with_id. intros Hlast.
  apply last_Some in Hlast as (l' & Hl').
  assert (Hin : r ∈ filter (fun r => c_id (chunk r) = i) rs).
  { rewrite Hl'. apply elem_of_app. right. left. }
  by apply list_elem_of_filter in Hin as [? ?].
Qed.

Lemma last_with_id_None (i : str) rs :
  last_with_id i rs = None <-> forall r, r ∈ rs -> c_id (chunk r) <> i.
Proof.
  unfold last_with_id. rewrite last_None. split.
  - intros Hnil r Hr Hid.
    assert (Hin : r ∈ filter (fun r => c_id (chunk r) = i) rs)
      by (by apply list_elem_of_filter).
    rewrite Hnil in Hin. by apply elem_of_nil in Hin.
  - intros Hall. destruct (filter _ rs) as [|r l] eqn:Hf; [done|].
    assert (Hin : r ∈ filter (fun r => c_id (chunk r) = i) rs)
      by (rewrite Hf; left).
    apply list_elem_of_filter in Hin as [Hid Hr]. by destruct (Hall r Hr).
Qed.

(** The dictionary after the loop, entry by entry. *)
Lemma extract_lookup (answer_text : str) rs (i : str) :
  Citation.extract_cited_chunks answer_text rs !! i
  = if decide (i ∈ findall answer_text)
    then payload_of <$> last_with_id i rs
    else None.
Proof.
  unfold Citation.extract_cited_chunks.
  generalize (findall answer_text). intros cited.
  assert (Hgen : forall m,
    fold_left
      (fun cited_chunks result =>
         if bool_decide (c_id (chunk result) ∈ cited)
         then <[c_id (chunk result) := payload_of result]> cited_chunks
         else cited_chunks) rs m !! i
    = if decide (i ∈ cited)
      then match last_with_id i rs with
           | Some r => Some (payload_of r)
           | None => m !! i
           end
      else m !! i).
  { induction rs as [|r rs IH]; intros m.
    - simpl. by destruct (decide _).
    - simpl fold_left. rewrite IH, last_with_id_cons.
      destruct (decide (i ∈ cited)) as [Hi|Hi].
      + destruct (last_with_id i rs); [done|].
        destruct (decide (c_id (chunk r) = i)) as [<-|Hne].
        * rewrite bool_decide_eq_true_2 by done. by rewrite lookup_insert_eq.
        * case_bool_decide; [by rewrite lookup_insert_ne | done].
      + case_bool_decide; [|done].
        rewrite lookup_insert_ne; [done|]. by intros <-. }
  specialize (Hgen ∅). rewrite lookup_empty in Hgen.
  etransitivity; [exact Hgen|].
  destruct (decide _); [|done]. by destruct (last_with_id i rs).
Qed.

End ExtractFacts.

(** C3 (as amended).  A text has exactly one reading from left to
    right into markers and plain characters: where a marker [[g]] starts
    ([g] a non-empty run without ']', which may contain '[') it is
    taken and reading goes on behind its ']'.  The keys of the mapping
    [extract_cited_chunks] returns are exactly the identifiers of the
    markers of that reading that are the chunk id of a candidate; a key
    is mapped to the payload {docId, page, bbox, text} of the last
    candidate with that chunk id.  An identifier without a candidate
    gives no entry, and nothing is raised.  Every marker of the reading
    stands in the text, and a bracketed identifier of the text is a
    marker of the reading when every '[' before it is followed by a
    ']' before it. *)
Theorem extract_cited_chunks_keys_and_payloads {coord : Type}
    (answer_text : str) (search_results : list (QueryResult coord)) :
  (exists tks,
     lexes answer_text tks
     /\ (forall tks', lexes answer_text tks' -> tks' = tks)
     /\ concat (map token_text tks) = answer_text
     /\ (forall i,
           i ∈ dom (Citation.extract_cited_chunks answer_text search_results)
           <-> Match i ∈ tks
               /\ exists r, r ∈ search_results /\ c_id (chunk r) = i)
     /\ (forall i p,
           Citation.extract_cited_chunks answer_text search_results !! i
           = Some p
           <-> Match i ∈ tks
               /\ exists r, last_with_id i search_results = Some r
                            /\ r ∈ search_results /\ c_id (chunk r) = i
                            /\ p = payload_of r)
     /\ (forall g, Match g ∈ tks ->
           is_ident g
           /\ exists pre post,
                answer_text = pre ++ lbracket :: g ++ rbracket :: post)
     /\ (forall pre g post,
           answer_text = pre ++ lbracket :: g ++ rbracket :: post ->
           is_ident g -> closed_brackets pre -> Match g ∈ tks))
  /\ Citation.extract_cited_chunks (lit "X is defined. [abc123]")
       [CitationExample.abc123] = CitationExample.evidence
  /\ Citation.extract_cited_chunks (lit "X is defined. [zzz999]")
       [CitationExample.abc123] = ∅.
Proof.
  assert (Hlookup : forall i p,
    Citation.extract_cited_chunks answer_text search_results !! i = Some p <->
    Match i ∈ scan answer_text
    /\ exists r, last_with_id i search_results = Some r
                 /\ r ∈ search_results /\ c_id (chunk r) = i
                 /\ p = payload_of r).
  { intros i p. rewrite extract_lookup, <- findall_Match.
    destruct (decide (i ∈ findall answer_text)) as [Hi|Hi].
    - destruct (last_with_id i search_results) as [r|] eqn:Hlast; simpl.
      + pose proof (last_with_id_Some _ _ _ Hlast) as [Hr Hid]. split.
        * intros [= <-]. split; [done|]. by exists r.
        * intros (_ & r' & [= <-] & _ & _ & ->). done.
      + split; [done|]. by intros (_ & r' & [=] & _).
    - split; [done | by intros [? _]]. }
  split; [|split; vm_compute; reflexivity].
  exists (scan answer_text).
  split; [apply scan_lexes|].
  split; [by intros tks' <-%lexes_scan|].
  split; [apply lexes_flatten, scan_lexes|].
  split; [|split; [exact Hlookup|split]].
  - intros i. rewrite elem_of_dom. unfold is_Some. split.
    + intros (p & (Hi & r & _ & Hr & Hid & _)%Hlookup). split; [done|].
      by exists r.
    + intros (Hi & r & Hr & Hid).
      destruct (last_with_id i search_results) as [r'|] eqn:Hlast.
      * exists (payload_of r'). apply Hlookup. split; [done|].
        pose proof (last_with_id_Some _ _ _ Hlast) as [? ?]. by exists r'.
      * exfalso. by apply (proj1 (last_with_id_None i search_results) Hlast r).
  - intros g Hg%findall_Match. by apply findall_occurs.
  - intros pre g post -> Hid Hclosed. by apply findall_Match, findall_complete.
Qed.

(** C3, the counterexample.  In "[a[b]" the bracketed identifier b
    occurs, and b is the chunk id of the candidate; but the marker that
    starts at the first '[' has the identifier "a[b", so the mapping is
    empty. *)
Lemma bracket_inside_marker_is_missed :
  lit "[a[b]" = lit "[a" ++ lbracket :: lit "b" ++ rbracket :: []
  /\ is_ident (lit "b")
  /\ c_id (chunk CitationExample.cand_b) = lit "b"
  /\ scan (lit "[a[b]") = [Match (lit "a[b")]
  /\ Citation.extract_cited_chunks (lit "[a[b]") [CitationExample.cand_b] = ∅.
Proof.
  split; [reflexivity|]. split.
  { split; [discriminate|].
    intros [H|H]%elem_of_cons; [discriminate H | by apply elem_of_nil in H]. }
  split; [reflexivity|]. split; vm_compute; reflexivity.
Qed.

(** ** Linkification *)

Section LinkifyFacts.
Context {coord : Type} (format_coord : coord -> str).
Implicit Types (m : gmap str (Payload coord)).

(** What the replacement function returns is what [rendered] says. *)
Lemma repl_rendered m (g piece : str) :
  Citation.repl format_coord m g = Ok piece
  <-> rendered format_coord m (Match g) piece.
Proof.
  unfold Citation.repl, Citation.index. split.
  - destruct (m !! strip g) as [p|] eqn:Hm.
    + destruct (p_bbox p) as [|b0 [|b1 [|b2 [|b3 more]]]] eqn:Hb;
        try (intros Habs; discriminate Habs).
      intros [= <-]. by eapply rendered_link.
    + intros [= <-]. by apply rendered_plain.
  - inversion 1 as [|g' p b0 b1 b2 b3 more Hm Hb|g' Hm]; subst.
    + rewrite Hm, Hb. reflexivity.
    + by rewrite Hm.
Qed.

(** The replacement of a token depends on the token and the mapping
    alone. *)
Lemma rendered_functional m (tk : token) (p1 p2 : str) :
  rendered format_coord m tk p1 -> rendered format_coord m tk p2 -> p1 = p2.
Proof.
  destruct tk as [c|g].
  - inversion 1; inversion 1; done.
  - intros H1%repl_rendered H2%repl_rendered. congruence.
Qed.

Lemma sub_tokens_Ok (repl : str -> result str) (tks : list token) (out : str) :
  sub_tokens repl tks = Ok out <->
  exists pieces,
    out = concat pieces
    /\ Forall2 (fun tk piece =>
                  match tk with
                  | Text c => piece = [c]
                  | Match g => repl g = Ok piece
                  end) tks pieces.
Proof.
  revert out. induction tks as [|tk tks IH]; intros out.
  - simpl. split.
    + intros [= <-]. exists []. split; [done | constructor].
    + intros (pieces & -> & Hf). by inversion Hf.
  - split.
    + simpl. destruct tk as [c|g].
      * destruct (sub_tokens repl tks) as [o|] eqn:Ho; [|done].
        intros [= <-]. destruct (proj1 (IH o) eq_refl) as (ps & -> & Hf).
        exists ([c] :: ps). split; [done | by constructor].
      * destruct (repl g) as [r|] eqn:Hr; [|done]. simpl.
        destruct (sub_tokens repl tks) as [o|] eqn:Ho; [|done].
        intros [= <-]. destruct (proj1 (IH o) eq_refl) as (ps & -> & Hf).
        exists (r :: ps). split; [done | by constructor].
    + intros (pieces & -> & Hf).
      inversion Hf as [|tk' piece tks' ps Hp Hps]; subst.
      assert (Ho : sub_tokens repl tks = Ok (concat ps))
        by (apply IH; by exists ps).
      simpl. destruct tk as [c|g]; [subst piece | rewrite Hp]; simpl;
        by rewrite Ho.
Qed.

(** [linkify_citations] returns the concatenation of the rendered
    tokens of its text. *)
Lemma linkify_Ok (text : str) m (out : str) :
  Citation.linkify_citations format_coord text m = Ok out <->
  exists pieces,
    out = concat pieces
    /\ Forall2 (rendered format_coord m) (scan text) pieces.
Proof.
  unfold Citation.linkify_citations, sub. rewrite sub_tokens_Ok.
  split; intros (pieces & -> & Hf); exists pieces; (split; [done|]);
    eapply Forall2_impl; try exact Hf; intros [c|g] piece; simpl;
    try apply repl_rendered; try done.
  - intros ->. constructor.
  - by inversion 1.
Qed.

(** With four coordinates in every payload nothing is raised. *)
Lemma linkify_total (text : str) m :
  (forall i p, m !! i = Some p -> (4 <= length (p_bbox p))%nat) ->
  exists out, Citation.linkify_citations format_coord text m = Ok out.
Proof.
  intros Hbox.
  assert (Hex : exists pieces,
            Forall2 (rendered format_coord m) (scan text) pieces).
  { induction (scan text) as [|tk tks (ps & Hps)].
    - exists []. constructor.
    - assert (exists piece, rendered format_coord m tk piece) as (piece & Hp).
      { destruct tk as [c|g]; [eexists; constructor|].
        destruct (m !! strip g) as [p|] eqn:Hm.
        - specialize (Hbox _ _ Hm).
          destruct (p_bbox p) as [|b0 [|b1 [|b2 [|b3 more]]]] eqn:Hb;
            simpl in Hbox; try lia.
          eexists. by eapply rendered_link.
        - eexists. by apply rendered_plain. }
      exists (piece :: ps). by constructor. }
  destruct Hex as (pieces & Hf).
  exists (concat pieces). apply linkify_Ok. by exists pieces.
Qed.

End LinkifyFacts.

Section LinkifyCases.
Context {coord : Type} (format_coord : coord -> str).
Implicit Types (m : gmap str (Payload coord)).

(** The replacement function returns, or raises [IndexError] for a
    payload whose box has fewer than four coordinates. *)
Lemma repl_cases m (g : str) :
  (exists piece, Citation.repl format_coord m g = Ok piece)
  \/ (Citation.repl format_coord m g = Raise IndexError
      /\ exists p, m !! strip g = Some p /\ (length (p_bbox p) < 4)%nat).
Proof.
  unfold Citation.repl, Citation.index.
  destruct (m !! strip g) as [p|] eqn:Hm; [|left; by eexists].
  destruct (p_bbox p) as [|b0 [|b1 [|b2 [|b3 more]]]] eqn:Hb;
    try (right; split; [reflexivity|]; exists p; rewrite Hb; simpl;
         split; [done | lia]).
  left. by eexists.
Qed.

Lemma sub_tokens_cases m (tks : list token) :
  (exists pieces,
     sub_tokens (Citation.repl format_coord m) tks = Ok (concat pieces)
     /\ Forall2 (rendered format_coord m) tks pieces)
  \/ (sub_tokens (Citation.repl format_coord m) tks = Raise IndexError
      /\ exists g p,
           Match g ∈ tks /\ m !! strip g = Some p
           /\ (length (p_bbox p) < 4)%nat).
Proof.
  induction tks as [|tk tks IH].
  - left. exists []. split; [done | constructor].
  - destruct tk as [c|g]; cbn [sub_tokens].
    + destruct IH as [(pieces & -> & Hf)|(-> & g & p & Hg & Hm & Hlen)].
      * left. exists ([c] :: pieces). split; [done|].
        constructor; [constructor | done].
      * right. split; [done|]. exists g, p. split; [by right | done].
    + destruct (repl_cases m g) as [(piece & Hp)|(Hp & p & Hm & Hlen)].
      * rewrite Hp.
        destruct IH as [(pieces & -> & Hf)|(-> & g' & p & Hg & Hm & Hlen)].
        -- left. exists (piece :: pieces). split; [done|].
           constructor; [by apply repl_rendered | done].
        -- right. split; [done|]. exists g', p. split; [by right | done].
      * rewrite Hp. right. split; [done|]. exists g, p. split; [left | done].
Qed.

End LinkifyCases.

(** C4 (as amended).  [linkify_citations] looks a marker up by its
    identifier stripped of surrounding blanks.  Reading the text into
    its markers and plain characters, it returns the text with every
    token rendered in place: characters outside markers are copied, and
    a marker whose stripped identifier has a payload becomes the
    reference that encodes the payload's docId, page and the first four
    coordinates of its box, comma-joined, around the stripped
    identifier.  What replaces a marker depends on the identifier and
    the mapping only, so all occurrences of an identifier are replaced
    alike.  It returns unless the stripped identifier of some marker
    has a payload whose box has fewer than four coordinates; then it
    raises [IndexError].  The example of the specification yields
    [doc=d1&page=2&bbox=1,2,3,4]. *)
Theorem linkify_replaces_resolved_markers {coord : Type}
    (format_coord : coord -> str) (text : str)
    (m : gmap str (Payload coord)) :
  (exists tks,
     lexes text tks
     /\ concat (map token_text tks) = text
     /\ ((exists pieces,
            Citation.linkify_citations format_coord text m = Ok (concat pieces)
            /\ Forall2 (rendered format_coord m) tks pieces)
         \/ (Citation.linkify_citations format_coord text m = Raise IndexError
             /\ exists g p,
                  Match g ∈ tks /\ m !! strip g = Some p
                  /\ (length (p_bbox p) < 4)%nat))
     /\ ((forall g p, Match g ∈ tks -> m !! strip g = Some p ->
            (4 <= length (p_bbox p))%nat) ->
         exists pieces,
           Citation.linkify_citations format_coord text m = Ok (concat pieces)
           /\ Forall2 (rendered format_coord m) tks pieces)
     /\ (forall g p, Match g ∈ tks -> m !! strip g = Some p ->
           (4 <= length (p_bbox p))%nat ->
           exists b0 b1 b2 b3 more,
             p_bbox p = b0 :: b1 :: b2 :: b3 :: more
             /\ rendered format_coord m (Match g)
                  (reference format_coord p b0 b1 b2 b3 (strip g))))
  /\ (forall tk p1 p2,
        rendered format_coord m tk p1 -> rendered format_coord m tk p2 ->
        p1 = p2)
  /\ Citation.linkify_citations str_of_int
       (lit "X is defined. [abc123]") CitationExample.evidence
     = Ok (lit "X is defined. [<a href='/viewer?doc=d1&page=2&bbox=1,2,3,4' target='_blank' rel='noopener'>abc123</a>]")
  /\ Citation.linkify_citations str_of_int
       (lit "[abc123], again [abc123]") CitationExample.evidence
     = Ok (lit "[<a href='/viewer?doc=d1&page=2&bbox=1,2,3,4' target='_blank' rel='noopener'>abc123</a>], again [<a href='/viewer?doc=d1&page=2&bbox=1,2,3,4' target='_blank' rel='noopener'>abc123</a>]").
Proof.
  split; [|split; [apply rendered_functional|split; vm_compute; reflexivity]].
  exists (scan text).
  split; [apply scan_lexes|].
  split; [apply lexes_flatten, scan_lexes|].
  pose proof (sub_tokens_cases format_coord m (scan text)) as Hcases.
  fold (sub (Citation.repl format_coord m) text) in Hcases.
  fold (Citation.linkify_citations format_coord text m) in Hcases.
  split; [exact Hcases|]. split.
  - intros Hbox. destruct Hcases as [Hok|(_ & g & p & Hg & Hm & Hlen)]; [done|].
    specialize (Hbox g p Hg Hm). lia.
  - intros g p _ Hm Hbox.
    destruct (p_bbox p) as [|b0 [|b1 [|b2 [|b3 more]]]] eqn:Hb;
      simpl in Hbox; try lia.
    exists b0, b1, b2, b3, more. split; [done|].
    by eapply rendered_link.
Qed.

(** C4, the counterexample.  The key " abc " is the identifier of the
    marker in "see [ abc ]" and has a payload, but the lookup is made
    with "abc": the marker is not replaced by a reference.  And a
    payload with three coordinates makes the function raise. *)
Lemma padded_key_is_not_linked :
  scan (lit "see [ abc ]")
  = [Text 115; Text 101; Text 101; Text 32; Match (lit " abc ")]
  /\ is_Some (CitationExample.padded_evidence !! lit " abc ")
  /\ Citation.linkify_citations str_of_int (lit "see [ abc ]")
       CitationExample.padded_evidence
     = Ok (lit "see [abc]")
  /\ Citation.linkify_citations str_of_int (lit "X is defined. [abc123]")
       CitationExample.short_evidence
     = Raise IndexError.
Proof.
  split; [vm_compute; reflexivity|].
  split; [by eexists|]. split; vm_compute; reflexivity.
Qed.

(** C5, the counterexample.  An unresolved marker is written back with
    its identifier stripped: the blanks inside the brackets are lost. *)
Lemma unresolved_marker_loses_blanks :
  Citation.linkify_citations str_of_int (lit "[ zzz999 ]")
    (∅ : gmap str (Payload Z)) = Ok (lit "[zzz999]")
  /\ lit "[zzz999]" <> lit "[ zzz999 ]".
Proof. split; [vm_compute; reflexivity | discriminate]. Qed.

(** C5 (as amended).  In what [linkify_citations] returns, a marker
    whose stripped identifier has no payload stands as '[', the
    identifier without its surrounding blanks, ']'; when the identifier
    has no surrounding blanks this is the marker itself, so [[zzz999]]
    stays [[zzz999]].  A text whose markers are all of that kind comes
    back unchanged. *)
Theorem unresolved_markers_keep_their_identifier {coord : Type}
    (format_coord : coord -> str) (text : str)
    (m : gmap str (Payload coord)) (out : str) :
  Citation.linkify_citations format_coord text m = Ok out ->
  (exists pieces,
     out = concat pieces
     /\ Forall2 (fun tk piece =>
                   match tk with
                   | Text c => piece = [c]
                   | Match g =>
                       m !! strip g = None ->
                       piece = lit "[" ++ strip g ++ lit "]"
                       /\ (strip g = g -> piece = token_text tk)
                   end) (scan text) pieces)
  /\ ((forall g, Match g ∈ scan text -> m !! strip g = None /\ strip g = g) ->
      out = text)
  /\ Citation.linkify_citations str_of_int
       (lit "X is defined. [zzz999]") CitationExample.evidence
     = Ok (lit "X is defined. [zzz999]").
Proof.
  intros (pieces & -> & Hf)%linkify_Ok. split; [|split].
  - exists pieces. split; [done|].
    eapply Forall2_impl; [exact Hf|].
    intros tk piece Hr. destruct Hr as [c|g p b0 b1 b2 b3 more Hm Hb|g Hm].
    + done.
    + intros Hnone. congruence.
    + intros _. split; [done|]. by intros ->.
  - intros Hall.
    rewrite <- (lexes_flatten _ _ (scan_lexes text)).
    f_equal. revert Hall. induction Hf as [|tk piece tks ps Hr _ IH].
    + done.
    + intros Hall. simpl. f_equal.
      * destruct Hr as [c|g p b0 b1 b2 b3 more Hm Hb|g Hm]; [done| |].
        -- destruct (Hall g) as [Hnone _]; [left | congruence].
        -- destruct (Hall g) as [_ ->]; [left | done].
      * apply IH. intros g Hg. apply Hall. by right.
  - vm_compute. reflexivity.
Qed.

(** The theorem at a text with one unresolved marker. *)
Lemma unresolved_markers_witness :
  Citation.linkify_citations str_of_int
    (lit "X is defined. [zzz999]") CitationExample.evidence
  = Ok (lit "X is defined. [zzz999]")
  /\ exists pieces,
       lit "X is defined. [zzz999]" = concat pieces
       /\ Forall2 (fun tk piece =>
                     match tk with
                     | Text c => piece = [c]
                     | Match g =>
                         CitationExample.evidence !! strip g = None ->
                         piece = lit "[" ++ strip g ++ lit "]"
                         /\ (strip g = g -> piece = token_text tk)
                     end) (scan (lit "X is defined. [zzz999]")) pieces.
Proof.
  assert (Hrun : Citation.linkify_citations str_of_int
            (lit "X is defined. [zzz999]") CitationExample.evidence
          = Ok (lit "X is defined. [zzz999]")) by (vm_compute; reflexivity).
  split; [exact Hrun|].
  exact (proj1 (unresolved_markers_keep_their_identifier _ _ _ _ Hrun)).
Defined.

(** ** Retrieval *)

Import Neo4j Retrieval.

Section SearchFacts.
Context {vec : Type}.
Implicit Types (g : Graph vec) (c : ChunkNode vec).

(** The rows of the [MATCH] are the owning pages and documents. *)
Lemma paths_owns g c (p : PageNode) (d : DocumentNode) :
  (p, d) ∈ paths g c <-> owns g c p d.
Proof.
  unfold paths, owns. rewrite list_elem_of_bind. split.
  - intros ([cid pk] & Hin & Hedge).
    case_bool_decide as Hc; [|by apply elem_of_nil in Hin].
    apply list_elem_of_bind in Hin as ([pk' did] & Hin & Hof).
    case_bool_decide as Hpk; [|by apply elem_of_nil in Hin].
    destruct (pages g !! pk) as [p'|] eqn:Hp;
      [|by apply elem_of_nil in Hin].
    destruct (documents g !! did) as [d'|] eqn:Hd;
      [|by apply elem_of_nil in Hin].
    apply list_elem_of_singleton in Hin. injection Hin as -> ->.
    subst. by exists pk, did.
  - intros (pk & did & Hin & Hof & Hp & Hd).
    exists (cn_id c, pk). split; [|done].
    rewrite bool_decide_eq_true_2 by done.
    apply list_elem_of_bind. exists (pk, did). split; [|done].
    rewrite bool_decide_eq_true_2 by done. rewrite Hp, Hd. left.
Qed.

(** The [WHERE] clause, in Cypher's ternary logic, keeps exactly the
    chunks the family restriction describes. *)
Lemma where_keeps_family g (docType : str) c :
  where_keeps (where_doc_type g docType c) = true
  <-> family_matches g docType c.
Proof.
  unfold where_doc_type, family_matches.
  set (ex := existsb _ _).
  assert (Hex : ex = true <->
            exists p d, owns g c p d /\ dn_family d = docType).
  { subst ex. rewrite existsb_exists. split.
    - intros ([p d] & Hin%list_elem_of_In%paths_owns & Hfam).
      exists p, d. split; [done|]. by apply bool_decide_eq_true in Hfam.
    - intros (p & d & Hown%paths_owns%list_elem_of_In & Hfam).
      exists (p, d). split; [done|]. by apply bool_decide_eq_true. }
  destruct (cn_family c) as [fam|]; simpl.
  - case_bool_decide as Hfam; simpl.
    + split; [intros _; left; by subst | done].
    + destruct ex; simpl; split; try done.
      * intros _. right. by apply Hex.
      * intros [[= ?]|H%Hex]; done.
  - destruct ex; simpl; split; try done.
    + intros _. right. by apply Hex.
    + intros [[=]|H%Hex]. done.
Qed.

Lemma filter_active_spec (doc_type : option str) :
  filter_active doc_type = true
  <-> exists s, doc_type = Some s /\ s <> [] /\ s <> lit "general".
Proof.
  unfold filter_active. destruct doc_type as [[|x s]|].
  - split; [done|]. by intros (s & [= <-] & ? & _).
  - rewrite bool_decide_eq_true. split.
    + intros Hne. by exists (x :: s).
    + by intros (s' & [= <-] & _ & Hne).
  - split; [done|]. by intros (s & [=] & _).
Qed.

#[global] Instance score_desc_total : Total (@score_desc vec).
Proof.
  intros r1 r2. unfold score_desc.
  destruct (Qlt_le_dec (row_score r1) (row_score r2)) as [Hlt%Qlt_le_weak|Hle].
  - right. by apply Is_true_true, Qle_bool_iff.
  - left. by apply Is_true_true, Qle_bool_iff.
Qed.

#[global] Instance score_desc_trans : Transitive (@score_desc vec).
Proof.
  intros r1 r2 r3. unfold score_desc.
  rewrite !Is_true_true, !Qle_bool_iff. intros H12 H23.
  by eapply Qle_trans.
Qed.

Lemma StronglySorted_take {A} (R : relation A) (n : nat) (l : list A) :
  StronglySorted R l -> StronglySorted R (take n l).
Proof.
  intros Hl. revert n. induction Hl as [|x l Hl IH Hx]; intros [|n]; simpl;
    try constructor; [apply IH | by apply Forall_take].
Qed.

Lemma Sorted_adjacent {A} (R : relation A) (l : list A) (i : nat) (a b : A) :
  Sorted R l -> l !! i = Some a -> l !! S i = Some b -> R a b.
Proof.
  intros Hl. revert i. induction Hl as [|x l Hl IH Hx]; intros [|i]; simpl;
    try done.
  - intros [= ->] Hb. destruct Hx as [|y l' Hxy]; [done|].
    simpl in Hb. by injection Hb as ->.
  - apply IH.
Qed.

Lemma join_paths_length g (cands : list (ChunkNode vec * Q)) :
  (forall c s, (c, s) ∈ cands -> (length (paths g c) <= 1)%nat) ->
  (length (join_paths g cands) <= length cands)%nat.
Proof.
  unfold join_paths.
  induction cands as [|[c s] cands IH]; intros Hone; [done|].
  rewrite bind_cons, length_app, length_map. simpl.
  change (S (length cands)) with (1 + length cands)%nat.
  apply Nat.add_le_mono; [apply (Hone c s); left|].
  apply IH. intros c' s' Hin. apply (Hone c' s'). by right.
Qed.

Section WithIndex.
Context (queryNodes : Graph vec -> Z -> vec -> result (list (ChunkNode vec * Q))).

(** With an active filter the candidates are the yielded rows whose
    chunk meets the family restriction, in the order of the index. *)
Lemma candidates_active g (e : vec) (k : Z) (docType : str)
    (yielded : list (ChunkNode vec * Q)) :
  queryNodes g k e = Ok yielded ->
  filter_active (Some docType) = true ->
  exists cands,
    candidates queryNodes g e k (Some docType) = Ok cands
    /\ cands `sublist_of` yielded
    /\ forall cs, cs ∈ cands <->
          cs ∈ yielded /\ family_matches g docType cs.1.
Proof.
  intros Hq Hact. unfold candidates. rewrite Hq, Hact. simpl.
  eexists. split; [done|]. split; [apply sublist_filter|].
  intros cs. rewrite list_elem_of_filter, Is_true_true, where_keeps_family.
  tauto.
Qed.

(** Without an active filter they are the yielded rows. *)
Lemma candidates_inactive g (e : vec) (k : Z) (doc_type : option str) :
  filter_active doc_type = false ->
  candidates queryNodes g e k doc_type = queryNodes g k e.
Proof.
  intros Hact. unfold candidates.
  destruct (queryNodes g k e) as [yielded|]; simpl; [|done].
  destruct doc_type as [docType|]; [|done]. by rewrite Hact.
Qed.

Lemma candidates_length g (e : vec) (k : Z) (doc_type : option str)
    (cands : list (ChunkNode vec * Q)) :
  index_contract queryNodes ->
  candidates queryNodes g e k doc_type = Ok cands ->
  (Z.of_nat (length cands) <= k)%Z.
Proof.
  intros Hix. unfold candidates.
  destruct (queryNodes g k e) as [yielded|] eqn:Hq; simpl; [|done].
  destruct (Hix _ _ _ _ Hq) as [Hlen _].
  destruct doc_type as [docType|]; [|by intros [= <-]].
  destruct (filter_active (Some docType)); intros [= <-]; [|done].
  pose proof (length_filter
    (fun cs => where_keeps (where_doc_type g docType cs.1)) yielded). lia.
Qed.

(** The result list: nothing, or the first rows of the ordered join. *)
Lemma vector_search_cases g (e : vec) (k : Z) (doc_type : option str)
    (limit : Z) :
  vector_search queryNodes g e k doc_type limit = []
  \/ exists cands,
       candidates queryNodes g e k doc_type = Ok cands
       /\ (0 <= limit)%Z
       /\ vector_search queryNodes g e k doc_type limit
          = map project
              (take (Z.to_nat limit)
                 (merge_sort score_desc (join_paths g cands))).
Proof.
  unfold vector_search, run_query, limit_rows.
  destruct (candidates queryNodes g e k doc_type) as [cands|]; simpl;
    [|by left].
  destruct (Z.ltb_spec limit 0); simpl; [by left|].
  right. by exists cands.
Qed.

End WithIndex.

End SearchFacts.


Lemma first_k_contract : index_contract StoreExample.first_k.
Proof.
  intros g k e rows. unfold StoreExample.first_k.
  destruct (Z.leb_spec k 0); [done|]. intros [= <-]. split.
  - rewrite length_take. lia.
  - intros c s' (j & Hj & _)%elem_of_take.
    apply list_elem_of_lookup_2 in Hj.
    change (map ?f ?l) with (f <$> l) in Hj.
    apply list_elem_of_fmap in Hj as ([i c'] & [= -> ->] & Hin).
    exists i. by apply elem_of_map_to_list.
Qed.

Lemma score_project {vec} (r : row vec) : score (project r) = row_score r.
Proof. by destruct r as [[[c p] d] s']. Qed.

Lemma by_length_contract : index_contract StoreExample.by_length.
Proof.
  intros g k e rows. unfold StoreExample.by_length.
  destruct (Z.leb_spec k 0); [done|]. intros [= <-]. split.
  - rewrite length_take. lia.
  - intros c s' (j & Hj & _)%elem_of_take.
    apply list_elem_of_lookup_2 in Hj.
    change (map ?f ?l) with (f <$> l) in Hj.
    apply list_elem_of_fmap in Hj as ([i c'] & [= -> _] & Hin).
    exists i. by apply elem_of_map_to_list.
Qed.

(** C6 (as amended).  The results of [vector_search] are ordered by
    non-increasing score and there are at most [limit] of them (none
    when [limit] is negative).  When no candidate chunk has more than
    one path to a page and a document, there are at most
    [min(k, limit)]. *)
Theorem vector_search_ranked_and_limited {vec : Type}
    (queryNodes : Graph vec -> Z -> vec -> result (list (ChunkNode vec * Q)))
    (g : Graph vec) (e : vec) (k : Z) (doc_type : option str) (limit : Z) :
  index_contract queryNodes ->
  ranked (vector_search queryNodes g e k doc_type limit)
  /\ (Z.of_nat (length (vector_search queryNodes g e k doc_type limit))
      <= Z.max 0 limit)%Z
  /\ ((forall cands c s,
         candidates queryNodes g e k doc_type = Ok cands ->
         (c, s) ∈ cands -> (length (paths g c) <= 1)%nat) ->
      (Z.of_nat (length (vector_search queryNodes g e k doc_type limit))
       <= Z.max 0 (Z.min k limit))%Z).
Proof.
  intros Hix.
  destruct (vector_search_cases queryNodes g e k doc_type limit)
    as [->|(cands & Hc & Hlim & ->)].
  { split; [by intros i r1 r2 [=]|]. simpl. split; [lia|]. intros _. lia. }
  set (ordered := merge_sort score_desc (join_paths g cands)).
  assert (Hsorted : Sorted score_desc (take (Z.to_nat limit) ordered)).
  { apply StronglySorted_Sorted, StronglySorted_take.
    apply StronglySorted_merge_sort; apply _. }
  assert (Hlen : length ordered = length (join_paths g cands)).
  { apply Permutation_length, merge_sort_Permutation. }
  split; [|split].
  - intros i r1 r2 H1 H2.
    change (map project ?l) with (project <$> l) in H1, H2.
    rewrite list_lookup_fmap in H1, H2.
    destruct (take _ ordered !! i) as [row1|] eqn:E1; [|done].
    destruct (take _ ordered !! S i) as [row2|] eqn:E2; [|done].
    injection H1 as <-. injection H2 as <-.
    rewrite !score_project.
    apply Qle_bool_iff, Is_true_true.
    exact (Sorted_adjacent _ _ _ _ _ Hsorted E1 E2).
  - rewrite length_map, length_take. lia.
  - intros Hone. rewrite length_map, length_take, Hlen.
    pose proof (join_paths_length g cands
                  (fun c s' => Hone cands c s' Hc)).
    pose proof (candidates_length queryNodes g e k doc_type cands Hix Hc).
    lia.
Qed.

(** The theorem at a graph with two documents and an index whose scores
    differ: both chunks come back, the better one first; with [k = 1]
    one result comes back. *)
Lemma vector_search_ranked_witness :
  index_contract StoreExample.by_length
  /\ map score (vector_search StoreExample.by_length StoreExample.two_families
                  tt 10 None 5) = [12%Q; 11%Q]
  /\ ranked (vector_search StoreExample.by_length StoreExample.two_families
               tt 10 None 5)
  /\ (Z.of_nat (length (vector_search StoreExample.by_length
                          StoreExample.two_families tt 10 None 5))
      <= Z.max 0 (Z.min 10 5))%Z
  /\ (Z.of_nat (length (vector_search StoreExample.by_length
                          StoreExample.two_families tt 1 None 5))
      <= Z.max 0 (Z.min 1 5))%Z.
Proof.
  split; [exact by_length_contract|].
  split; [vm_compute; reflexivity|].
  destruct (vector_search_ranked_and_limited StoreExample.by_length
              StoreExample.two_families tt 10 None 5 by_length_contract)
    as (Hranked & _ & Hmin).
  destruct (vector_search_ranked_and_limited StoreExample.by_length
              StoreExample.two_families tt 1 None 5 by_length_contract)
    as (_ & _ & Hmin1).
  split; [exact Hranked|]. split.
  - apply Hmin. intros cands c s Hc Hin.
    vm_compute in Hc. injection Hc as <-.
    repeat (apply elem_of_cons in Hin as [[= -> ->]|Hin];
            [vm_compute; lia|]).
    by apply elem_of_nil in Hin.
  - apply Hmin1. intros cands c s Hc Hin.
    vm_compute in Hc. injection Hc as <-.
    repeat (apply elem_of_cons in Hin as [[= -> ->]|Hin];
            [vm_compute; lia|]).
    by apply elem_of_nil in Hin.
Defined.

(** C6, the counterexample.  After the same file has been uploaded
    twice its chunk node lies on a page of each of the two documents:
    with [k = 1] and [limit = 5] the one candidate comes back in two
    rows, more than [min(k, limit)]. *)
Lemma one_candidate_two_results :
  index_contract StoreExample.first_k
  /\ structure_aware_chunking Fixtures.unit_encode
       [Fixtures.plain_chunk (lit "shared text")]
     = Ok StoreExample.shared_chunks
  /\ length (vector_search StoreExample.first_k StoreExample.uploaded_twice
               tt 1 None 5) = 2%nat
  /\ ~ (Z.of_nat (length (vector_search StoreExample.first_k
                            StoreExample.uploaded_twice tt 1 None 5))
        <= Z.min 1 5)%Z.
Proof.
  split; [exact first_k_contract|].
  split; [vm_compute; reflexivity|].
  assert (Hlen : length (vector_search StoreExample.first_k
                           StoreExample.uploaded_twice tt 1 None 5) = 2%nat)
    by (vm_compute; reflexivity).
  split; [exact Hlen|]. rewrite Hlen. lia.
Qed.

(** Every result row comes from a candidate and one of its owners. *)
Lemma vector_search_from_candidates {vec : Type}
    (queryNodes : Graph vec -> Z -> vec -> result (list (ChunkNode vec * Q)))
    (g : Graph vec) (e : vec) (k : Z) (doc_type : option str) (limit : Z)
    (r : QueryResult Q) :
  r ∈ vector_search queryNodes g e k doc_type limit ->
  exists cands c s p d,
    candidates queryNodes g e k doc_type = Ok cands
    /\ (c, s) ∈ cands /\ owns g c p d /\ r = project (c, p, d, s).
Proof.
  destruct (vector_search_cases queryNodes g e k doc_type limit)
    as [->|(cands & Hc & _ & ->)]; [by intros ?%elem_of_nil|].
  change (map project ?l) with (project <$> l).
  intros (rw & -> & Hin)%list_elem_of_fmap.
  apply elem_of_take in Hin as (j & Hj%list_elem_of_lookup_2 & _).
  rewrite merge_sort_Permutation in Hj.
  unfold join_paths in Hj.
  apply list_elem_of_bind in Hj as ([c s] & Hrow & Hcs).
  change (map ?f ?l) with (f <$> l) in Hrow.
  apply list_elem_of_fmap in Hrow as ([p d] & -> & Hpd%paths_owns).
  by exists cands, c, s, p, d.
Qed.

(** C8.  When [doc_type] is set (given and not the empty string) and is
    not "general", the candidates are the rows the index yields whose
    chunk has the family tag [doc_type] itself or is owned, through
    IN_PAGE and OF, by a document of that family; when [doc_type] is
    absent, empty or "general" the candidates are all the yielded rows.
    The results are built from the candidates only.  In a graph with a
    "general" and a "legal" document, the filter "legal" leaves the
    chunk of the legal document, and "general", the empty string and no
    filter leave both chunks. *)
Theorem doc_type_filter_restricts_candidates {vec : Type}
    (queryNodes : Graph vec -> Z -> vec -> result (list (ChunkNode vec * Q)))
    (g : Graph vec) (e : vec) (k : Z) (doc_type : option str)
    (yielded : list (ChunkNode vec * Q)) :
  queryNodes g k e = Ok yielded ->
  (forall docType,
     doc_type = Some docType -> docType <> [] -> docType <> lit "general" ->
     exists cands,
       candidates queryNodes g e k doc_type = Ok cands
       /\ cands `sublist_of` yielded
       /\ forall cs, cs ∈ cands <->
            cs ∈ yielded /\ family_matches g docType cs.1)
  /\ (doc_type = None \/ doc_type = Some [] \/ doc_type = Some (lit "general") ->
      candidates queryNodes g e k doc_type = Ok yielded)
  /\ (forall limit r,
        r ∈ vector_search queryNodes g e k doc_type limit ->
        exists cands c s p d,
          candidates queryNodes g e k doc_type = Ok cands
          /\ (c, s) ∈ cands /\ owns g c p d /\ r = project (c, p, d, s))
  /\ map (fun r => c_id (chunk r))
       (vector_search StoreExample.first_k StoreExample.two_families
          tt 10 (Some (lit "legal")) 5)
     = [lit "202445c525e1553a9220f9eb2fc88e4b248eef20"]
  /\ (forall dt,
        dt = None \/ dt = Some [] \/ dt = Some (lit "general") ->
        length (vector_search StoreExample.first_k StoreExample.two_families
                  tt 10 dt 5) = 2%nat).
Proof.
  intros Hq. split; [|split; [|split; [|split]]].
  - intros docType -> Hne Hgen.
    apply candidates_active; [done|].
    apply filter_active_spec. by exists docType.
  - intros Hoff. rewrite candidates_inactive; [done|].
    destruct Hoff as [->|[->| ->]]; reflexivity.
  - intros limit r. apply vector_search_from_candidates.
  - vm_compute. reflexivity.
  - intros dt [->|[->| ->]]; vm_compute; reflexivity.
Qed.

(** The theorem at the graph with a "general" and a "legal" document. *)
Lemma doc_type_filter_witness :
  StoreExample.first_k StoreExample.two_families 10 tt
  = Ok (map (fun kv => (kv.2, 1%Q))
          (map_to_list (chunk_nodes StoreExample.two_families)))
  /\ exists cands,
       candidates StoreExample.first_k StoreExample.two_families tt 10
         (Some (lit "legal")) = Ok cands
       /\ forall cs, cs ∈ cands ->
            family_matches StoreExample.two_families (lit "legal") cs.1.
Proof.
  assert (Hq : StoreExample.first_k StoreExample.two_families 10 tt
          = Ok (map (fun kv => (kv.2, 1%Q))
                  (map_to_list (chunk_nodes StoreExample.two_families))))
    by (vm_compute; reflexivity).
  split; [exact Hq|].
  destruct (proj1 (doc_type_filter_restricts_candidates StoreExample.first_k
                     StoreExample.two_families tt 10 (Some (lit "legal")) _ Hq)
              (lit "legal") eq_refl)
    as (cands & Hc & _ & Hmem).
  - discriminate.
  - discriminate.
  - exists cands. split; [exact Hc|]. intros cs Hcs. by apply Hmem.
Defined.

(** ** The empty answer *)

Lemma run_query_empty_store {vec : Type}
    (queryNodes : Graph vec -> Z -> vec -> result (list (ChunkNode vec * Q)))
    (g : Graph vec) (e : vec) (k : Z) (doc_type : option str) (limit : Z) :
  index_contract queryNodes -> chunk_nodes g = ∅ ->
  vector_search queryNodes g e k doc_type limit = [].
Proof.
  intros Hix Hempty.
  destruct (vector_search_cases queryNodes g e k doc_type limit)
    as [->|(cands & Hc & _ & ->)]; [done|].
  assert (Hnil : cands = []); [|subst cands; cbn; by rewrite take_nil].
  unfold candidates in Hc.
  destruct (queryNodes g k e) as [yielded|] eqn:Hq; simpl in Hc; [|done].
  assert (Hy : yielded = []).
  { destruct yielded as [|[c s] ys]; [done|].
    destruct (Hix _ _ _ _ Hq) as [_ Hin].
    destruct (Hin c s) as (i & Hi); [left|].
    rewrite Hempty, lookup_empty in Hi. done. }
  subst yielded. destruct doc_type as [docType|]; [|by injection Hc].
  destruct (filter_active (Some docType)); by injection Hc.
Qed.

(** C7.  When the embedding of the query has been computed and the
    store holds no chunk, or the similarity primitive fails, or the
    query fails in any other way, [vector_search] returns the empty
    list, and [query_documents] returns the response with the
    placeholder answer, no chunks and no cited chunks; nothing is
    raised. *)
Theorem no_results_give_placeholder_response {vec : Type}
    (embedding_model_encode : str -> result vec)
    (queryNodes : Graph vec -> Z -> vec -> result (list (ChunkNode vec * Q)))
    (generate_answer_with_citations :
       str -> list (QueryResult Q) -> result str)
    (g : Graph vec) (request : QueryRequest) (query_embedding : vec) :
  index_contract queryNodes ->
  embedding_model_encode (query request) = Ok query_embedding ->
  chunk_nodes g = ∅
  \/ (exists err, queryNodes g (k request) query_embedding = Raise err)
  \/ (exists err, run_query queryNodes g query_embedding (k request)
                    (doc_type request) (limit request) = Raise err) ->
  vector_search queryNodes g query_embedding (k request)
    (doc_type request) (limit request) = []
  /\ Api.query_documents embedding_model_encode queryNodes
       generate_answer_with_citations g request
     = Ok (mkQueryResponse
             (lit "No relevant documents found for your query.") [] ∅).
Proof.
  intros Hix Henc Hcase.
  assert (Hnil : vector_search queryNodes g query_embedding (k request)
                   (doc_type request) (limit request) = []).
  { destruct Hcase as [Hempty|[(err & Herr)|(err & Herr)]].
    - by apply run_query_empty_store.
    - unfold vector_search, run_query, candidates. by rewrite Herr.
    - unfold vector_search. by rewrite Herr. }
  split; [exact Hnil|].
  unfold Api.query_documents, get_embedding. rewrite Henc. simpl.
  by rewrite Hnil.
Qed.

(** The theorem at the empty graph. *)
Lemma no_results_witness :
  Api.query_documents Fixtures.unit_encode StoreExample.first_k
    StoreExample.no_answer empty_graph StoreExample.sample_request
  = Ok (mkQueryResponse
          (lit "No relevant documents found for your query.") [] ∅).
Proof.
  refine (proj2 (no_results_give_placeholder_response Fixtures.unit_encode
                   StoreExample.first_k StoreExample.no_answer empty_graph
                   StoreExample.sample_request tt first_k_contract
                   eq_refl _)).
  left. reflexivity.
Defined.

(** ** The builder returns *)

Lemma encode_utf8_scalars (s : str) :
  Forall (fun c => is_scalar c = true) s -> exists bs, encode_utf8 s = Ok bs.
Proof.
  induction 1 as [|c s Hc _ (bs & IH)]; simpl; [by eexists|].
  rewrite Hc, IH. by eexists.
Qed.

Lemma make_id_returns (text : str) (page : Z) :
  Forall (fun c => is_scalar c = true) (take 160 text) ->
  exists i, make_id text page = Ok i.
Proof.
  intros Ht. unfold make_id.
  destruct (encode_utf8_scalars (str_of_int page ++ lit ":" ++ take 160 text))
    as (bs & ->); [|by eexists].
  apply Forall_app. split; [|apply Forall_app; split; [by repeat constructor | done]].
  eapply Forall_impl; [apply str_of_int_chars|].
  unfold int_char, is_scalar. intros c Hc.
  destruct (N.ltb_spec c 55296); [done | lia].
Qed.

(** When the embedding service answers for every text that is not blank,
    and no such text has a lone surrogate among its first 160
    characters, the run of the builder returns its list of chunks. *)
Lemma chunking_returns {vec : Type} (enc : str -> result vec)
    (chunks : list DocChunk) :
  (forall chunk, chunk ∈ chunks -> strip (chunk_text chunk) <> [] ->
     (exists v, enc (strip (chunk_text chunk)) = Ok v)
     /\ Forall (fun c => is_scalar c = true)
               (take 160 (strip (chunk_text chunk)))) ->
  exists out, structure_aware_chunking enc chunks = Ok out.
Proof.
  unfold structure_aware_chunking. generalize (@nil (ChunkData vec)).
  induction chunks as [|chunk rest IH]; intros acc Hall; simpl; [by eexists|].
  assert (Hb : exists o, build_chunk enc chunk = Ok o).
  { unfold build_chunk, get_embedding.
    destruct (fold_left item_step _ _) as [pn boxes].
    destruct (strip (chunk_text chunk)) as [|x s] eqn:Hs; [by eexists|].
    destruct (Hall chunk) as [(v & Hv) Hsc]; [left | by rewrite Hs |].
    rewrite Hs in Hv, Hsc.
    destruct (make_id_returns (x :: s) pn Hsc) as (i & ->). simpl.
    rewrite Hv. by eexists. }
  destruct Hb as (o & ->). simpl.
  destruct o; apply IH; intros ch Hch; apply Hall; by right.
Qed.

(** * Further properties of the code *)

(** ** The builder: ids, boxes, failures *)

Import BuilderWords.

Lemma hexchar_hex (d : N) : d < 16 -> hex_char (SHA1.hexchar d).
Proof.
  intros Hd. unfold hex_char, SHA1.hexchar.
  destruct (N.ltb_spec d 10); lia.
Qed.

Lemma hex_le_spec (w : nat) (x : N) :
  length (SHA1.hex_le w x) = w /\ Forall hex_char (SHA1.hex_le w x).
Proof.
  revert x. induction w as [|w IH]; intros x; simpl; [by split|].
  destruct (IH (x / 16)) as [Hlen Hall]. split; [by rewrite Hlen|].
  constructor; [|done]. apply hexchar_hex. lia.
Qed.

Lemma hex_char_plain (c : char) :
  hex_char c -> isspace c = false /\ c <> Re.lbracket /\ c <> Re.rbracket.
Proof.
  unfold hex_char, Re.lbracket, Re.rbracket. intros Hc.
  split; [|lia].
  unfold isspace.
  repeat match goal with
         | |- context [?a <=? ?b] => destruct (N.leb_spec a b)
         | |- context [?a =? ?b] => destruct (N.eqb_spec a b)
         end; simpl; try done; lia.
Qed.

(** X1.  Every id [make_id] returns is a string of 40 lowercase
    hexadecimal digits.  Hence it is a well-formed marker identifier: it
    is not empty, has no bracket in it, and stripping leaves it as it
    is. *)
Theorem make_id_is_forty_hex_digits (text : str) (page : Z) (i : str) :
  make_id text page = Ok i ->
  length i = 40%nat
  /\ Forall hex_char i
  /\ is_ident i
  /\ (Re.lbracket ∉ i)
  /\ strip i = i.
Proof.
  intros (bs & _ & ->)%make_id_eq. unfold SHA1.hexdigest.
  destruct (hex_le_spec 40 (SHA1.digest bs)) as [Hlen Hall].
  assert (Hrev : Forall hex_char (rev (SHA1.hex_le 40 (SHA1.digest bs))))
    by (by apply List.Forall_rev).
  assert (Hlen' : length (rev (SHA1.hex_le 40 (SHA1.digest bs))) = 40%nat)
    by (by rewrite length_rev).
  revert Hrev Hlen'. generalize (rev (SHA1.hex_le 40 (SHA1.digest bs))).
  intros i Hall' Hlen'.
  split; [done|]. split; [done|].
  assert (Hplain : Forall (fun c => isspace c = false /\ c <> Re.lbracket
                                    /\ c <> Re.rbracket) i).
  { eapply Forall_impl; [exact Hall'|]. apply hex_char_plain. }
  split; [|split].
  - split; [by destruct i|].
    intros Hin. rewrite Forall_forall in Hplain.
    by destruct (Hplain _ Hin) as (_ & _ & ?).
  - intros Hin. rewrite Forall_forall in Hplain.
    by destruct (Hplain _ Hin) as (_ & ? & _).
  - apply strip_no_space. eapply Forall_impl; [exact Hplain|].
    by intros c (? & _).
Qed.

(** The theorem at the id of the specification's example. *)
Lemma make_id_hex_witness :
  make_id (lit "handicap means...") 3
  = Ok (lit "97667accccce08cfd35ef067282973b6b6e6c975")
  /\ length (lit "97667accccce08cfd35ef067282973b6b6e6c975") = 40%nat.
Proof.
  assert (Hid : make_id (lit "handicap means...") 3
          = Ok (lit "97667accccce08cfd35ef067282973b6b6e6c975"))
    by (vm_compute; reflexivity).
  split; [exact Hid|].
  exact (proj1 (make_id_is_forty_hex_digits _ _ _ Hid)).
Defined.

Lemma merge_bboxes_length (boxes : list BoundingBox) :
  length (merge_bboxes boxes) = 4%nat.
Proof. by destruct boxes. Qed.

Lemma merge_bboxes_valid (boxes : list BoundingBox) :
  Forall valid_box boxes -> valid_bbox (merge_bboxes boxes).
Proof.
  destruct boxes as [|b0 bs]; [intros _; by split|].
  intros Hall.
  assert (Hb0 : valid_box b0) by (by inversion Hall).
  pose proof (merge_bboxes_contains b0 bs b0 ltac:(left)) as Hc.
  rewrite merge_bboxes_spec in Hc |- *. simpl in Hc |- *.
  destruct Hc as (Hl & Ht & Hr & Hb). destruct Hb0 as [Hlr Hbt]. split.
  - eapply Qle_trans; [exact Hl|]. by eapply Qle_trans.
  - eapply Qle_trans; [exact Hb|]. by eapply Qle_trans.
Qed.

(** X2.  Every chunk the builder emits has a bounding box of exactly
    four coordinates; when the boxes of the parser are not inside out
    ([l <= r] and [b <= t]) the box of the chunk is not either:
    [left <= right] and [bottom <= top]. *)
Theorem built_bbox_is_valid {vec : Type}
    (enc : str -> result vec) (chunks : list DocChunk)
    (out : list (ChunkData vec)) :
  structure_aware_chunking enc chunks = Ok out ->
  (forall chunk, chunk ∈ chunks -> Forall valid_box (first_boxes chunk)) ->
  forall c, c ∈ out -> length (bbox c) = 4%nat /\ valid_bbox (bbox c).
Proof.
  intros Hrun Hvalid c Hc.
  destruct (chunking_elem enc _ _ _ Hrun Hc) as (chunk & Hin & Hb).
  rewrite (built_bbox enc chunk c Hb). split.
  - apply merge_bboxes_length.
  - apply merge_bboxes_valid. by apply Hvalid.
Qed.

(** The theorem at the sample chunk. *)
Lemma built_bbox_witness :
  structure_aware_chunking Fixtures.unit_encode
    [Fixtures.sample_chunk; Fixtures.blank_chunk] = Ok Fixtures.sample_out
  /\ forall c, c ∈ Fixtures.sample_out -> valid_bbox (bbox c).
Proof.
  assert (Hrun : structure_aware_chunking Fixtures.unit_encode
            [Fixtures.sample_chunk; Fixtures.blank_chunk]
          = Ok Fixtures.sample_out) by (vm_compute; reflexivity).
  split; [exact Hrun|].
  intros c Hc.
  refine (proj2 (built_bbox_is_valid Fixtures.unit_encode _ _ Hrun _ c Hc)).
  intros chunk Hin.
  apply elem_of_cons in Hin as [->|Hin].
  - repeat constructor; simpl; discriminate.
  - apply list_elem_of_singleton in Hin as ->. constructor.
Defined.

Lemma fold_item_step_no_prov (items : list DocItem) (st : Z * list BoundingBox) :
  Forall (fun it => prov it = []) items -> fold_left item_step items st = st.
Proof.
  induction 1 as [|it items Hit _ IH]; simpl; [done|].
  unfold item_step at 2. by rewrite Hit.
Qed.

(** X3.  A chunk none of whose items has a provenance record (a chunk
    without items among them) is put on page 1 with the box
    [0, 0, 0, 0], and its id is the one [make_id] gives for page 1;
    items with provenance records that carry no box leave the box at
    [0, 0, 0, 0] as well. *)
Theorem chunk_without_provenance_defaults {vec : Type}
    (enc : str -> result vec) (chunk : DocChunk) (c : ChunkData vec) :
  build_chunk enc chunk = Ok (Some c) ->
  (Forall (fun it => prov it = []) (doc_items (meta chunk)) ->
     page_num c = 1%Z
     /\ bbox c = [0%Q; 0%Q; 0%Q; 0%Q]
     /\ make_id (strip (chunk_text chunk)) 1 = Ok (id c))
  /\ (first_boxes chunk = [] -> bbox c = [0%Q; 0%Q; 0%Q; 0%Q]).
Proof.
  intros Hb. split.
  - intros Hnone.
    pose proof (build_chunk_Some enc chunk c Hb) as (Ht & _ & Hp & Hbox & _ & Hid & _).
    rewrite fold_item_step_no_prov in Hp, Hbox by done.
    simpl in Hp, Hbox. split; [done|]. split; [done|].
    by rewrite <- Ht, <- Hp.
  - intros Hnil. by rewrite (built_bbox enc chunk c Hb), Hnil.
Qed.

(** The theorem at a chunk without items. *)
Lemma chunk_without_provenance_witness :
  build_chunk Fixtures.unit_encode (Fixtures.plain_chunk (lit "shared text"))
  = Ok (Some (mkChunkData unit
                (lit "8c6c166bc9b8f71592b2ea3f5d5509f097133d96")
                (lit "shared text") 1%Z [0%Q; 0%Q; 0%Q; 0%Q] [] tt))
  /\ page_num (mkChunkData unit
                 (lit "8c6c166bc9b8f71592b2ea3f5d5509f097133d96")
                 (lit "shared text") 1%Z [0%Q; 0%Q; 0%Q; 0%Q] [] tt) = 1%Z.
Proof.
  assert (Hb : build_chunk Fixtures.unit_encode
                 (Fixtures.plain_chunk (lit "shared text"))
          = Ok (Some (mkChunkData unit
                        (lit "8c6c166bc9b8f71592b2ea3f5d5509f097133d96")
                        (lit "shared text") 1%Z [0%Q; 0%Q; 0%Q; 0%Q] [] tt)))
    by (vm_compute; reflexivity).
  split; [exact Hb|].
  exact (proj1 (proj1 (chunk_without_provenance_defaults _ _ _ Hb)
                  (List.Forall_nil _))).
Defined.

Section FailureFacts.
Context {vec : Type} (enc : str -> result vec).

Lemma chunk_loop_Raise (chunks : list DocChunk) (acc : list (ChunkData vec))
    (e : exn) :
  chunk_loop enc chunks acc = Raise e ->
  exists chunk, chunk ∈ chunks /\ build_chunk enc chunk = Raise e.
Proof.
  revert acc. induction chunks as [|chunk rest IH]; intros acc; simpl; [done|].
  destruct (build_chunk enc chunk) as [[b|]|e'] eqn:Hb; simpl.
  - intros (ch & Hin & Hch)%IH. exists ch. split; [by right | done].
  - intros (ch & Hin & Hch)%IH. exists ch. split; [by right | done].
  - intros [= ->]. exists chunk. split; [left | done].
Qed.

Lemma chunk_loop_fails (chunks : list DocChunk) (acc : list (ChunkData vec))
    (chunk : DocChunk) (e : exn) :
  chunk ∈ chunks -> build_chunk enc chunk = Raise e ->
  exists e', chunk_loop enc chunks acc = Raise e'.
Proof.
  intros Hin Hfail. revert acc.
  induction chunks as [|ch rest IH]; intros acc; [by apply elem_of_nil in Hin|].
  simpl. apply elem_of_cons in Hin as [<-|Hin].
  - rewrite Hfail. simpl. by eexists.
  - destruct (build_chunk enc ch) as [[b|]|e'']; simpl; [by apply IH..|].
    by eexists.
Qed.

Lemma build_chunk_Raise (chunk : DocChunk) (e : exn) :
  build_chunk enc chunk = Raise e <->
  strip (chunk_text chunk) <> []
  /\ let page :=
       (fold_left item_step (doc_items (meta chunk)) (1%Z, [])).1 in
     (make_id (strip (chunk_text chunk)) page = Raise e
      \/ (exists i, make_id (strip (chunk_text chunk)) page = Ok i)
         /\ enc (strip (chunk_text chunk)) = Raise e).
Proof.
  unfold build_chunk, get_embedding.
  destruct (fold_left item_step _ _) as [pn boxes]. simpl.
  destruct (strip (chunk_text chunk)) as [|x s].
  { split; [done | by intros [? _]]. }
  destruct (make_id (x :: s) pn) as [i|e1]; simpl.
  - destruct (enc (x :: s)) as [v|e2]; simpl.
    + split; [done|]. intros (_ & [?|(_ & ?)]); done.
    + split.
      * intros [= ->]. split; [done|]. right. split; [by eexists | done].
      * intros (_ & [?|(_ & [= ->])]); done.
  - split.
    + intros [= ->]. split; [done|]. by left.
    + intros (_ & [[= ->]|((i & ?) & _)]); done.
Qed.

End FailureFacts.

(** X4.  The builder is all or nothing.  [structure_aware_chunking]
    raises exactly when the converter raises, or the loop body raises
    for a chunk the chunker has yielded, or the chunker itself raises
    after the chunks it has yielded were built; it returns a list only
    when none of this happens, and then the list built from all the
    chunks.  The loop raises when its body raises for one chunk, and
    only then, with the exception of a chunk.  The body raises only
    for a chunk whose stripped text is not empty, and then because the
    id cannot be encoded or because the embedding service fails: a
    blank chunk never reaches the service. *)
Theorem chunking_is_all_or_nothing {vec document : Type}
    (enc : str -> result vec) (convert : str -> result document)
    (chunker : document -> list DocChunk * option exn) (pdf_path : str) :
  (forall e,
     structure_aware_chunking_pdf enc convert chunker pdf_path = Raise e
     <-> convert pdf_path = Raise e
         \/ exists d chunks failure,
              convert pdf_path = Ok d /\ chunker d = (chunks, failure)
              /\ (structure_aware_chunking enc chunks = Raise e
                  \/ (exists out, structure_aware_chunking enc chunks = Ok out)
                     /\ failure = Some e))
  /\ (forall out,
        structure_aware_chunking_pdf enc convert chunker pdf_path = Ok out
        <-> exists d chunks,
              convert pdf_path = Ok d /\ chunker d = (chunks, None)
              /\ structure_aware_chunking enc chunks = Ok out)
  /\ (forall chunks chunk e,
        chunk ∈ chunks -> build_chunk enc chunk = Raise e ->
        exists e', structure_aware_chunking enc chunks = Raise e')
  /\ (forall chunks e, structure_aware_chunking enc chunks = Raise e ->
        exists chunk, chunk ∈ chunks /\ build_chunk enc chunk = Raise e)
  /\ (forall chunk e, build_chunk enc chunk = Raise e <->
        strip (chunk_text chunk) <> []
        /\ let page :=
             (fold_left item_step (doc_items (meta chunk)) (1%Z, [])).1 in
           (make_id (strip (chunk_text chunk)) page = Raise e
            \/ (exists i, make_id (strip (chunk_text chunk)) page = Ok i)
               /\ enc (strip (chunk_text chunk)) = Raise e))
  /\ (forall chunk, strip (chunk_text chunk) = [] ->
        build_chunk enc chunk = Ok None)
  /\ structure_aware_chunking failing_encode
       [Fixtures.sample_chunk; Fixtures.blank_chunk] = Raise EmbeddingError
  /\ structure_aware_chunking failing_encode [Fixtures.blank_chunk] = Ok []
  /\ structure_aware_chunking_pdf Fixtures.unit_encode (fun _ => Ok tt)
       (fun _ => ([Fixtures.sample_chunk], Some ParserError)) []
     = Raise ParserError
  /\ structure_aware_chunking_pdf failing_encode (fun _ => Ok tt)
       (fun _ => ([Fixtures.sample_chunk], Some ParserError)) []
     = Raise EmbeddingError.
Proof.
  split; [|split; [|split; [|split; [|split; [|split; [|split; [|split; [|split]]]]]]]].
  - intros e. unfold structure_aware_chunking_pdf.
    destruct (convert pdf_path) as [d|e0]; simpl.
    + destruct (chunker d) as [chunks failure] eqn:Hch.
      destruct (structure_aware_chunking enc chunks) as [out|e1] eqn:Hrun;
        simpl.
      * destruct failure as [e2|]; split.
        -- intros [= ->]. right. exists d, chunks, (Some e).
           split; [done|]. split; [done|]. right. split; [by eexists|done].
        -- intros [[=]|(d' & chunks' & failure' & [= <-] & Hch' & Hor)].
           rewrite Hch in Hch'. injection Hch' as <- <-.
           destruct Hor as [Hr|(_ & [= ->])]; [congruence | done].
        -- done.
        -- intros [[=]|(d' & chunks' & failure' & [= <-] & Hch' & Hor)].
           rewrite Hch in Hch'. injection Hch' as <- <-.
           destruct Hor as [Hr|(_ & [=])]. congruence.
      * split.
        -- intros [= ->]. right. exists d, chunks, failure.
           split; [done|]. split; [done|]. by left.
        -- intros [[=]|(d' & chunks' & failure' & [= <-] & Hch' & Hor)].
           rewrite Hch in Hch'. injection Hch' as <- <-.
           destruct Hor as [Hr|((out & Hout) & _)]; congruence.
    + split; [intros [= ->]; by left|].
      intros [[= ->]|(d & chunks & failure & [=] & _)]. done.
  - intros out. unfold structure_aware_chunking_pdf.
    destruct (convert pdf_path) as [d|e0]; simpl.
    + destruct (chunker d) as [chunks failure] eqn:Hch.
      destruct (structure_aware_chunking enc chunks) as [out'|e1] eqn:Hrun;
        simpl.
      * destruct failure as [e2|]; split.
        -- done.
        -- intros (d' & chunks' & [= <-] & Hch' & _).
           rewrite Hch in Hch'. discriminate Hch'.
        -- intros [= ->]. by exists d, chunks.
        -- intros (d' & chunks' & [= <-] & Hch' & Hout).
           rewrite Hch in Hch'. injection Hch' as <-. congruence.
      * split; [done|].
        intros (d' & chunks' & [= <-] & Hch' & Hout).
        rewrite Hch in Hch'. injection Hch' as <-. congruence.
    + split; [done|]. by intros (d & chunks & [=] & _).
  - intros chunks chunk e Hin Hfail. by eapply chunk_loop_fails.
  - intros chunks e. apply chunk_loop_Raise.
  - intros chunk e. apply build_chunk_Raise.
  - intros chunk. apply build_chunk_None.
  - vm_compute. reflexivity.
  - vm_compute. reflexivity.
  - vm_compute. reflexivity.
  - vm_compute. reflexivity.
Qed.

(** ** The store: what an upsert keeps *)

Import GraphWords.

Section UpsertFacts.
Context {vec : Type}.
Implicit Types (g : Graph vec) (c : ChunkData vec) (p : PageMeta)
  (d : DocumentMeta).

Lemma merge_rel_elem {A} `{EqDecision A} (e x : A) (es : list A) :
  x ∈ merge_rel e es <-> x ∈ es \/ x = e.
Proof.
  unfold merge_rel. case_bool_decide as He.
  - split; [by left|]. by intros [?| ->].
  - rewrite elem_of_app, list_elem_of_singleton. done.
Qed.

Lemma merge_rel_NoDup {A} `{EqDecision A} (e : A) (es : list A) :
  NoDup es -> NoDup (merge_rel e es).
Proof.
  intros Hnd. unfold merge_rel. case_bool_decide as He; [done|].
  apply NoDup_app. split; [done|]. split.
  - intros x Hx ->%list_elem_of_singleton. done.
  - apply NoDup_singleton.
Qed.

Lemma empty_graph_ok : graph_ok (@empty_graph vec).
Proof.
  unfold graph_ok, empty_graph. simpl.
  repeat split; try (intros; by simplify_map_eq); try apply NoDup_nil_2;
    by match goal with H : _ ∈ [] |- _ => apply elem_of_nil in H end.
Qed.

Lemma upsert_doc_ok g d : graph_ok g -> graph_ok (upsert_doc g d).
Proof.
  intros (Hd & Hp & Hc & Hof & Hin & Hn1 & Hn2).
  unfold graph_ok, upsert_doc. simpl.
  split; [|split; [done|split; [done|split; [|done]]]].
  - intros i dn. rewrite lookup_insert. case_decide; [|by apply Hd].
    by intros [= <-].
  - intros pk did Hedge. destruct (Hof _ _ Hedge) as (? & ? & ?).
    split; [done|]. split; [done|].
    rewrite lookup_insert. by case_decide.
Qed.

Lemma upsert_page_ok g p : graph_ok g -> graph_ok (upsert_page g p).
Proof.
  intros (Hd & Hp & Hc & Hof & Hin & Hn1 & Hn2).
  unfold graph_ok, upsert_page. simpl.
  assert (Hkeep : forall k, is_Some (pages g !! k) ->
            is_Some (<[(pm_docId p, pm_page_num p) :=
                         mkPageNode (pm_docId p) (pm_page_num p)
                           (pm_width p) (pm_height p)]> (pages g) !! k)).
  { intros k Hk. rewrite lookup_insert. by case_decide. }
  split; [done|]. split; [|split; [done|split; [|split; [|split; [|done]]]]].
  - intros k pn. rewrite lookup_insert. case_decide; [|by apply Hp].
    by intros [= <-].
  - intros pk did Hedge.
    assert (Hcases : (pk, did) ∈ of_rel g
              \/ (is_Some (documents g !! pm_docId p)
                  /\ (pk, did) = ((pm_docId p, pm_page_num p), pm_docId p))).
    { destruct (documents g !! pm_docId p) eqn:Hdoc; [|by left].
      apply merge_rel_elem in Hedge as [?|?]; [by left|].
      right. split; [by eexists | done]. }
    destruct Hcases as [Hold|[Hdoc [= -> ->]]].
    + destruct (Hof _ _ Hold) as (? & ? & ?). split; [done|].
      split; [by apply Hkeep | done].
    + split; [done|]. split; [|done]. by rewrite lookup_insert_eq.
  - intros cid pk Hedge. destruct (Hin _ _ Hedge) as [? ?].
    split; [done | by apply Hkeep].
  - destruct (documents g !! pm_docId p); [by apply merge_rel_NoDup | done].
Qed.

Lemma upsert_chunk_ok (doc_id : str) g c :
  graph_ok g -> graph_ok (upsert_chunk doc_id g c).
Proof.
  intros (Hd & Hp & Hc & Hof & Hin & Hn1 & Hn2).
  unfold graph_ok, upsert_chunk. simpl.
  split; [done|]. split; [done|].
  split; [|split; [done|split; [|split; [done|]]]].
  - intros i cn. rewrite lookup_insert. case_decide; [|by apply Hc].
    by intros [= <-].
  - intros cid pk Hedge.
    assert (Hcases : (cid, pk) ∈ in_page g
              \/ (is_Some (pages g !! (doc_id, page_num c))
                  /\ (cid, pk) = (id c, (doc_id, page_num c)))).
    { destruct (pages g !! (doc_id, page_num c)) eqn:Hpage; [|by left].
      apply merge_rel_elem in Hedge as [?|?]; [by left|].
      right. split; [by eexists | done]. }
    destruct Hcases as [Hold|[Hpage [= -> ->]]].
    + destruct (Hin _ _ Hold) as [? ?]. split; [|done].
      rewrite lookup_insert. by case_decide.
    + split; [|done]. by rewrite lookup_insert_eq.
  - destruct (pages g !! (doc_id, page_num c)); [by apply merge_rel_NoDup | done].
Qed.

Lemma fold_left_preserves {A B} (P : A -> Prop) (f : A -> B -> A)
    (l : list B) (a : A) :
  (forall a b, P a -> P (f a b)) -> P a -> P (fold_left f l a).
Proof.
  intros Hf. revert a. induction l as [|b l IH]; intros a Ha; simpl; [done|].
  apply IH. by apply Hf.
Qed.

Lemma upsert_document_ok g d (ps : list PageMeta) (cs : list (ChunkData vec)) :
  graph_ok g -> graph_ok (upsert_document g d ps cs).
Proof.
  intros Hg. unfold upsert_document.
  apply fold_left_preserves; [intros; by apply upsert_chunk_ok|].
  apply fold_left_preserves; [intros; by apply upsert_page_ok|].
  by apply upsert_doc_ok.
Qed.

End UpsertFacts.

(** X5.  [upsert_document] keeps the graph well formed: nodes stay
    under the keys of their uniqueness constraints, every relationship
    joins nodes that exist, no relationship is created twice, and a page
    is [OF] the one document its [docId] names.  So does every sequence
    of uploads into the empty store; in the graph it reaches, a page
    never belongs to two documents. *)
Theorem upsert_keeps_graph_well_formed {vec : Type}
    (g : Graph vec) (doc : DocumentMeta) (pages : list PageMeta)
    (chunks : list (ChunkData vec)) :
  graph_ok g ->
  graph_ok (upsert_document g doc pages chunks)
  /\ (forall uploads : list (Upload vec), graph_ok (ingest uploads))
  /\ (forall pk d1 d2,
        (pk, d1) ∈ of_rel (upsert_document g doc pages chunks) ->
        (pk, d2) ∈ of_rel (upsert_document g doc pages chunks) ->
        d1 = d2).
Proof.
  intros Hg.
  pose proof (upsert_document_ok g doc pages chunks Hg) as Hok.
  split; [done|]. split.
  - intros uploads. unfold ingest.
    apply fold_left_preserves; [|apply empty_graph_ok].
    intros a u Ha. by apply upsert_document_ok.
  - intros pk d1 d2 H1 H2.
    destruct Hok as (_ & _ & _ & Hof & _).
    destruct (Hof _ _ H1) as [<- _]. by destruct (Hof _ _ H2) as [<- _].
Qed.

(** The theorem at the second upload of the example. *)
Lemma upsert_well_formed_witness :
  graph_ok (upsert_document (@empty_graph unit) StoreExample.docA
              [StoreExample.pageA] StoreExample.shared_chunks)
  /\ graph_ok StoreExample.uploaded_twice.
Proof.
  assert (H1 : graph_ok (upsert_document (@empty_graph unit) StoreExample.docA
                          [StoreExample.pageA] StoreExample.shared_chunks))
    by exact (proj1 (upsert_keeps_graph_well_formed _ _ _ _ empty_graph_ok)).
  split; [exact H1|].
  exact (proj1 (upsert_keeps_graph_well_formed _ StoreExample.docB
                  [StoreExample.pageB] StoreExample.shared_chunks H1)).
Defined.

(** ** The store: an upsert, part by part *)

Section UpsertParts.
Context {vec : Type}.
Implicit Types (g : Graph vec) (c : ChunkData vec) (p : PageMeta)
  (d : DocumentMeta).

Lemma upsert_pages_fold (ps : list PageMeta) g :
  fold_left upsert_page ps g
  = mkGraph (documents g) (fold_left ins_page ps (pages g)) (chunk_nodes g)
            (fold_left (add_of (documents g)) ps (of_rel g)) (in_page g).
Proof.
  revert g. induction ps as [|p ps IH]; intros g; simpl; [by destruct g|].
  by rewrite IH.
Qed.

Lemma upsert_chunks_fold (doc_id : str) (cs : list (ChunkData vec)) g :
  fold_left (upsert_chunk doc_id) cs g
  = mkGraph (documents g) (pages g) (fold_left ins_chunk cs (chunk_nodes g))
            (of_rel g) (fold_left (add_in doc_id (pages g)) cs (in_page g)).
Proof.
  revert g. induction cs as [|c cs IH]; intros g; simpl; [by destruct g|].
  by rewrite IH.
Qed.

(** The graph after an upsert, part by part. *)
Lemma upsert_document_parts g d (ps : list PageMeta) (cs : list (ChunkData vec)) :
  upsert_document g d ps cs
  = let docs := <[dm_id d := doc_node d]> (documents g) in
    let pgs := fold_left ins_page ps (pages g) in
    mkGraph docs pgs
            (fold_left ins_chunk cs (chunk_nodes g))
            (fold_left (add_of docs) ps (of_rel g))
            (fold_left (add_in (dm_id d) pgs) cs (in_page g)).
Proof.
  unfold upsert_document. by rewrite upsert_chunks_fold, upsert_pages_fold.
Qed.

Lemma fold_ins_page_lookup (ps : list PageMeta)
    (m : gmap (str * Z) PageNode) (k : str * Z) :
  fold_left ins_page ps m !! k
  = match last (filter (fun p => page_key p = k) ps) with
    | Some p => Some (page_node p)
    | None => m !! k
    end.
Proof.
  revert m. induction ps as [|p ps IH]; intros m; simpl; [done|].
  rewrite IH, filter_cons. unfold ins_page.
  destruct (decide (page_key p = k)) as [<-|Hne].
  - rewrite last_cons. destruct (last _); [done|]. by rewrite lookup_insert_eq.
  - destruct (last _); [done|]. by rewrite lookup_insert_ne.
Qed.

Lemma fold_ins_chunk_lookup (cs : list (ChunkData vec))
    (m : gmap str (ChunkNode vec)) (i : str) :
  fold_left ins_chunk cs m !! i
  = match last (filter (fun c => id c = i) cs) with
    | Some c => Some (chunk_node c (family_in m i))
    | None => m !! i
    end.
Proof.
  revert m. induction cs as [|c cs IH]; intros m; simpl; [done|].
  rewrite IH, filter_cons. unfold ins_chunk.
  destruct (decide (id c = i)) as [<-|Hne].
  - rewrite last_cons.
    assert (Hfam : family_in (<[id c := chunk_node c (family_in m (id c))]> m)
                     (id c) = family_in m (id c)).
    { unfold family_in at 1. by rewrite lookup_insert_eq. }
    rewrite Hfam. destruct (last _); [done|]. by rewrite lookup_insert_eq.
  - assert (Hfam : family_in (<[id c := chunk_node c (family_in m (id c))]> m) i
                   = family_in m i).
    { unfold family_in at 1 3. by rewrite lookup_insert_ne. }
    rewrite Hfam. destruct (last _); [done|]. by rewrite lookup_insert_ne.
Qed.

Lemma fold_add_of_elem (docs : gmap str DocumentNode) (ps : list PageMeta)
    (es : list ((str * Z) * str)) (e : (str * Z) * str) :
  e ∈ fold_left (add_of docs) ps es <->
  e ∈ es \/ exists p, p ∈ ps /\ is_Some (docs !! pm_docId p)
                      /\ e = (page_key p, pm_docId p).
Proof.
  revert es. induction ps as [|p ps IH]; intros es; simpl.
  - split; [by left|]. intros [?|(p & []%elem_of_nil & _)]. done.
  - rewrite IH. unfold add_of. split.
    + intros [Hin|(q & Hq & Hdoc & ->)].
      * destruct (docs !! pm_docId p) eqn:Hd; [|by left].
        apply merge_rel_elem in Hin as [?| ->]; [by left|].
        right. exists p. split; [left|]. split; [by eexists | done].
      * right. exists q. split; [by right | done].
    + intros [Hin|(q & Hq & Hdoc & ->)].
      * left. destruct (docs !! pm_docId p); [|done].
        apply merge_rel_elem. by left.
      * apply elem_of_cons in Hq as [->|Hq].
        -- left. destruct Hdoc as [x ->]. apply merge_rel_elem. by right.
        -- right. by exists q.
Qed.

Lemma fold_add_in_elem (doc_id : str) (pgs : gmap (str * Z) PageNode)
    (cs : list (ChunkData vec)) (es : list (str * (str * Z)))
    (e : str * (str * Z)) :
  e ∈ fold_left (add_in doc_id pgs) cs es <->
  e ∈ es \/ exists c, c ∈ cs /\ is_Some (pgs !! (doc_id, page_num c))
                      /\ e = (id c, (doc_id, page_num c)).
Proof.
  revert es. induction cs as [|c cs IH]; intros es; simpl.
  - split; [by left|]. intros [?|(c & []%elem_of_nil & _)]. done.
  - rewrite IH. unfold add_in. split.
    + intros [Hin|(q & Hq & Hpage & ->)].
      * destruct (pgs !! (doc_id, page_num c)) eqn:Hp; [|by left].
        apply merge_rel_elem in Hin as [?| ->]; [by left|].
        right. exists c. split; [left|]. split; [by eexists | done].
      * right. exists q. split; [by right | done].
    + intros [Hin|(q & Hq & Hpage & ->)].
      * left. destruct (pgs !! (doc_id, page_num c)); [|done].
        apply merge_rel_elem. by left.
      * apply elem_of_cons in Hq as [->|Hq].
        -- left. destruct Hpage as [x ->]. apply merge_rel_elem. by right.
        -- right. by exists q.
Qed.

Lemma merge_rel_present {A} `{EqDecision A} (e : A) (es : list A) :
  e ∈ es -> merge_rel e es = es.
Proof. intros He. unfold merge_rel. by rewrite bool_decide_eq_true_2. Qed.

Lemma fold_add_of_noop (docs : gmap str DocumentNode) (ps : list PageMeta)
    (es : list ((str * Z) * str)) :
  (forall p, p ∈ ps -> is_Some (docs !! pm_docId p) ->
             (page_key p, pm_docId p) ∈ es) ->
  fold_left (add_of docs) ps es = es.
Proof.
  induction ps as [|p ps IH]; intros Hall; simpl; [done|].
  assert (Hstep : add_of docs es p = es).
  { unfold add_of. destruct (docs !! pm_docId p) eqn:Hd; [|done].
    apply merge_rel_present, Hall; [left | by eexists]. }
  rewrite Hstep. apply IH. intros q Hq. apply Hall. by right.
Qed.

Lemma fold_add_in_noop (doc_id : str) (pgs : gmap (str * Z) PageNode)
    (cs : list (ChunkData vec)) (es : list (str * (str * Z))) :
  (forall c, c ∈ cs -> is_Some (pgs !! (doc_id, page_num c)) ->
             (id c, (doc_id, page_num c)) ∈ es) ->
  fold_left (add_in doc_id pgs) cs es = es.
Proof.
  induction cs as [|c cs IH]; intros Hall; simpl; [done|].
  assert (Hstep : add_in doc_id pgs es c = es).
  { unfold add_in. destruct (pgs !! (doc_id, page_num c)) eqn:Hp; [|done].
    apply merge_rel_present, Hall; [left | by eexists]. }
  rewrite Hstep. apply IH. intros q Hq. apply Hall. by right.
Qed.

Lemma fold_ins_page_idem (ps : list PageMeta) (m : gmap (str * Z) PageNode) :
  fold_left ins_page ps (fold_left ins_page ps m) = fold_left ins_page ps m.
Proof.
  apply map_eq. intros k. rewrite !fold_ins_page_lookup.
  by destruct (last _).
Qed.

Lemma fold_ins_chunk_idem (cs : list (ChunkData vec))
    (m : gmap str (ChunkNode vec)) :
  fold_left ins_chunk cs (fold_left ins_chunk cs m) = fold_left ins_chunk cs m.
Proof.
  apply map_eq. intros i. rewrite !fold_ins_chunk_lookup.
  destruct (last _) as [c|] eqn:Hlast; [|done].
  f_equal. f_equal. unfold family_in at 1.
  by rewrite fold_ins_chunk_lookup, Hlast.
Qed.

End UpsertParts.

(** X6.  [upsert_document] is idempotent: storing the same document,
    pages and chunks a second time leaves the graph exactly as the first
    time left it; no node and no relationship is added. *)
Theorem upsert_document_idempotent {vec : Type}
    (g : Graph vec) (doc : DocumentMeta) (pages : list PageMeta)
    (chunks : list (ChunkData vec)) :
  upsert_document (upsert_document g doc pages chunks) doc pages chunks
  = upsert_document g doc pages chunks.
Proof.
  rewrite (upsert_document_parts (upsert_document g doc pages chunks)).
  rewrite (upsert_document_parts g). cbn zeta. simpl.
  rewrite insert_insert_eq, fold_ins_page_idem, fold_ins_chunk_idem.
  f_equal.
  - apply fold_add_of_noop. intros p Hp Hdoc.
    apply fold_add_of_elem. right. by exists p.
  - apply fold_add_in_noop. intros c Hc Hpage.
    apply fold_add_in_elem. right. by exists c.
Qed.

(** ** The store: finding what was stored *)

Section LookupFacts.
Context {vec : Type}.
Implicit Types (g : Graph vec) (c : ChunkData vec).

Lemma last_filter_unique {A} (P : A -> Prop) `{forall x, Decision (P x)}
    (l : list A) (x : A) :
  x ∈ l -> P x -> (forall y, y ∈ l -> P y -> y = x) ->
  last (filter P l) = Some x.
Proof.
  intros Hx HP Huniq.
  destruct (last (filter P l)) as [y|] eqn:Hlast.
  - f_equal. apply last_Some in Hlast as (l' & Hl').
    assert (Hy : y ∈ filter P l) by (rewrite Hl'; apply elem_of_app; right; left).
    apply list_elem_of_filter in Hy as [? ?]. by apply Huniq.
  - apply last_None in Hlast.
    assert (Hin : x ∈ filter P l) by (by apply list_elem_of_filter).
    rewrite Hlast in Hin. by apply elem_of_nil in Hin.
Qed.

Lemma last_filter_Some_elem {A} (P : A -> Prop) `{forall x, Decision (P x)}
    (l : list A) (x : A) :
  x ∈ l -> P x -> is_Some (last (filter P l)).
Proof.
  intros Hx HP. destruct (last (filter P l)) eqn:Hlast; [by eexists|].
  apply last_None in Hlast.
  assert (Hin : x ∈ filter P l) by (by apply list_elem_of_filter).
  rewrite Hlast in Hin. by apply elem_of_nil in Hin.
Qed.

Lemma paths_same_id g (c1 c2 : ChunkNode vec) :
  cn_id c1 = cn_id c2 -> paths g c1 = paths g c2.
Proof. unfold paths. by intros ->. Qed.

Lemma get_chunk_by_id_None g (i : str) (n : ChunkNode vec) :
  chunk_nodes g !! i = Some n ->
  (forall p d, ~ owns g n p d) -> get_chunk_by_id g i = None.
Proof.
  intros Hn Hnone. unfold get_chunk_by_id. rewrite Hn.
  destruct (paths g n) as [|[p d] rest] eqn:Hp; [done|].
  exfalso. apply (Hnone p d), paths_owns. rewrite Hp. left.
Qed.

End LookupFacts.

(** X7.  A stored chunk is found again.  Let the graph be well formed
    and have no [IN_PAGE] relationship for the id of the chunk [c] yet;
    let [c] be the only chunk of the upload with its id, and let the
    pages of the upload contain page [c.page_num] of the document.
    After [upsert_document], [get_chunk_by_id] returns the record with
    the fields of [c], the id and title of the document, and the page
    number of [c]. *)
Theorem upserted_chunk_is_found {vec : Type}
    (g : Graph vec) (doc : DocumentMeta) (pages : list PageMeta)
    (chunks : list (ChunkData vec)) (c : ChunkData vec) (pm : PageMeta) :
  graph_ok g ->
  c ∈ chunks -> (forall c', c' ∈ chunks -> id c' = id c -> c' = c) ->
  (forall pk, (id c, pk) ∉ in_page g) ->
  pm ∈ pages -> page_key pm = (dm_id doc, page_num c) ->
  get_chunk_by_id (upsert_document g doc pages chunks) (id c)
  = Some (record_of doc c).
Proof.
  intros Hg Hc Huniq Hfresh Hpm Hkey.
  pose proof (upsert_document_ok g doc pages chunks Hg) as Hok.
  destruct Hok as (_ & Hpk & _ & Hof & _).
  revert Hpk Hof. rewrite upsert_document_parts. cbn zeta.
  set (docs := <[dm_id doc := doc_node doc]> (documents g)).
  set (pgs := fold_left ins_page pages (Neo4j.pages g)).
  set (g' := mkGraph docs pgs _ _ _). intros Hpk Hof.
  assert (Hnode : chunk_nodes g' !! id c
            = Some (chunk_node c (family_in (chunk_nodes g) (id c)))).
  { simpl. rewrite fold_ins_chunk_lookup.
    by rewrite (last_filter_unique _ chunks c). }
  set (n := chunk_node c (family_in (chunk_nodes g) (id c))) in *.
  assert (Hpage : is_Some (pgs !! (dm_id doc, page_num c))).
  { subst pgs. rewrite fold_ins_page_lookup.
    destruct (last_filter_Some_elem (fun p => page_key p = (dm_id doc, page_num c))
                pages pm Hpm Hkey) as [q ->]. by eexists. }
  assert (Hall : forall p d, owns g' n p d ->
            pn_page_num p = page_num c /\ d = doc_node doc).
  { intros p d (pk & did & Hin & Hedge & Hp & Hd). simpl in Hin, Hedge, Hp, Hd.
    apply fold_add_in_elem in Hin as [Hin|(c' & Hc' & _ & [= Hid ->])];
      [by destruct (Hfresh pk)|].
    rewrite (Huniq c' Hc' (eq_sym Hid)) in *.
    destruct (Hof _ _ Hedge) as [Hdid _]. simpl in Hdid. subst did.
    split.
    - pose proof (Hpk _ _ Hp) as Hk. by injection Hk.
    - subst docs. rewrite lookup_insert_eq in Hd. by injection Hd. }
  assert (Hex : exists p, owns g' n p (doc_node doc)).
  { destruct Hpage as [p Hp]. exists p.
    exists (dm_id doc, page_num c), (dm_id doc). simpl.
    split; [|split; [|split; [done|]]].
    - apply fold_add_in_elem. right. exists c. split; [done|]. split; [|done].
      by eexists.
    - apply fold_add_of_elem. right. exists pm.
      assert (Hdoc : pm_docId pm = dm_id doc) by (by injection Hkey).
      split; [done|]. rewrite Hdoc. split; [|by rewrite Hkey].
      subst docs. rewrite lookup_insert_eq. by eexists.
    - subst docs. by rewrite lookup_insert_eq. }
  unfold get_chunk_by_id. rewrite Hnode.
  destruct (paths g' n) as [|[p d] rest] eqn:Hpaths.
  - destruct Hex as (p & Hp%paths_owns). rewrite Hpaths in Hp.
    by apply elem_of_nil in Hp.
  - destruct (Hall p d) as [Hp ->].
    { apply paths_owns. rewrite Hpaths. left. }
    unfold record_of. simpl. by rewrite Hp.
Qed.

(** The theorem at the first upload of the example. *)
Lemma upserted_chunk_witness :
  get_chunk_by_id
    (upsert_document (@empty_graph unit) StoreExample.docA
       [StoreExample.pageA] StoreExample.shared_chunks)
    (lit "8c6c166bc9b8f71592b2ea3f5d5509f097133d96")
  = Some (record_of StoreExample.docA
            (mkChunkData unit
               (lit "8c6c166bc9b8f71592b2ea3f5d5509f097133d96")
               (lit "shared text") 1%Z [0%Q; 0%Q; 0%Q; 0%Q] [] tt)).
Proof.
  refine (upserted_chunk_is_found empty_graph StoreExample.docA
            [StoreExample.pageA] StoreExample.shared_chunks
            (mkChunkData unit
               (lit "8c6c166bc9b8f71592b2ea3f5d5509f097133d96")
               (lit "shared text") 1%Z [0%Q; 0%Q; 0%Q; 0%Q] [] tt)
            StoreExample.pageA empty_graph_ok _ _ _ _ _).
  - left.
  - intros c' Hc' _. by apply list_elem_of_singleton in Hc'.
  - intros pk Hin. by apply elem_of_nil in Hin.
  - left.
  - reflexivity.
Defined.

(** X8.  A chunk whose page is not in the store is stored but cannot be
    reached.  When the graph has no [IN_PAGE] relationship for the id of
    [c], and neither the graph nor the pages of the upload have page
    [c'.page_num] of the document for the chunks [c'] with that id, then
    after [upsert_document] the chunk node exists, [get_chunk_by_id]
    returns [None] for it, and no result of [vector_search] carries its
    id, whatever the index yields. *)
Theorem chunk_without_page_is_unreachable {vec : Type}
    (g : Graph vec) (doc : DocumentMeta) (pages : list PageMeta)
    (chunks : list (ChunkData vec)) (c : ChunkData vec) :
  c ∈ chunks ->
  (forall pk, (id c, pk) ∉ in_page g) ->
  (forall c', c' ∈ chunks -> id c' = id c ->
     Neo4j.pages g !! (dm_id doc, page_num c') = None
     /\ forall pm, pm ∈ pages -> page_key pm <> (dm_id doc, page_num c')) ->
  is_Some (chunk_nodes (upsert_document g doc pages chunks) !! id c)
  /\ get_chunk_by_id (upsert_document g doc pages chunks) (id c) = None
  /\ forall queryNodes e k doc_type limit r,
       r ∈ vector_search queryNodes (upsert_document g doc pages chunks)
             e k doc_type limit ->
       c_id (chunk r) <> id c.
Proof.
  intros Hc Hfresh Hnopage.
  rewrite upsert_document_parts. cbn zeta.
  set (docs := <[dm_id doc := doc_node doc]> (documents g)).
  set (pgs := fold_left ins_page pages (Neo4j.pages g)).
  set (g' := mkGraph docs pgs _ _ _).
  assert (Hnoedge : forall pk, (id c, pk) ∉ in_page g').
  { intros pk Hin. simpl in Hin.
    apply fold_add_in_elem in Hin as [Hin|(c' & Hc' & Hpage & [= Hid ->])];
      [by destruct (Hfresh pk)|].
    destruct (Hnopage c' Hc' (eq_sym Hid)) as [Hnone Hpms].
    subst pgs. rewrite fold_ins_page_lookup in Hpage.
    destruct (last (filter _ pages)) as [q|] eqn:Hlast.
    - apply last_Some in Hlast as (l' & Hl').
      assert (Hq : q ∈ filter (fun p => page_key p = (dm_id doc, page_num c')) pages)
        by (rewrite Hl'; apply elem_of_app; right; left).
      apply list_elem_of_filter in Hq as [Hk Hq]. by destruct (Hpms q Hq).
    - rewrite Hnone in Hpage. by destruct Hpage. }
  assert (Hnopath : forall (n : ChunkNode vec) p d,
            cn_id n = id c -> ~ owns g' n p d).
  { intros n p d Hid (pk & did & Hin & _). rewrite Hid in Hin.
    by destruct (Hnoedge pk). }
  assert (Hnode : is_Some (chunk_nodes g' !! id c)).
  { simpl. rewrite fold_ins_chunk_lookup.
    destruct (last_filter_Some_elem (fun c' => id c' = id c) chunks c Hc eq_refl)
      as [q ->]. by eexists. }
  split; [done|]. split.
  - destruct Hnode as [n Hn].
    apply (get_chunk_by_id_None g' (id c) n Hn).
    intros p d. apply Hnopath.
    simpl in Hn. rewrite fold_ins_chunk_lookup in Hn.
    destruct (last (filter _ chunks)) as [q|] eqn:Hlast.
    + injection Hn as <-. simpl.
      apply last_Some in Hlast as (l' & Hl').
      assert (Hq : q ∈ filter (fun c' => id c' = id c) chunks)
        by (rewrite Hl'; apply elem_of_app; right; left).
      by apply list_elem_of_filter in Hq as [? _].
    + exfalso. apply last_None in Hlast.
      assert (Hin : c ∈ filter (fun c' => id c' = id c) chunks)
        by (by apply list_elem_of_filter).
      rewrite Hlast in Hin. by apply elem_of_nil in Hin.
  - intros queryNodes e k doc_type limit r Hr Hid.
    apply vector_search_from_candidates in Hr
      as (cands & n & s0 & p & d & _ & _ & Hown & ->).
    destruct n; simpl in Hid. by eapply (Hnopath _ p d); [|exact Hown].
Qed.

(** The theorem at an upload that brings a chunk and no page. *)
Lemma chunk_without_page_witness :
  is_Some (chunk_nodes
             (upsert_document (@empty_graph unit) StoreExample.docA []
                StoreExample.shared_chunks)
           !! lit "8c6c166bc9b8f71592b2ea3f5d5509f097133d96")
  /\ get_chunk_by_id
       (upsert_document (@empty_graph unit) StoreExample.docA []
          StoreExample.shared_chunks)
       (lit "8c6c166bc9b8f71592b2ea3f5d5509f097133d96") = None
  /\ forall queryNodes e k doc_type limit r,
       r ∈ vector_search queryNodes
             (upsert_document (@empty_graph unit) StoreExample.docA []
                StoreExample.shared_chunks)
             e k doc_type limit ->
       c_id (chunk r) <> lit "8c6c166bc9b8f71592b2ea3f5d5509f097133d96".
Proof.
  refine (chunk_without_page_is_unreachable empty_graph StoreExample.docA []
            StoreExample.shared_chunks
            (mkChunkData unit
               (lit "8c6c166bc9b8f71592b2ea3f5d5509f097133d96")
               (lit "shared text") 1%Z [0%Q; 0%Q; 0%Q; 0%Q] [] tt)
            _ _ _).
  - left.
  - intros pk Hin. by apply elem_of_nil in Hin.
  - intros c' _ _. split; [apply lookup_empty|].
    intros pm Hpm. by apply elem_of_nil in Hpm.
Defined.

(** ** The store: families after ingestion *)

Section FamilyFacts.
Context {vec : Type}.
Implicit Types (g : Graph vec).

Lemma empty_graph_untagged : untagged (@empty_graph vec).
Proof. split; intros i x Hx; simpl in Hx; by rewrite lookup_empty in Hx. Qed.

Lemma upsert_document_untagged g (doc : DocumentMeta) (ps : list PageMeta)
    (cs : list (ChunkData vec)) :
  dm_family doc = lit "general" ->
  untagged g -> untagged (upsert_document g doc ps cs).
Proof.
  intros Hfam [Hdocs Hchunks]. rewrite upsert_document_parts. cbn zeta.
  split; simpl.
  - intros i d. destruct (decide (i = dm_id doc)) as [->|Hne].
    + rewrite lookup_insert_eq. by intros [= <-].
    + rewrite lookup_insert_ne by done. apply Hdocs.
  - intros i c. rewrite fold_ins_chunk_lookup.
    destruct (last (filter _ cs)) as [q|]; [|apply Hchunks].
    intros [= <-]. simpl. unfold family_in.
    destruct (chunk_nodes g !! i) as [old|] eqn:Hold; [|done].
    by apply (Hchunks i).
Qed.

Lemma ingest_untagged (uploads : list (Upload vec)) :
  (forall u, u ∈ uploads -> dm_family (up_doc u) = lit "general") ->
  untagged (ingest uploads).
Proof.
  unfold ingest. generalize (empty_graph_untagged).
  generalize (@empty_graph vec) as g.
  induction uploads as [|u uploads IH]; intros g Hg Hall; simpl; [done|].
  apply IH.
  - apply upsert_document_untagged; [|done]. apply Hall. left.
  - intros u' Hu'. apply Hall. by right.
Qed.

Lemma untagged_no_family g (docType : str) (c : ChunkNode vec) :
  untagged g -> docType <> lit "general" ->
  (exists i, chunk_nodes g !! i = Some c) ->
  ~ family_matches g docType c.
Proof.
  intros [Hdocs Hchunks] Hne [i Hc] [Hfam|(p & d & Hown & Hfam)].
  - by rewrite (Hchunks i c Hc) in Hfam.
  - destruct Hown as (pk & did & _ & _ & _ & Hd).
    apply Hne. rewrite <- Hfam. by apply (Hdocs did).
Qed.

End FamilyFacts.

(** X9.  The upload operation gives every document the family "general"
    and [upsert_document] never sets a family on a chunk.  In a store
    filled by such uploads alone, a search with a document type that
    restricts the query (one that is set and is not "general") returns
    no result, when the index yields only chunk nodes of the graph. *)
Theorem restricting_filter_finds_nothing_after_uploads {vec : Type}
    (queryNodes : Graph vec -> Z -> vec -> result (list (ChunkNode vec * Q)))
    (uploads : list (Upload vec)) (e : vec) (k : Z)
    (doc_type : option str) (limit : Z) :
  index_contract queryNodes ->
  (forall u, u ∈ uploads -> dm_family (up_doc u) = lit "general") ->
  filter_active doc_type = true ->
  vector_search queryNodes (ingest uploads) e k doc_type limit = [].
Proof.
  intros Hcontract Hall Hact.
  pose proof (ingest_untagged uploads Hall) as Hunt.
  destruct (proj1 (filter_active_spec doc_type) Hact)
    as (docType & -> & _ & Hne).
  destruct (vector_search_cases queryNodes (ingest uploads) e k
              (Some docType) limit) as [Hnil|(cands & Hc & _ & ->)]; [done|].
  assert (Hcands : cands = []).
  { destruct (queryNodes (ingest uploads) k e) as [yielded|err] eqn:Hq.
    - destruct (candidates_active queryNodes _ e k docType yielded Hq Hact)
        as (cands' & Hc' & _ & Hiff).
      rewrite Hc in Hc'. injection Hc' as <-.
      destruct cands as [|[c s'] rest]; [done|]. exfalso.
      destruct (proj1 (Hiff (c, s'))) as [Hin Hfam]; [left|].
      apply (untagged_no_family (ingest uploads) docType c Hunt Hne); [|done].
      by apply (proj2 (Hcontract _ _ _ _ Hq) c s').
    - unfold candidates in Hc. by rewrite Hq in Hc. }
  subst cands. unfold join_paths. simpl.
  change (merge_sort score_desc []) with (@nil (row vec)).
  by rewrite take_nil.
Qed.

(** The theorem for the same file uploaded twice and the type "legal". *)
Lemma restricting_filter_witness :
  vector_search StoreExample.first_k
    (ingest [@mkUpload unit StoreExample.docA [StoreExample.pageA]
               StoreExample.shared_chunks;
             @mkUpload unit StoreExample.docB [StoreExample.pageB]
               StoreExample.shared_chunks])
    tt 10 (Some (lit "legal")) 5 = [].
Proof.
  apply restricting_filter_finds_nothing_after_uploads.
  - exact first_k_contract.
  - intros u Hu. repeat (apply elem_of_cons in Hu as [->|Hu]; [reflexivity|]).
    by apply elem_of_nil in Hu.
  - reflexivity.
Defined.

(** ** The answer generator *)

Ltac literal_free :=
  let H := fresh in
  intros H;
  repeat (apply elem_of_cons in H as [H|H]; [discriminate H|]);
  by apply elem_of_nil in H.

Lemma findall_text_cons (c : char) (s : str) :
  c <> lbracket -> findall (c :: s) = findall s.
Proof.
  intros Hc. unfold findall. rewrite scan_cons.
  match goal with
  | |- context [match_marker ?x] =>
      destruct (match_marker x) as [[g rest]|] eqn:Hm
  end; [|done].
  apply match_marker_spec in Hm as [_ [= Heq _]]. done.
Qed.

Lemma findall_plain_app (pre s : str) :
  lbracket ∉ pre -> findall (pre ++ s) = findall s.
Proof.
  induction pre as [|c pre IH]; intros Hpre; simpl; [done|].
  rewrite findall_text_cons.
  - apply IH. intros Hin. apply Hpre. by right.
  - intros ->. apply Hpre. left.
Qed.

Lemma findall_plain (s : str) : lbracket ∉ s -> findall s = [].
Proof.
  intros Hs. rewrite <- (app_nil_r s), findall_plain_app by done.
  unfold findall. by simp scan.
Qed.

Lemma findall_marker (g rest : str) :
  is_ident g -> findall (lbracket :: g ++ rbracket :: rest) = g :: findall rest.
Proof.
  intros Hid. unfold findall. rewrite scan_cons.
  assert (Hat : match_marker (lbracket :: g ++ rbracket :: rest)
                = Some (g, rest)) by (by apply match_marker_spec).
  by rewrite Hat.
Qed.

Lemma findall_cites_app (piece g rest : str) :
  cites piece g -> is_ident g -> findall (piece ++ rest) = g :: findall rest.
Proof.
  intros (pre & post & -> & Hpre & Hpost) Hid.
  rewrite <- app_assoc, findall_plain_app by done. simpl.
  rewrite <- app_assoc. simpl.
  by rewrite findall_marker, findall_plain_app.
Qed.

Lemma app_marker_inv (s post g rest : str) :
  rbracket ∉ g -> rbracket ∉ post ->
  s ++ post = g ++ rbracket :: rest -> exists r, s = g ++ rbracket :: r.
Proof.
  revert s. induction g as [|x g IH]; intros s Hg Hpost Heq.
  - destruct s as [|c s]; simpl in Heq.
    + exfalso. apply Hpost. rewrite Heq. left.
    + injection Heq as -> _. by exists s.
  - destruct s as [|c s]; simpl in Heq.
    + exfalso. apply Hpost. rewrite Heq. right.
      apply elem_of_app. right. left.
    + injection Heq as -> Heq.
      destruct (IH s) as (r & ->); [|done|done|by exists r].
      intros Hin. apply Hg. by right.
Qed.

Lemma lexes_plain (post : str) : lbracket ∉ post -> lexes post (map Text post).
Proof.
  induction post as [|c post IH]; intros Hpost; simpl; [constructor|].
  apply lexes_text.
  - intros g rest [_ [= -> _]]. apply Hpost. left.
  - apply IH. intros Hin. apply Hpost. by right.
Qed.

Lemma lexes_app_plain (s : str) (tks : list token) (post : str) :
  lexes s tks -> lbracket ∉ post -> rbracket ∉ post ->
  lexes (s ++ post) (tks ++ map Text post).
Proof.
  intros Hlex Hl Hr.
  induction Hlex as [|s g rest tks Hm _ IH|c s tks Hno _ IH]; simpl.
  - by apply lexes_plain.
  - eapply lexes_match; [by apply marker_at_app | done].
  - apply lexes_text; [|done].
    intros g rest [[Hne Hg] [= -> Heq]].
    destruct (app_marker_inv s post g rest Hg Hr Heq) as (r & ->).
    by apply (Hno g r).
Qed.

Lemma findall_app_plain (s post : str) :
  lbracket ∉ post -> rbracket ∉ post -> findall (s ++ post) = findall s.
Proof.
  intros Hl Hr.
  pose proof (lexes_app_plain s (scan s) post (scan_lexes s) Hl Hr) as Hlex.
  apply lexes_scan in Hlex. unfold findall. rewrite Hlex, omap_app.
  assert (Hnone : forall l : str,
            omap (fun tk => match tk with Match g => Some g | Text _ => None end)
                 (map Text l) = []).
  { induction l as [|c l IHl]; [done | exact IHl]. }
  by rewrite Hnone, app_nil_r.
Qed.

Lemma space_not_bracket (c : char) :
  isspace c = true -> c <> lbracket /\ c <> rbracket.
Proof. intros Hc. split; intros ->; discriminate Hc. Qed.

Lemma spaces_no_bracket (ws : str) :
  Forall (fun c => isspace c = true) ws ->
  (lbracket ∉ ws) /\ (rbracket ∉ ws).
Proof.
  intros Hws. split; intros Hin%list_elem_of_In;
    apply (proj1 (List.Forall_forall _ _) Hws), space_not_bracket in Hin;
    by destruct Hin.
Qed.

Lemma lstrip_split (s : str) :
  exists ws, s = ws ++ lstrip s /\ Forall (fun c => isspace c = true) ws.
Proof.
  induction s as [|c s (ws & Hs & Hws)]; simpl.
  - by exists [].
  - destruct (isspace c) eqn:Hc.
    + exists (c :: ws). split; [simpl; by f_equal | by constructor].
    + by exists [].
Qed.

Lemma rstrip_split (s : str) :
  exists ws, s = rstrip s ++ ws /\ Forall (fun c => isspace c = true) ws.
Proof.
  destruct (lstrip_split (rev s)) as (ws & Hs & Hws).
  exists (rev ws). split; [|by apply List.Forall_rev].
  unfold rstrip. rewrite <- rev_app_distr, <- Hs. by rewrite rev_involutive.
Qed.

Lemma strip_split (s : str) :
  exists ws1 ws2,
    s = ws1 ++ strip s ++ ws2
    /\ Forall (fun c => isspace c = true) ws1
    /\ Forall (fun c => isspace c = true) ws2.
Proof.
  destruct (lstrip_split s) as (ws1 & Hs & Hws1).
  destruct (rstrip_split (lstrip s)) as (ws2 & Hl & Hws2).
  exists ws1, ws2. split; [|done]. unfold strip. by rewrite <- Hl.
Qed.

(** Stripping a text neither adds nor removes a marker. *)
Lemma findall_strip (s : str) : findall (strip s) = findall s.
Proof.
  destruct (strip_split s) as (ws1 & ws2 & Hs & Hws1 & Hws2).
  destruct (spaces_no_bracket ws1 Hws1) as [Hl1 _].
  destruct (spaces_no_bracket ws2 Hws2) as [Hl2 Hr2].
  rewrite Hs at 2. by rewrite findall_plain_app, findall_app_plain.
Qed.

Lemma strip_elem (c : char) (s : str) : c ∈ strip s -> c ∈ s.
Proof.
  destruct (strip_split s) as (ws1 & ws2 & Hs & _). intros Hin.
  rewrite Hs, !elem_of_app. right. by left.
Qed.

Lemma split_elem (sep : char) (s piece : str) (c : char) :
  piece ∈ Citation.split sep s -> c ∈ piece -> c ∈ s.
Proof.
  unfold Citation.split. revert piece.
  induction s as [|c0 s IH]; intros piece; simpl.
  - intros ->%list_elem_of_singleton. by intros ?%elem_of_nil.
  - destruct (Citation.split_pieces sep s) as [p others].
    destruct (c0 =? sep).
    + intros [->|Hin]%elem_of_cons; [by intros ?%elem_of_nil|].
      intros Hc. right. by apply (IH piece).
    + intros [->|Hin]%elem_of_cons.
      * intros [->|Hc]%elem_of_cons; [left|]. right. apply (IH p); [left|done].
      * intros Hc. right. apply (IH piece); [by right | done].
Qed.

Lemma hd_split (sep : char) (s : str) :
  hd [] (Citation.split sep s) ∈ Citation.split sep s.
Proof.
  unfold Citation.split. destruct (Citation.split_pieces sep s). simpl. left.
Qed.

Lemma find_elem {A} (f : A -> bool) (l : list A) (x : A) :
  List.find f l = Some x -> x ∈ l.
Proof. intros [Hin _]%List.find_some. by apply list_elem_of_In. Qed.

Lemma fold_left_app_concat {A} (f : A -> str) (l : list A) (init : str) :
  fold_left (fun a r => a ++ f r) l init = init ++ concat (map f l).
Proof.
  revert init. induction l as [|x l IH]; intros init; simpl.
  - by rewrite app_nil_r.
  - by rewrite IH, <- app_assoc.
Qed.

Section GeneratorFacts.
Context {coord : Type} (lower : str -> str).
Implicit Types (r : QueryResult coord) (rs : list (QueryResult coord)).

Lemma findall_items_exact (f : QueryResult coord -> str) rs :
  (forall r, r ∈ rs ->
     cites (f r) (c_id (chunk r)) /\ is_ident (c_id (chunk r))) ->
  findall (concat (map f rs)) = map (fun r => c_id (chunk r)) rs.
Proof.
  induction rs as [|r rs IH]; intros Hall; simpl.
  - by apply findall_plain, not_elem_of_nil.
  - destruct (Hall r) as [Hc Hid]; [left|].
    rewrite (findall_cites_app _ _ _ Hc Hid). f_equal.
    apply IH. intros r' Hr'. apply Hall. by right.
Qed.

Lemma findall_items_some (f : QueryResult coord -> str) rs (g : str) :
  (forall r, r ∈ rs ->
     (f r = [] \/ cites (f r) (c_id (chunk r))) /\ is_ident (c_id (chunk r))) ->
  g ∈ findall (concat (map f rs)) ->
  exists r, r ∈ rs /\ c_id (chunk r) = g.
Proof.
  induction rs as [|r rs IH]; intros Hall; simpl.
  - rewrite findall_plain by apply not_elem_of_nil. by intros ?%elem_of_nil.
  - assert (Hrest : forall r', r' ∈ rs ->
              (f r' = [] \/ cites (f r') (c_id (chunk r')))
              /\ is_ident (c_id (chunk r'))).
    { intros r' Hr'. apply Hall. by right. }
    destruct (Hall r) as [[Hnil|Hc] Hid]; [left| |].
    + rewrite Hnil. simpl. intros Hin.
      destruct (IH Hrest Hin) as (r' & Hr' & Hg). exists r'. split; [by right|done].
    + rewrite (findall_cites_app _ _ _ Hc Hid).
      intros [->|Hin]%elem_of_cons.
      * exists r. split; [left|done].
      * destruct (IH Hrest Hin) as (r' & Hr' & Hg).
        exists r'. split; [by right|done].
Qed.

Lemma fallback_item_cites r :
  lbracket ∉ c_text (chunk r) ->
  cites (Citation.fallback_item r) (c_id (chunk r)).
Proof.
  intros Htext. unfold Citation.fallback_item, cites.
  destruct (100 <? length (c_text (chunk r)))%nat.
  - destruct (50 <? length _)%nat.
    + exists (Citation.bullet
              ++ strip (hd [] (Citation.split Citation.full_stop
                                 (c_text (chunk r)))) ++ [46; 32]),
             [Citation.newline; Citation.newline].
      split; [by rewrite <- !app_assoc|]. split; [|literal_free].
      rewrite !elem_of_app.
      intros [Hin|[Hin%strip_elem|Hin]]; revert Hin; try literal_free.
      intros Hin. apply Htext.
      apply (split_elem Citation.full_stop _ _ _ (hd_split _ _) Hin).
    + exists (Citation.bullet ++ (take 200 (c_text (chunk r)) ++ [46; 46; 46])
              ++ [32]),
             [Citation.newline; Citation.newline].
      split; [by rewrite <- !app_assoc|]. split; [|literal_free].
      rewrite !elem_of_app.
      intros [Hin|[[Hin|Hin]|Hin]]; revert Hin; try literal_free.
      intros (i & Hi & _)%elem_of_take. apply Htext.
      by apply list_elem_of_lookup_2 in Hi.
  - exists (Citation.bullet ++ c_text (chunk r) ++ [32]),
           [Citation.newline; Citation.newline].
    split; [by rewrite <- !app_assoc|]. split; [|literal_free].
    rewrite !elem_of_app.
    intros [Hin|[Hin|Hin]]; revert Hin; try literal_free. done.
Qed.

Lemma context_item_cites r :
  lbracket ∉ c_text (chunk r) ->
  Citation.context_item lower r = []
  \/ cites (Citation.context_item lower r) (c_id (chunk r)).
Proof.
  intros Htext. unfold Citation.context_item.
  destruct (List.find _ _) as [sentence|] eqn:Hfind; [right | by left].
  apply find_elem in Hfind.
  exists (Citation.bullet ++ strip sentence ++ [46; 32]),
         [Citation.newline; Citation.newline].
  split; [by rewrite <- !app_assoc|]. split; [|literal_free].
  rewrite !elem_of_app.
  intros [Hin|[Hin%strip_elem|Hin]]; revert Hin; try literal_free.
  intros Hin. apply Htext. by apply (split_elem _ _ _ _ Hfind).
Qed.

Lemma definition_answer_cites r (a : str) :
  lbracket ∉ c_text (chunk r) ->
  Citation.definition_answer lower r = Some a ->
  cites a (c_id (chunk r)).
Proof.
  intros Htext. unfold Citation.definition_answer.
  destruct (_ && _); [|done].
  destruct (List.find _ _) as [line|] eqn:Hfind; [|done].
  apply find_elem in Hfind. intros [= <-].
  exists (lit "According to the document: " ++ strip line ++ [32]), [].
  split; [by rewrite <- !app_assoc|]. split; [|apply not_elem_of_nil].
  rewrite !elem_of_app.
  intros [Hin|[Hin%strip_elem|Hin]]; revert Hin; try literal_free.
  intros Hin. apply Htext. by apply (split_elem _ _ _ _ Hfind).
Qed.

Lemma first_definition_Some rs (a : str) :
  Citation.first_definition lower rs = Some a ->
  exists r, r ∈ rs /\ Citation.definition_answer lower r = Some a.
Proof.
  induction rs as [|r rs IH]; simpl; [done|].
  destruct (Citation.definition_answer lower r) as [a'|] eqn:Hdef.
  - intros [= ->]. exists r. split; [left|done].
  - intros (r' & Hr' & Ha)%IH. exists r'. split; [by right|done].
Qed.

Lemma findall_fallback_answer rs :
  (forall r, r ∈ take 2 rs ->
     (lbracket ∉ c_text (chunk r)) /\ is_ident (c_id (chunk r))) ->
  findall (Citation.fallback_answer rs)
  = map (fun r => c_id (chunk r)) (take 2 rs).
Proof.
  intros Hall. unfold Citation.fallback_answer.
  rewrite findall_strip, fold_left_app_concat, findall_plain_app.
  - apply findall_items_exact. intros r Hr.
    destruct (Hall r Hr) as [Htext Hid]. split; [|done].
    by apply fallback_item_cites.
  - rewrite elem_of_app. intros [Hin|Hin]; revert Hin; literal_free.
Qed.

End GeneratorFacts.

Lemma generated_markers {coord : Type} (lower : str -> str) (query : str)
    (rs : list (QueryResult coord)) (g : str) :
  (forall r, r ∈ rs ->
     (lbracket ∉ c_text (chunk r)) /\ is_ident (c_id (chunk r))) ->
  g ∈ findall (Citation.generate_answer_with_citations lower query rs) ->
  exists r, r ∈ rs /\ c_id (chunk r) = g.
Proof.
  intros Hall.
  assert (Htake : forall r, r ∈ take 2 rs -> r ∈ rs).
  { intros r (i & Hi & _)%elem_of_take. by apply list_elem_of_lookup_2 in Hi. }
  assert (Hfallback : g ∈ findall (Citation.fallback_answer rs) ->
            exists r, r ∈ rs /\ c_id (chunk r) = g).
  { rewrite findall_fallback_answer by (intros r Hr; by apply Hall, Htake).
    change (map ?f ?l) with (f <$> l).
    intros (r & -> & Hr)%list_elem_of_fmap. exists r. split; [by apply Htake|done]. }
  unfold Citation.generate_answer_with_citations.
  destruct rs as [|r0 rs'] eqn:Hrs.
  { rewrite findall_plain by literal_free. by intros ?%elem_of_nil. }
  rewrite <- Hrs in *. clear Hrs.
  destruct (Citation.contains _ _); [|exact Hfallback].
  destruct (Citation.first_definition lower rs) as [a|] eqn:Hdef.
  - apply first_definition_Some in Hdef as (r & Hr & Hdef).
    destruct (Hall r Hr) as [Htext Hid].
    pose proof (definition_answer_cites lower r a Htext Hdef) as Hc.
    rewrite <- (app_nil_r a), (findall_cites_app _ _ _ Hc Hid).
    rewrite findall_plain by apply not_elem_of_nil.
    intros ->%list_elem_of_singleton. by exists r.
  - destruct (List.filter _ (take 2 rs)) as [|x l] eqn:Hrel; [exact Hfallback|].
    rewrite <- Hrel. clear x l Hrel.
    rewrite findall_strip, fold_left_app_concat, findall_plain_app.
    + intros (r & Hr & Hg)%findall_items_some.
      * exists r. split; [|done].
        apply list_elem_of_In, List.filter_In in Hr as [Hr _].
        by apply Htake, list_elem_of_In.
      * intros r Hr.
        apply list_elem_of_In, List.filter_In in Hr as [Hr%list_elem_of_In%Htake _].
        destruct (Hall r Hr) as [Htext Hid]. split; [|done].
        by apply context_item_cites.
    + rewrite elem_of_app. intros [Hin|Hin]; revert Hin; literal_free.
Qed.

(** X10.  The answer generator cites only what was retrieved.  When no
    retrieved text contains a '[' and every retrieved chunk id is an
    identifier (not empty, no ']'), every marker of the answer of
    [generate_answer_with_citations] is the id of a retrieved chunk, and
    [extract_cited_chunks] has an entry for it. *)
Theorem generated_answer_cites_retrieved_chunks {coord : Type}
    (lower : str -> str) (query : str)
    (search_results : list (QueryResult coord)) :
  (forall r, r ∈ search_results ->
     (lbracket ∉ c_text (chunk r)) /\ is_ident (c_id (chunk r))) ->
  forall g,
    g ∈ findall (Citation.generate_answer_with_citations lower query
                   search_results) ->
    (exists r, r ∈ search_results /\ c_id (chunk r) = g)
    /\ is_Some (Citation.extract_cited_chunks
                  (Citation.generate_answer_with_citations lower query
                     search_results)
                  search_results !! g).
Proof.
  intros Hall g Hg.
  destruct (generated_markers lower query search_results g Hall Hg)
    as (r & Hr & Hid).
  split; [by exists r|].
  rewrite extract_lookup. destruct (decide _) as [_|Hno]; [|done].
  destruct (last_with_id g search_results) as [r'|] eqn:Hlast; [by eexists|].
  exfalso. by apply (proj1 (last_with_id_None g search_results) Hlast r Hr).
Qed.

(** The theorem at the example candidate, with the identity for the
    case mapping. *)
Lemma generated_answer_witness :
  (exists r, r ∈ [CitationExample.abc123] /\ c_id (chunk r) = lit "abc123")
  /\ is_Some (Citation.extract_cited_chunks
                (Citation.generate_answer_with_citations (fun s => s)
                   (lit "what is X?") [CitationExample.abc123])
                [CitationExample.abc123] !! lit "abc123").
Proof.
  refine (generated_answer_cites_retrieved_chunks (fun s => s)
            (lit "what is X?") [CitationExample.abc123] _ (lit "abc123") _).
  - intros r ->%list_elem_of_singleton. split; [literal_free|].
    split; [discriminate | literal_free].
  - change (Citation.generate_answer_with_citations (fun s => s)
              (lit "what is X?") [CitationExample.abc123])
      with (Citation.fallback_answer [CitationExample.abc123]).
    rewrite findall_fallback_answer; [left|].
    intros r ->%list_elem_of_singleton. split; [literal_free|].
    split; [discriminate | literal_free].
Defined.

(** X11.  The general fallback cites the first two results.  When the
    query does not contain "handicap" (after [lower]) or no retrieved
    text does, and the texts of the first two results contain no '[' and
    their ids are identifiers, the markers of the answer are the ids of
    the first two results, in their order; with no result there is no
    marker. *)
Theorem fallback_answer_cites_first_two {coord : Type}
    (lower : str -> str) (query : str)
    (search_results : list (QueryResult coord)) :
  Citation.contains (lit "handicap") (lower query) = false
  \/ (forall r, r ∈ search_results ->
        Citation.contains (lit "handicap") (lower (c_text (chunk r))) = false) ->
  (forall r, r ∈ take 2 search_results ->
     (lbracket ∉ c_text (chunk r)) /\ is_ident (c_id (chunk r))) ->
  findall (Citation.generate_answer_with_citations lower query search_results)
  = map (fun r => c_id (chunk r)) (take 2 search_results).
Proof.
  intros Hcase Hall.
  pose proof (findall_fallback_answer search_results Hall) as Hfallback.
  unfold Citation.generate_answer_with_citations.
  destruct search_results as [|r0 rs'] eqn:Hrs.
  { by rewrite findall_plain by literal_free. }
  rewrite <- Hrs in *.
  assert (Htake : forall r, r ∈ take 2 search_results -> r ∈ search_results).
  { intros r (i & Hi & _)%elem_of_take. by apply list_elem_of_lookup_2 in Hi. }
  clear Hrs.
  destruct (Citation.contains _ (lower query)) eqn:Hq; [|exact Hfallback].
  destruct Hcase as [Hcase|Hnone]; [done|].
  assert (Hdef : Citation.first_definition lower search_results = None).
  { clear Hfallback Hall Htake.
    induction search_results as [|r rs IH]; simpl; [done|].
    unfold Citation.definition_answer. rewrite (Hnone r) by left. simpl.
    apply IH. intros r' Hr'. apply Hnone. by right. }
  rewrite Hdef.
  assert (Hrel : List.filter
            (fun result =>
               Citation.contains (lit "handicap") (lower (c_text (chunk result))))
            (take 2 search_results) = []).
  { generalize (take 2 search_results), Htake. intros l Hl.
    induction l as [|r l IH]; simpl; [done|].
    rewrite (Hnone r) by (apply Hl; left).
    apply IH. intros r' Hr'. apply Hl. by right. }
  by rewrite Hrel.
Qed.

(** The theorem at the example candidate. *)
Lemma fallback_answer_witness :
  findall (Citation.generate_answer_with_citations (fun s => s)
             (lit "what is X?") [CitationExample.abc123])
  = [lit "abc123"].
Proof.
  apply (fallback_answer_cites_first_two (fun s => s) (lit "what is X?")
           [CitationExample.abc123]).
  - left. vm_compute. reflexivity.
  - intros r ->%list_elem_of_singleton. split; [literal_free|].
    split; [discriminate | literal_free].
Defined.

Lemma rendered_linked {coord : Type} (format_coord : coord -> str)
    (m : gmap str (Payload coord)) (rs : list (QueryResult coord))
    (tks : list token) (pieces : list str) :
  (forall g, Match g ∈ tks ->
     strip g = g
     /\ exists r, last_with_id g rs = Some r /\ m !! g = Some (payload_of r)) ->
  Forall2 (rendered format_coord m) tks pieces ->
  Forall2 (linked format_coord rs) tks pieces.
Proof.
  intros Hgood Hf. induction Hf as [|tk piece tks pieces Hr _ IH];
    constructor.
  - destruct tk as [c|g].
    + inversion Hr. constructor.
    + destruct (Hgood g) as (Hg & r & Hlast & Hm); [left|].
      inversion Hr as [|g' p b0 b1 b2 b3 more Hp Hb|g' Hp]; subst;
        rewrite Hg in *; rewrite Hm in Hp; [|done].
      injection Hp as <-. by eapply linked_marker.
  - apply IH. intros g Hin. apply Hgood. by right.
Qed.

(** X12.  From the retrieved chunks to the links.  When no retrieved
    text contains a '[', and every retrieved chunk id is an identifier
    without surrounding blanks and its box has four coordinates,
    [linkify_citations] applied to the generated answer and the chunks
    [extract_cited_chunks] finds in it returns, and every marker of the
    answer has become the reference to the last result with that id:
    no marker is left unresolved. *)
Theorem generated_answer_is_fully_linked {coord : Type}
    (format_coord : coord -> str) (lower : str -> str) (query : str)
    (search_results : list (QueryResult coord)) :
  (forall r, r ∈ search_results ->
     (lbracket ∉ c_text (chunk r)) /\ is_ident (c_id (chunk r))
     /\ strip (c_id (chunk r)) = c_id (chunk r)
     /\ (4 <= length (c_bbox (chunk r)))%nat) ->
  exists pieces,
    Citation.linkify_citations format_coord
      (Citation.generate_answer_with_citations lower query search_results)
      (Citation.extract_cited_chunks
         (Citation.generate_answer_with_citations lower query search_results)
         search_results)
    = Ok (concat pieces)
    /\ Forall2 (linked format_coord search_results)
         (scan (Citation.generate_answer_with_citations lower query
                  search_results))
         pieces.
Proof.
  intros Hall.
  set (answer := Citation.generate_answer_with_citations lower query
                   search_results).
  set (m := Citation.extract_cited_chunks answer search_results).
  assert (Hbox : forall i p, m !! i = Some p -> (4 <= length (p_bbox p))%nat).
  { intros i p. subst m. rewrite extract_lookup.
    destruct (decide _); [|done].
    destruct (last_with_id i search_results) as [r|] eqn:Hlast; [|done].
    intros [= <-]. apply last_with_id_Some in Hlast as [Hr _].
    by apply (Hall r Hr). }
  destruct (linkify_total format_coord answer m Hbox) as (out & Hout).
  pose proof Hout as (pieces & -> & Hf)%linkify_Ok.
  exists pieces. split; [done|].
  apply (rendered_linked format_coord m); [|done].
  intros g Hg%findall_Match.
  destruct (generated_markers lower query search_results g) as (r0 & Hr0 & Hid);
    [intros r Hr; destruct (Hall r Hr) as (? & ? & _); by split | done |].
  split.
  { rewrite <- Hid. by apply (Hall r0 Hr0). }
  destruct (last_with_id g search_results) as [r|] eqn:Hlast.
  - exists r. split; [done|]. subst m. rewrite extract_lookup.
    destruct (decide _) as [_|Hno]; [|done]. by rewrite Hlast.
  - exfalso. by apply (proj1 (last_with_id_None g search_results) Hlast r0 Hr0).
Qed.

(** The theorem at the example candidate. *)
Lemma fully_linked_witness :
  exists pieces,
    Citation.linkify_citations str_of_int
      (Citation.generate_answer_with_citations (fun s => s)
         (lit "what is X?") [CitationExample.abc123])
      (Citation.extract_cited_chunks
         (Citation.generate_answer_with_citations (fun s => s)
            (lit "what is X?") [CitationExample.abc123])
         [CitationExample.abc123])
    = Ok (concat pieces)
    /\ Forall2 (linked str_of_int [CitationExample.abc123])
         (scan (Citation.generate_answer_with_citations (fun s => s)
                  (lit "what is X?") [CitationExample.abc123]))
         pieces.
Proof.
  apply generated_answer_is_fully_linked.
  intros r ->%list_elem_of_singleton. split; [literal_free|].
  split; [split; [discriminate | literal_free]|].
  split; [reflexivity | simpl; lia].
Defined.
